(** * Closeness centrality of igraph: [src/centrality/closeness.c]

    A shallow embedding of [igraph_closeness_estimate] (the dispatcher and
    the unweighted, breadth-first engine) and of
    [igraph_i_closeness_estimate_weighted] (the Dijkstra engine), followed
    by the properties of the two engines.

    Conventions of the embedding.
    - [igraph_real_t] is the C [double]: Rocq's primitive binary64 [float].
    - [long int] quantities (vertex count, distances in hops, the number of
      vertices reached, the visitation stamps) are in [Z]; vertex and edge
      identifiers, which index vectors, are in [nat].
    - [already_counted], a vector of doubles that only ever holds the stamps
      0 and [i + 1], is kept in [Z] like the [long] vector [which] of the
      weighted engine.
    - The caller's result vector, the warnings handed to the warning handler
      and the number of interruption polls are threaded explicitly. *)

From Stdlib Require Import ZArith List Lia Bool Floats.
Import ListNotations.
Local Open Scope Z_scope.

(** ** Vectors *)

(** [VECTOR(v)[k] = x]: store into a cell of a vector.  A store outside the
    vector is undefined in C; it leaves the model's vector as it is. *)
Fixpoint vector_set {A : Type} (v : list A) (k : nat) (x : A) : list A :=
  match v, k with
  | [], _ => []
  | _ :: r, O => x :: r
  | y :: r, S k' => y :: vector_set r k' x
  end.

(** [igraph_vector_resize] followed by [igraph_vector_null]. *)
Definition igraph_vector_null (size : nat) : list float := repeat 0%float size.

(** Conversion of a C [long int] to [double] (round to nearest; exact below
    2^53). *)
Definition real_of_long (z : Z) : float :=
  if z <? 0 then PrimFloat.opp (PrimFloat.of_uint63 (Uint63.of_Z (- z)))
  else PrimFloat.of_uint63 (Uint63.of_Z z).

(** ** The graph *)

(** Modelled from the spec: the graph container [igraph_t], an external
    collaborator that is not part of [closeness.c].  Vertices are the
    integers [0 .. vcount-1]; edges have stable integer ids, edge [e] being
    the [e]-th pair (from, to) of [edges]. *)
Record igraph_t : Type := {
  vcount : nat;
  directed : bool;
  edges : list (nat * nat)
}.

(** Modelled from the spec: the graph query surface, vertex count and edge
    count. *)
Definition igraph_vcount (g : igraph_t) : Z := Z.of_nat (vcount g).
Definition igraph_ecount (g : igraph_t) : Z := Z.of_nat (length (edges g)).

(** Modelled from the spec: the two ends of an edge, and [IGRAPH_OTHER], the
    end of edge [e] that is not [v]. *)
Definition IGRAPH_FROM (g : igraph_t) (e : nat) : nat := fst (nth e (edges g) (O, O)).
Definition IGRAPH_TO (g : igraph_t) (e : nat) : nat := snd (nth e (edges g) (O, O)).
Definition IGRAPH_OTHER (g : igraph_t) (e v : nat) : nat :=
  if Nat.eqb (IGRAPH_TO g e) v then IGRAPH_FROM g e else IGRAPH_TO g e.

(** [igraph_neimode_t]: a C enumeration, so any integer can be passed. *)
Definition igraph_neimode_t : Type := Z.
Definition IGRAPH_OUT : igraph_neimode_t := 1.
Definition IGRAPH_IN : igraph_neimode_t := 2.
Definition IGRAPH_ALL : igraph_neimode_t := 3.

(** [mode != IGRAPH_OUT && mode != IGRAPH_IN && mode != IGRAPH_ALL] *)
Definition invalid_mode (mode : igraph_neimode_t) : bool :=
  negb (mode =? IGRAPH_OUT) && negb (mode =? IGRAPH_IN) && negb (mode =? IGRAPH_ALL).

(** Modelled from the spec: per-vertex incident-edge enumeration filtered by
    mode.  Out-edges come first, then in-edges; an undirected graph is always
    read as [IGRAPH_ALL], and a loop edge is listed twice there. *)
Definition igraph_incident (g : igraph_t) (mode : igraph_neimode_t) (v : nat) : list nat :=
  let mode := if directed g then mode else IGRAPH_ALL in
  let ids := seq 0 (length (edges g)) in
  (if Z.land mode IGRAPH_OUT =? 0 then []
   else filter (fun e => Nat.eqb (IGRAPH_FROM g e) v) ids)
  ++ (if Z.land mode IGRAPH_IN =? 0 then []
      else filter (fun e => Nat.eqb (IGRAPH_TO g e) v) ids).

(** Modelled from the spec: per-vertex neighbor enumeration filtered by mode
    ([igraph_adjlist_get] on the list built by [igraph_adjlist_init]). *)
Definition igraph_neighbors (g : igraph_t) (mode : igraph_neimode_t) (v : nat) : list nat :=
  map (fun e => IGRAPH_OTHER g e v) (igraph_incident g mode v).

(** The invariant of the container: both ends of every edge are vertices. *)
Definition graph_wf (g : igraph_t) : bool :=
  forallb (fun e => Nat.ltb (fst e) (vcount g) && Nat.ltb (snd e) (vcount g)) (edges g).

(** ** Error codes, warnings, outcomes *)

Inductive igraph_error_type_t : Type :=
| IGRAPH_SUCCESS
| IGRAPH_EINVAL
| IGRAPH_EINVMODE
| IGRAPH_EINVVID
| IGRAPH_INTERRUPTED.

Inductive warning_t : Type :=
| WARN_DISCONNECTED   (* "closeness centrality is not well-defined for disconnected graphs" *)
| WARN_EPSILON.       (* "Some weights are smaller than epsilon, ..." *)

Definition warning_eqb (a b : warning_t) : bool :=
  match a, b with
  | WARN_DISCONNECTED, WARN_DISCONNECTED => true
  | WARN_EPSILON, WARN_EPSILON => true
  | _, _ => false
  end.

(** How a call ends: it returns an error code, or it runs into a read that C
    leaves undefined, or the model's loop bound is used up (which the
    theorems below exclude for well-formed graphs). *)
Inductive termination : Type :=
| Returns (code : igraph_error_type_t)
| UndefinedRead
| FuelExhausted.

(** What the caller observes after a call: the result vector [res], the
    warnings passed to the warning handler (oldest first) and the number of
    times the interruption handler was polled. *)
Record outcome : Type := {
  ret : termination;
  res : list float;
  warnings : list warning_t;
  polls : nat
}.

(** Modelled from the spec: the vertex-subset iterator produces vertex ids in
    caller-defined order; [igraph_vit_create] refuses an id that is not a
    vertex ([IGRAPH_EINVVID] in the function's documentation). *)
Definition igraph_vit_create (g : igraph_t) (vids : list nat) : bool :=
  forallb (fun v => Nat.ltb v (vcount g)) vids.

(** ** The unweighted engine *)

(** The state of one breadth-first traversal.  The queue holds a vertex and
    its distance in two consecutive cells, always pushed and popped together:
    an entry is a pair. *)
Record bfs_state : Type := {
  bfs_q : list (nat * Z);
  bfs_counted : list Z;        (* already_counted *)
  bfs_reached : Z;             (* nodes_reached *)
  bfs_sum : float;             (* VECTOR( *res)[i] *)
  bfs_actdist : Z              (* actdist *)
}.

(** The [for (j = 0; j < igraph_vector_int_size(neis); j++)] loop. *)
Fixpoint bfs_neighbors (stamp actdist : Z) (neis : list nat) (st : bfs_state) : bfs_state :=
  match neis with
  | [] => st
  | neighbor :: neis' =>
      if nth neighbor (bfs_counted st) 0 =? stamp then
        bfs_neighbors stamp actdist neis' st
      else
        bfs_neighbors stamp actdist neis'
          {| bfs_q := bfs_q st ++ [(neighbor, actdist + 1)];
             bfs_counted := vector_set (bfs_counted st) neighbor stamp;
             bfs_reached := bfs_reached st + 1;
             bfs_sum := bfs_sum st;
             bfs_actdist := bfs_actdist st |}
  end.

(** [cutoff >= 0 && actdist > cutoff] *)
Definition beyond_cutoff (cutoff : float) (actdist : Z) : bool :=
  PrimFloat.leb 0 cutoff && PrimFloat.ltb cutoff (real_of_long actdist).

(** The [while (!igraph_dqueue_empty(&q))] loop; [fuel] bounds the number of
    vertices dequeued. *)
Fixpoint bfs_while (fuel : nat) (g : igraph_t) (mode : igraph_neimode_t)
    (cutoff : float) (stamp : Z) (st : bfs_state) : option bfs_state :=
  match bfs_q st with
  | [] => Some st
  | (act, actdist) :: q' =>
      match fuel with
      | O => None
      | S fuel' =>
          let st1 := {| bfs_q := q';
                        bfs_counted := bfs_counted st;
                        bfs_reached := bfs_reached st;
                        bfs_sum := PrimFloat.add (bfs_sum st) (real_of_long actdist);
                        bfs_actdist := actdist |} in
          if beyond_cutoff cutoff actdist then
            bfs_while fuel' g mode cutoff stamp st1   (* continue, NOT break *)
          else
            bfs_while fuel' g mode cutoff stamp
              (bfs_neighbors stamp actdist (igraph_neighbors g mode act) st1)
      end
  end.

(** The traversal from one source: the body of the outer loop up to the end
    of the [while].  The cell [VECTOR( *res)[i]] is zero when it starts; a
    vertex is enqueued at most once, so [vcount g] steps of the [while] are
    enough on a well-formed graph. *)
Definition bfs_source (g : igraph_t) (mode : igraph_neimode_t) (cutoff : float)
    (i : nat) (source : nat) (already_counted : list Z) (actdist : Z) : option bfs_state :=
  bfs_while (vcount g) g mode cutoff (Z.of_nat i + 1)
    {| bfs_q := [(source, 0)];
       bfs_counted := vector_set already_counted source (Z.of_nat i + 1);
       bfs_reached := 1;
       bfs_sum := 0%float;
       bfs_actdist := actdist |}.

(** [VECTOR( *res)[i] += (igraph_real_t) no_of_nodes * (no_of_nodes - nodes_reached)]:
    the divisor of the score. *)
Definition bfs_total (g : igraph_t) (b : bfs_state) : float :=
  PrimFloat.add (bfs_sum b)
    (PrimFloat.mul (real_of_long (igraph_vcount g))
                   (real_of_long (igraph_vcount g - bfs_reached b))).

(** [(no_of_nodes - 1) / VECTOR( *res)[i]] *)
Definition closeness_score (no_of_nodes : Z) (total : float) : float :=
  PrimFloat.div (real_of_long (no_of_nodes - 1)) total.

(** [((cutoff >= 0 && actdist <= cutoff) || cutoff < 0)] *)
Definition within_cutoff (cutoff : float) (actdist : Z) : bool :=
  (PrimFloat.leb 0 cutoff && PrimFloat.leb (real_of_long actdist) cutoff)
  || PrimFloat.ltb cutoff 0.

(** The variables that live across the iterations of the outer loop. *)
Record loop_state : Type := {
  ls_res : list float;
  ls_counted : list Z;
  ls_actdist : Z;
  ls_warning_shown : bool;
  ls_warnings : list warning_t;
  ls_polls : nat
}.

(** The outer [for] loop over the vertex iterator.  [handler k] is the answer
    of the interruption handler to the [k]-th poll of the call ([true]: the
    caller asks to stop), read by [IGRAPH_ALLOW_INTERRUPTION].  Progress
    reports are observational and are left out. *)
Fixpoint closeness_loop (handler : nat -> bool) (g : igraph_t) (mode : igraph_neimode_t)
    (cutoff : float) (vit : list nat) (i : nat) (st : loop_state)
    : termination * loop_state :=
  match vit with
  | [] => (Returns IGRAPH_SUCCESS, st)
  | source :: vit' =>
      let stamped := vector_set (ls_counted st) source (Z.of_nat i + 1) in
      if handler (ls_polls st) then
        (Returns IGRAPH_INTERRUPTED,
         {| ls_res := ls_res st; ls_counted := stamped; ls_actdist := ls_actdist st;
            ls_warning_shown := ls_warning_shown st; ls_warnings := ls_warnings st;
            ls_polls := S (ls_polls st) |})
      else
        match bfs_source g mode cutoff i source (ls_counted st) (ls_actdist st) with
        | None =>
            (FuelExhausted,
             {| ls_res := ls_res st; ls_counted := stamped; ls_actdist := ls_actdist st;
                ls_warning_shown := ls_warning_shown st; ls_warnings := ls_warnings st;
                ls_polls := S (ls_polls st) |})
        | Some b =>
            let score := closeness_score (igraph_vcount g) (bfs_total g b) in
            let warn := within_cutoff cutoff (bfs_actdist b)
                        && (bfs_reached b <? igraph_vcount g)
                        && negb (ls_warning_shown st) in
            closeness_loop handler g mode cutoff vit' (S i)
              {| ls_res := vector_set (ls_res st) i score;
                 ls_counted := bfs_counted b;
                 ls_actdist := bfs_actdist b;
                 ls_warning_shown := ls_warning_shown st || warn;
                 ls_warnings := if warn then ls_warnings st ++ [WARN_DISCONNECTED]
                                else ls_warnings st;
                 ls_polls := S (ls_polls st) |}
        end
  end.

(** [if (!normalized) for (i = 0; i < nodes_to_calc; i++) VECTOR( *res)[i] /= (no_of_nodes - 1)] *)
Definition unnormalize (normalized : bool) (no_of_nodes : Z) (r : list float) : list float :=
  if normalized then r
  else map (fun x => PrimFloat.div x (real_of_long (no_of_nodes - 1))) r.

(** What the caller gets back: after the loop has run to its end, the scores,
    divided once more unless [normalized]; otherwise the error and the result
    vector as the loop left it. *)
Definition finish (normalized : bool) (g : igraph_t) (r : termination * loop_state) : outcome :=
  match r with
  | (Returns IGRAPH_SUCCESS, st) =>
      {| ret := Returns IGRAPH_SUCCESS;
         res := unnormalize normalized (igraph_vcount g) (ls_res st);
         warnings := ls_warnings st; polls := ls_polls st |}
  | (t, st) =>
      {| ret := t; res := ls_res st; warnings := ls_warnings st; polls := ls_polls st |}
  end.

(** The unweighted part of [igraph_closeness_estimate] (from the creation of
    the vertex iterator on).  [res0] is the caller's vector before the call. *)
Definition closeness_estimate_unweighted (handler : nat -> bool) (g : igraph_t)
    (res0 : list float) (vids : list nat) (mode : igraph_neimode_t) (cutoff : float)
    (normalized : bool) : outcome :=
  if negb (igraph_vit_create g vids) then
    {| ret := Returns IGRAPH_EINVVID; res := res0; warnings := []; polls := O |}
  else if invalid_mode mode then
    {| ret := Returns IGRAPH_EINVMODE; res := res0; warnings := []; polls := O |}
  else
    finish normalized g
      (closeness_loop handler g mode cutoff vids O
         {| ls_res := igraph_vector_null (length vids);
            ls_counted := repeat 0 (vcount g);
            ls_actdist := 0;
            ls_warning_shown := false;
            ls_warnings := [];
            ls_polls := O |}).

(** ** The weighted engine *)

(** Modelled from the spec: [IGRAPH_SHORTEST_PATH_EPSILON] (core/math.h), the
    fixed small threshold of the epsilon-tolerant comparison; 1e-10, written
    as the binary64 value closest to it. *)
Definition IGRAPH_SHORTEST_PATH_EPSILON : float := 0x1.b7cdfd9d7bdbbp-34%float.

(** Modelled from the spec: [igraph_cmp_epsilon] (core/math.c), a comparison
    that treats an absolute difference below the threshold as equality. *)
Definition igraph_cmp_epsilon (a b eps : float) : Z :=
  if PrimFloat.ltb (PrimFloat.abs (PrimFloat.sub a b)) eps then 0
  else if PrimFloat.ltb a b then -1 else 1.

(** Modelled from the spec: [igraph_vector_min] of the generic vector
    container.  It starts from the first element and keeps the smaller of it
    and every later element; on an empty vector that first read is outside
    the vector, which is [None] here. *)
Definition igraph_vector_min (v : list float) : option float :=
  match v with
  | [] => None
  | x :: r => Some (fold_left (fun m y => if PrimFloat.ltb y m then y else m) r x)
  end.

(** Modelled from the spec: [igraph_2wheap_t] (core/indheap.h), an indexed
    max-heap with decrease-key.  The model is the list of the queued
    [(index, element)] pairs in insertion order; the maximum is the first
    pair whose element no other pair exceeds. *)
Definition igraph_2wheap_t : Type := list (nat * float).

Definition igraph_2wheap_push_with_index (h : igraph_2wheap_t) (idx : nat) (elem : float)
    : igraph_2wheap_t :=
  h ++ [(idx, elem)].

(** [igraph_2wheap_max_index] and the element [igraph_2wheap_delete_max]
    returns; [None] on an empty heap. *)
Fixpoint igraph_2wheap_max (h : igraph_2wheap_t) : option (nat * float) :=
  match h with
  | [] => None
  | x :: r =>
      match igraph_2wheap_max r with
      | None => Some x
      | Some y => if PrimFloat.ltb (snd x) (snd y) then Some y else Some x
      end
  end.

(** The heap [igraph_2wheap_delete_max] leaves, given the index of the maximum. *)
Fixpoint igraph_2wheap_remove (h : igraph_2wheap_t) (idx : nat) : igraph_2wheap_t :=
  match h with
  | [] => []
  | x :: r => if Nat.eqb (fst x) idx then r else x :: igraph_2wheap_remove r idx
  end.

(** [igraph_2wheap_modify]; an index that is not queued is left alone (the
    engine changes the key of a vertex it has already popped only if a path
    got strictly shorter, which positive weights exclude). *)
Definition igraph_2wheap_modify (h : igraph_2wheap_t) (idx : nat) (elem : float)
    : igraph_2wheap_t :=
  map (fun x => if Nat.eqb (fst x) idx then (idx, elem) else x) h.

(** The state of one run of Dijkstra's algorithm. *)
Record dij_state : Type := {
  dj_Q : igraph_2wheap_t;
  dj_which : list Z;
  dj_dist : list float;        (* distance + 1; 0 means not seen *)
  dj_reached : Z;              (* nodes_reached *)
  dj_sum : float;              (* VECTOR( *res)[i] *)
  dj_mindist : float
}.

(** The [for (j = 0; j < nlen; j++)] loop over the incident edges of [minnei]. *)
Fixpoint dij_relax (g : igraph_t) (weights : list float) (stamp : Z) (minnei : nat)
    (mindist : float) (neis : list nat) (st : dij_state) : dij_state :=
  match neis with
  | [] => st
  | edge :: neis' =>
      let to := IGRAPH_OTHER g edge minnei in
      let altdist := PrimFloat.add mindist (nth edge weights 0%float) in
      let curdist := nth to (dj_dist st) 0%float in
      let cmp_result :=
        if PrimFloat.eqb curdist 0 then -1   (* this means curdist is infinity *)
        else igraph_cmp_epsilon altdist curdist IGRAPH_SHORTEST_PATH_EPSILON in
      if negb (nth to (dj_which st) 0 =? stamp) then
        (* First non-infinite distance *)
        dij_relax g weights stamp minnei mindist neis'
          {| dj_Q := igraph_2wheap_push_with_index (dj_Q st) to (PrimFloat.opp altdist);
             dj_which := vector_set (dj_which st) to stamp;
             dj_dist := vector_set (dj_dist st) to altdist;
             dj_reached := dj_reached st;
             dj_sum := dj_sum st;
             dj_mindist := dj_mindist st |}
      else if cmp_result <? 0 then
        (* This is a shorter path *)
        dij_relax g weights stamp minnei mindist neis'
          {| dj_Q := igraph_2wheap_modify (dj_Q st) to (PrimFloat.opp altdist);
             dj_which := dj_which st;
             dj_dist := vector_set (dj_dist st) to altdist;
             dj_reached := dj_reached st;
             dj_sum := dj_sum st;
             dj_mindist := dj_mindist st |}
      else
        dij_relax g weights stamp minnei mindist neis' st
  end.

(** [cutoff >= 0 && mindist > cutoff + 1.0] *)
Definition beyond_cutoff_weighted (cutoff mindist : float) : bool :=
  PrimFloat.leb 0 cutoff && PrimFloat.ltb (PrimFloat.add cutoff 1) mindist.

(** The [while (!igraph_2wheap_empty(&Q))] loop; [fuel] bounds the number of
    vertices popped. *)
Fixpoint dij_while (fuel : nat) (g : igraph_t) (mode : igraph_neimode_t)
    (weights : list float) (cutoff : float) (stamp : Z) (st : dij_state)
    : option dij_state :=
  match igraph_2wheap_max (dj_Q st) with
  | None => Some st
  | Some (minnei, top) =>
      match fuel with
      | O => None
      | S fuel' =>
          let neis := igraph_incident g mode minnei in
          let mindist := PrimFloat.opp top in
          let st1 := {| dj_Q := igraph_2wheap_remove (dj_Q st) minnei;
                        dj_which := dj_which st;
                        dj_dist := dj_dist st;
                        dj_reached := dj_reached st + 1;
                        dj_sum := PrimFloat.add (dj_sum st) (PrimFloat.sub mindist 1);
                        dj_mindist := mindist |} in
          if beyond_cutoff_weighted cutoff mindist then
            dij_while fuel' g mode weights cutoff stamp st1   (* continue, NOT break *)
          else
            dij_while fuel' g mode weights cutoff stamp
              (dij_relax g weights stamp minnei mindist neis st1)
      end
  end.

(** Dijkstra's algorithm from one source: the body of the outer loop up to
    the end of the [while].  A vertex is pushed at most once, so [vcount g]
    steps of the [while] are enough on a well-formed graph. *)
Definition dij_source (g : igraph_t) (mode : igraph_neimode_t) (weights : list float)
    (cutoff : float) (i : nat) (source : nat) (which : list Z) (dist : list float)
    (mindist : float) : option dij_state :=
  dij_while (vcount g) g mode weights cutoff (Z.of_nat i + 1)
    {| dj_Q := igraph_2wheap_push_with_index [] source (-1)%float;
       dj_which := vector_set which source (Z.of_nat i + 1);
       dj_dist := vector_set dist source 1%float;
       dj_reached := 0;
       dj_sum := 0%float;
       dj_mindist := mindist |}.

(** [VECTOR( *res)[i] += (igraph_real_t) no_of_nodes * (no_of_nodes - nodes_reached)]:
    the divisor of the score. *)
Definition dij_total (g : igraph_t) (d : dij_state) : float :=
  PrimFloat.add (dj_sum d)
    (PrimFloat.mul (real_of_long (igraph_vcount g))
                   (real_of_long (igraph_vcount g - dj_reached d))).

(** [((cutoff >= 0 && mindist <= cutoff + 1.0) || (cutoff < 0))] *)
Definition within_cutoff_weighted (cutoff mindist : float) : bool :=
  (PrimFloat.leb 0 cutoff && PrimFloat.leb mindist (PrimFloat.add cutoff 1))
  || PrimFloat.ltb cutoff 0.

(** The variables of the weighted engine that live across the outer loop. *)
Record wloop_state : Type := {
  ws_res : list float;
  ws_which : list Z;
  ws_dist : list float;
  ws_mindist : float;
  ws_warning_shown : bool;
  ws_warnings : list warning_t
}.

(** The outer [for] loop of the weighted engine.  It holds no interruption
    check. *)
Fixpoint closeness_loop_weighted (g : igraph_t) (mode : igraph_neimode_t)
    (weights : list float) (cutoff : float) (vit : list nat) (i : nat) (st : wloop_state)
    : termination * wloop_state :=
  match vit with
  | [] => (Returns IGRAPH_SUCCESS, st)
  | source :: vit' =>
      match dij_source g mode weights cutoff i source (ws_which st) (ws_dist st)
              (ws_mindist st) with
      | None => (FuelExhausted, st)
      | Some d =>
          let score := closeness_score (igraph_vcount g) (dij_total g d) in
          let warn := within_cutoff_weighted cutoff (dj_mindist d)
                      && (dj_reached d <? igraph_vcount g)
                      && negb (ws_warning_shown st) in
          closeness_loop_weighted g mode weights cutoff vit' (S i)
            {| ws_res := vector_set (ws_res st) i score;
               ws_which := dj_which d;
               ws_dist := dj_dist d;
               ws_mindist := dj_mindist d;
               ws_warning_shown := ws_warning_shown st || warn;
               ws_warnings := if warn then ws_warnings st ++ [WARN_DISCONNECTED]
                              else ws_warnings st |}
      end
  end.

(** What the caller gets back from the weighted engine. *)
Definition finish_weighted (normalized : bool) (g : igraph_t)
    (r : termination * wloop_state) : outcome :=
  match r with
  | (Returns IGRAPH_SUCCESS, st) =>
      {| ret := Returns IGRAPH_SUCCESS;
         res := unnormalize normalized (igraph_vcount g) (ws_res st);
         warnings := ws_warnings st; polls := O |}
  | (t, st) =>
      {| ret := t; res := ws_res st; warnings := ws_warnings st; polls := O |}
  end.

(** Modelled from the spec: [igraph_lazy_inclist_init], the creation of the
    incident-edge enumeration filtered by mode; the entry contract fails with
    InvalidMode if the mode is not in {OUT, IN, ALL}, and on the weighted
    path this is the only place where the mode is looked at.  [true]: the
    view was created. *)
Definition igraph_lazy_inclist_init (mode : igraph_neimode_t) : bool :=
  negb (invalid_mode mode).

(** [igraph_i_closeness_estimate_weighted]. *)
Definition igraph_i_closeness_estimate_weighted (g : igraph_t) (res0 : list float)
    (vids : list nat) (mode : igraph_neimode_t) (cutoff : float) (weights : list float)
    (normalized : bool) : outcome :=
  if negb (Z.of_nat (length weights) =? igraph_ecount g) then
    {| ret := Returns IGRAPH_EINVAL; res := res0; warnings := []; polls := O |}
  else
    match igraph_vector_min weights with
    | None => {| ret := UndefinedRead; res := res0; warnings := []; polls := O |}
    | Some minweight =>
        if PrimFloat.leb minweight 0 then
          {| ret := Returns IGRAPH_EINVAL; res := res0; warnings := []; polls := O |}
        else
          let warned := if PrimFloat.leb minweight IGRAPH_SHORTEST_PATH_EPSILON
                        then [WARN_EPSILON] else [] in
          if negb (igraph_vit_create g vids) then
            {| ret := Returns IGRAPH_EINVVID; res := res0; warnings := warned; polls := O |}
          else if negb (igraph_lazy_inclist_init mode) then
            {| ret := Returns IGRAPH_EINVMODE; res := res0; warnings := warned; polls := O |}
          else
            finish_weighted normalized g
              (closeness_loop_weighted g mode weights cutoff vids O
                 {| ws_res := igraph_vector_null (length vids);
                    ws_which := repeat 0 (vcount g);
                    ws_dist := repeat 0%float (vcount g);
                    ws_mindist := 0%float;
                    ws_warning_shown := false;
                    ws_warnings := warned |})
    end.

(** ** The entry points *)

(** [igraph_closeness_estimate]: a supplied weight vector routes the call to
    the weighted engine before anything else is looked at. *)
Definition igraph_closeness_estimate (handler : nat -> bool) (g : igraph_t)
    (res0 : list float) (vids : list nat) (mode : igraph_neimode_t) (cutoff : float)
    (weights : option (list float)) (normalized : bool) : outcome :=
  match weights with
  | Some w => igraph_i_closeness_estimate_weighted g res0 vids mode cutoff w normalized
  | None => closeness_estimate_unweighted handler g res0 vids mode cutoff normalized
  end.

(** [igraph_closeness]: the estimate with no cutoff. *)
Definition igraph_closeness (handler : nat -> bool) (g : igraph_t) (res0 : list float)
    (vids : list nat) (mode : igraph_neimode_t) (weights : option (list float))
    (normalized : bool) : outcome :=
  igraph_closeness_estimate handler g res0 vids mode (-1)%float weights normalized.

(** ** Inputs of the concrete scenarios *)

(** The interruption handler of a caller that never asks to stop. *)
Definition no_interrupt : nat -> bool := fun _ => false.

(** The undirected path graph 0-1-2-3. *)
Definition path4 : igraph_t :=
  {| vcount := 4; directed := false; edges := [(0, 1); (1, 2); (2, 3)]%nat |}.

(** Two components of two vertices each: 0-1 and 2-3. *)
Definition two_pairs : igraph_t :=
  {| vcount := 4; directed := false; edges := [(0, 1); (2, 3)]%nat |}.

(** One edge between two vertices. *)
Definition one_edge : igraph_t :=
  {| vcount := 2; directed := false; edges := [(0, 1)]%nat |}.

(** A single vertex with a loop edge. *)
Definition one_loop : igraph_t :=
  {| vcount := 1; directed := false; edges := [(0, 0)]%nat |}.

(** A caller that asks to stop at every poll, and one that asks at the
    second poll. *)
Definition always_interrupt : nat -> bool := fun _ => true.
Definition interrupt_at_second : nat -> bool := fun k => Nat.eqb k 1.

(** ** Notions used in the statements *)

(** Reachability from [s]: any number of steps along edges, as the engines
    enumerate them under [mode]. *)
Inductive reachable (g : igraph_t) (mode : igraph_neimode_t) (s : nat) : nat -> Prop :=
| reach_refl : reachable g mode s s
| reach_step : forall u v,
    reachable g mode s u -> In v (igraph_neighbors g mode u) -> reachable g mode s v.

(** The number of cells of a stamp vector that carry [stamp]. *)
Definition count_stamp (stamp : Z) (v : list Z) : nat := count_occ Z.eq_dec v stamp.

(** The number of times a warning was handed to the warning handler. *)
Definition count_warning (w : warning_t) (l : list warning_t) : nat :=
  length (filter (warning_eqb w) l).

(** What holds of the stamp vector at the start of iteration [i] of an outer
    loop: it has one cell per vertex and no stamp beyond [i]. *)
Definition stamps_upto (g : igraph_t) (i : nat) (v : list Z) : Prop :=
  length v = vcount g /\ Forall (fun x => x <= Z.of_nat i) v.

(** The sum of the distances still waiting in the queue. *)
Definition queued_distance (q : list (nat * Z)) : Z := fold_right Z.add 0 (map snd q).

(** The running sum of a traversal is the double of the integer [S], which
    lies between [nodes_reached - 1] and its square once the queued distances
    are added. *)
Definition bfs_sum_is (st : bfs_state) (S : Z) : Prop :=
  bfs_sum st = real_of_long S /\ 0 <= S
  /\ bfs_reached st - 1 <= S + queued_distance (bfs_q st)
     <= (bfs_reached st - 1) * (bfs_reached st - 1).

(** The invariant of the breadth-first [while] loop of source [source]:
    stamped vertices are exactly the ones counted in [nodes_reached], they are
    reachable from the source, and every queued vertex is stamped.  On a
    graph with fewer than 2^26 vertices the running sum is an integer that a
    double holds exactly. *)
Record bfs_inv (g : igraph_t) (mode : igraph_neimode_t) (stamp : Z) (source : nat)
    (st : bfs_state) : Prop := {
  bi_length : length (bfs_counted st) = vcount g;
  bi_upto : Forall (fun x => x <= stamp) (bfs_counted st);
  bi_source : nth source (bfs_counted st) 0 = stamp;
  bi_reached : bfs_reached st = Z.of_nat (count_stamp stamp (bfs_counted st));
  bi_reachable : forall v, nth v (bfs_counted st) 0 = stamp -> reachable g mode source v;
  bi_queue : forall v d, In (v, d) (bfs_q st) ->
               nth v (bfs_counted st) 0 = stamp /\ 0 <= d <= bfs_reached st - 1;
  bi_sum : Z.of_nat (vcount g) < 2 ^ 26 -> exists S, bfs_sum_is st S
}.

(** What bounds the number of vertices still to be dequeued. *)
Definition bfs_measure (g : igraph_t) (stamp : Z) (st : bfs_state) : nat :=
  (length (bfs_q st) + (vcount g - count_stamp stamp (bfs_counted st)))%nat.

(** The invariant of the [while] loop of Dijkstra's algorithm from [source]:
    every stamped vertex is either still queued or was popped and counted in
    [nodes_reached], and stamped vertices are reachable from the source. *)
Record dij_inv (g : igraph_t) (mode : igraph_neimode_t) (stamp : Z) (source : nat)
    (st : dij_state) : Prop := {
  di_length : length (dj_which st) = vcount g;
  di_upto : Forall (fun x => x <= stamp) (dj_which st);
  di_source : nth source (dj_which st) 0 = stamp;
  di_reached : dj_reached st + Z.of_nat (length (dj_Q st))
               = Z.of_nat (count_stamp stamp (dj_which st));
  di_reachable : forall v, nth v (dj_which st) 0 = stamp -> reachable g mode source v;
  di_queue : forall v k, In (v, k) (dj_Q st) -> nth v (dj_which st) 0 = stamp
}.

(** What bounds the number of vertices still to be popped. *)
Definition dij_measure (g : igraph_t) (stamp : Z) (st : dij_state) : nat :=
  (length (dj_Q st) + (vcount g - count_stamp stamp (dj_which st)))%nat.

(** The latch of the disconnected-graph warning: it was handed over once if
    [warning_shown] is set, and never otherwise. *)
Definition latched (shown : bool) (ws : list warning_t) : Prop :=
  count_warning WARN_DISCONNECTED ws = if shown then 1%nat else 0%nat.

(** The graph is disconnected as seen from [s]: some vertex cannot be
    reached from [s]. *)
Definition disconnected_from (g : igraph_t) (mode : igraph_neimode_t) (s : nat) : Prop :=
  exists t, (t < vcount g)%nat /\ ~ reachable g mode s t.

(** A supplied weight vector that passes the validation of the weighted
    engine; no weight vector needs none. *)
Definition weights_accepted (g : igraph_t) (weights : option (list float)) : bool :=
  match weights with
  | None => true
  | Some w =>
      (Z.of_nat (length w) =? igraph_ecount g)
      && match igraph_vector_min w with
         | Some minweight => negb (PrimFloat.leb minweight 0)
         | None => false
         end
  end.

(** The key under which the weighted engine queues a vertex that is [k]
    hops away when every edge weighs 1: the negated distance plus one. *)
Definition heap_key (x : nat * Z) : nat * float :=
  (fst x, PrimFloat.opp (real_of_long (snd x + 1))).

(** The distances of a breadth-first queue never decrease. *)
Fixpoint queue_sorted (q : list (nat * Z)) : Prop :=
  match q with
  | [] => True
  | x :: r => (forall y, In y r -> snd x <= snd y) /\ queue_sorted r
  end.

(** With unit weights the two traversals of one source advance in lockstep:
    the heap holds the breadth-first queue under [heap_key], the same
    vertices are stamped, the running sums agree, and every stamped vertex
    has an integer distance-plus-one of at most [level + 2] on record, where
    [level] is the distance of the vertex being expanded. *)
Record lockstep (g : igraph_t) (stamp level : Z) (b : bfs_state) (d : dij_state)
    : Prop := {
  lk_Q : dj_Q d = map heap_key (bfs_q b);
  lk_which : dj_which d = bfs_counted b;
  lk_sum : dj_sum d = bfs_sum b;
  lk_reached : dj_reached d + Z.of_nat (length (bfs_q b)) = bfs_reached b;
  lk_sorted : queue_sorted (bfs_q b);
  lk_level : forall x, In x (bfs_q b) -> level <= snd x <= level + 1;
  lk_dist_length : length (dj_dist d) = vcount g;
  lk_dist : forall v, nth v (bfs_counted b) 0 = stamp ->
              exists k, 1 <= k <= level + 2 /\ nth v (dj_dist d) 0%float = real_of_long k
}.

(** Weight 1 on every edge. *)
Definition unit_weights (g : igraph_t) : list float := repeat 1%float (length (edges g)).

(** The binary64 representation of an integer below 2^53: its mantissa
    shifted to 53 digits, and the exponent that goes with it. *)
Definition int_mantissa (p : positive) : positive :=
  Z.to_pos (Zpos p * 2 ^ (53 - Zpos (digits2_pos p))).
Definition int_exponent (p : positive) : Z := Zpos (digits2_pos p) - 53.
Definition SFint (z : Z) : spec_float :=
  match z with
  | Z0 => S754_zero false
  | Zpos p => S754_finite false (int_mantissa p) (int_exponent p)
  | Zneg p => S754_finite true (int_mantissa p) (int_exponent p)
  end.

(** The warnings of an outer loop: what was there before it, followed by the
    disconnected-graph warning if the latch is set. *)
Definition warnings_are (pre : list warning_t) (shown : bool) (ws : list warning_t) : Prop :=
  ws = pre ++ (if shown then [WARN_DISCONNECTED] else []).

(** Two traversals that differ only in the stamp they use and in the stale
    stamps of their vectors. *)
Record bfs_alike (s1 s2 : Z) (b1 b2 : bfs_state) : Prop := {
  ba_q : bfs_q b1 = bfs_q b2;
  ba_reached : bfs_reached b1 = bfs_reached b2;
  ba_sum : bfs_sum b1 = bfs_sum b2;
  ba_actdist : bfs_actdist b1 = bfs_actdist b2 \/ bfs_q b1 <> [];
  ba_length : length (bfs_counted b1) = length (bfs_counted b2);
  ba_counted : forall v,
    (nth v (bfs_counted b1) 0 =? s1) = (nth v (bfs_counted b2) 0 =? s2)
}.

(** The score a call for the single vertex [v] computes. *)
Definition single_score (g : igraph_t) (mode : igraph_neimode_t) (cutoff : float)
    (v : nat) : float :=
  match bfs_source g mode cutoff O v (repeat 0 (vcount g)) 0 with
  | Some b => closeness_score (igraph_vcount g) (bfs_total g b)
  | None => 0%float
  end.

(** The same for the weighted engine, whose vector of distances keeps the
    stale distances of earlier sources as well. *)
Record dij_alike (s1 s2 : Z) (d1 d2 : dij_state) : Prop := {
  da_Q : dj_Q d1 = dj_Q d2;
  da_reached : dj_reached d1 = dj_reached d2;
  da_sum : dj_sum d1 = dj_sum d2;
  da_mindist : dj_mindist d1 = dj_mindist d2 \/ dj_Q d1 <> [];
  da_length : length (dj_which d1) = length (dj_which d2);
  da_dist_length : length (dj_dist d1) = length (dj_dist d2);
  da_which : forall v, (nth v (dj_which d1) 0 =? s1) = (nth v (dj_which d2) 0 =? s2);
  da_dist : forall v, nth v (dj_which d2) 0 = s2 ->
              nth v (dj_dist d1) 0%float = nth v (dj_dist d2) 0%float
}.

(** The score a weighted call for the single vertex [v] computes. *)
Definition single_score_weighted (g : igraph_t) (mode : igraph_neimode_t)
    (weights : list float) (cutoff : float) (v : nat) : float :=
  match dij_source g mode weights cutoff O v (repeat 0 (vcount g))
          (repeat 0%float (vcount g)) 0%float with
  | Some d => closeness_score (igraph_vcount g) (dij_total g d)
  | None => 0%float
  end.

(** A walk of [k] edges from [s], along the edges as the engines enumerate
    them under [mode]. *)
Inductive walk (g : igraph_t) (mode : igraph_neimode_t) (s : nat) : nat -> Z -> Prop :=
| walk_here : walk g mode s s 0
| walk_step : forall u v k,
    walk g mode s u k -> In v (igraph_neighbors g mode u) -> walk g mode s v (k + 1).

(** [d] is the distance from [s] to [v] in hops: the length of a shortest
    walk. *)
Definition hop_distance (g : igraph_t) (mode : igraph_neimode_t) (s v : nat) (d : Z) : Prop :=
  walk g mode s v d /\ forall k, walk g mode s v k -> d <= k.

(** The sum of the distances of a list of (vertex, distance) pairs. *)
Definition distance_sum (l : list (nat * Z)) : Z := fold_right Z.add 0 (map snd l).

(** The invariant that ties a breadth-first traversal to its trace: [seen]
    lists the vertices dequeued so far with the distance they were dequeued
    at.  The stamped vertices are those of [seen] and of the queue, each once;
    the distance on record is the length of a walk and was enqueued by a
    vertex that was not beyond the cutoff; the running sum is the sum of the
    distances of [seen]. *)
Record trace_inv (g : igraph_t) (mode : igraph_neimode_t) (cutoff : float) (stamp : Z)
    (source : nat) (seen : list (nat * Z)) (st : bfs_state) : Prop := {
  ti_inv : bfs_inv g mode stamp source st;
  ti_stamped : forall v,
    nth v (bfs_counted st) 0 = stamp <-> In v (map fst (seen ++ bfs_q st));
  ti_nodup : NoDup (map fst (seen ++ bfs_q st));
  ti_walk : forall v d, In (v, d) (seen ++ bfs_q st) ->
              walk g mode source v d /\ (d = 0 \/ beyond_cutoff cutoff (d - 1) = false);
  ti_source : In (source, 0) (seen ++ bfs_q st);
  ti_reached : bfs_reached st = Z.of_nat (length (seen ++ bfs_q st));
  ti_sum : Z.of_nat (vcount g) < 2 ^ 26 -> bfs_sum st = real_of_long (distance_sum seen);
  ti_bound : forall v d, In (v, d) seen -> 0 <= d <= bfs_reached st - 1;
  ti_sorted : queue_sorted (bfs_q st)
}.

(** The neighbours of every vertex of [done] that was not beyond the cutoff
    are on record in [all], at most one hop farther. *)
Definition closed (g : igraph_t) (mode : igraph_neimode_t) (cutoff : float)
    (done all : list (nat * Z)) : Prop :=
  forall u d w, In (u, d) done -> beyond_cutoff cutoff d = false ->
    In w (igraph_neighbors g mode u) -> exists dw, In (w, dw) all /\ dw <= d + 1.

(** While the vertex dequeued at distance [D] is expanded, the queue holds
    distances [D] and [D + 1] only, and no distance on record exceeds
    [D + 1]. *)
Definition level (D : Z) (seen q : list (nat * Z)) : Prop :=
  (forall y, In y q -> D <= snd y <= D + 1) /\ (forall x, In x (seen ++ q) -> snd x <= D + 1).

(** What Dijkstra's algorithm keeps without a cutoff: a stamped vertex is still queued, or
    all of its neighbours are stamped. *)
Definition dij_closed (g : igraph_t) (mode : igraph_neimode_t) (stamp : Z) (st : dij_state)
    : Prop :=
  forall u, nth u (dj_which st) 0 = stamp ->
    (exists k, In (u, k) (dj_Q st))
    \/ (forall w, In w (igraph_neighbors g mode u) -> nth w (dj_which st) 0 = stamp).

(** Integer weights, as the doubles the engine is handed. *)
Definition int_weights (W : list Z) : list float := map real_of_long W.

(** A walk of total weight [L] from [s], along the incident edges as the
    weighted engine enumerates them under [mode]; [W] gives the weight of
    every edge. *)
Inductive wwalk (g : igraph_t) (mode : igraph_neimode_t) (W : list Z) (s : nat)
    : nat -> Z -> Prop :=
| wwalk_here : wwalk g mode W s s 0
| wwalk_step : forall u e L,
    wwalk g mode W s u L -> In e (igraph_incident g mode u) ->
    wwalk g mode W s (IGRAPH_OTHER g e u) (L + nth e W 0).

(** [d] is the weighted distance from [s] to [v]: the weight of a lightest
    walk. *)
Definition weighted_distance (g : igraph_t) (mode : igraph_neimode_t) (W : list Z)
    (s v : nat) (d : Z) : Prop :=
  wwalk g mode W s v d /\ forall L, wwalk g mode W s v L -> d <= L.

(** The key under which a vertex is queued whose distance plus one is [z]. *)
Definition dij_key (z : Z) : float := PrimFloat.opp (real_of_long z).

(** The vector of distances has the distance plus one [z] on record for the
    stamped vertex [v]. *)
Definition recorded (stamp : Z) (st : dij_state) (v : nat) (z : Z) : Prop :=
  nth v (dj_which st) 0 = stamp /\ nth v (dj_dist st) 0%float = real_of_long z
  /\ 1 <= z < 2 ^ 53.

(** The invariant that ties a run of Dijkstra's algorithm on integer weights
    to its trace: [popped] lists the vertices popped so far with their
    distances.  Stamped vertices are the popped and the queued ones, each
    once.  A queued vertex is queued under the key of the distance plus one
    the vector of distances has on record for it, which is the weight of a
    walk and is not below the distance of any popped vertex.  A popped vertex
    was popped at its weighted distance.  The running sum is the sum of the
    distances of [popped]. *)
Record dij_int_inv (g : igraph_t) (mode : igraph_neimode_t) (W : list Z) (Wmax : Z)
    (stamp : Z) (source : nat) (popped : list (nat * Z)) (st : dij_state) : Prop := {
  dn_which_length : length (dj_which st) = vcount g;
  dn_dist_length : length (dj_dist st) = vcount g;
  dn_nodup : NoDup (map fst popped ++ map fst (dj_Q st));
  dn_stamped : forall v,
    nth v (dj_which st) 0 = stamp <-> In v (map fst popped ++ map fst (dj_Q st));
  dn_queue : forall v k, In (v, k) (dj_Q st) ->
    exists z, 1 <= z <= 1 + Z.of_nat (length popped) * Wmax
              /\ k = dij_key z
              /\ nth v (dj_dist st) 0%float = real_of_long z
              /\ wwalk g mode W source v (z - 1)
              /\ forall u d, In (u, d) popped -> d + 1 <= z;
  dn_popped : forall v d, In (v, d) popped ->
    0 <= d /\ d + Wmax <= Z.of_nat (length popped) * Wmax
    /\ nth v (dj_dist st) 0%float = real_of_long (d + 1)
    /\ weighted_distance g mode W source v d;
  dn_source : recorded stamp st source 1;
  dn_sum : dj_sum st = real_of_long (distance_sum popped);
  dn_reached : dj_reached st = Z.of_nat (length popped)
}.

(** Every edge out of a vertex of [done] leads to a vertex with a distance
    on record that the edge cannot improve. *)
Definition settled (g : igraph_t) (mode : igraph_neimode_t) (W : list Z) (stamp : Z)
    (done : list (nat * Z)) (st : dij_state) : Prop :=
  forall u d e, In (u, d) done -> In e (igraph_incident g mode u) ->
    exists z, recorded stamp st (IGRAPH_OTHER g e u) z /\ z <= d + 1 + nth e W 0.

(** The distances on record only go down from [st] to [st']. *)
Definition improves (stamp : Z) (st st' : dij_state) : Prop :=
  forall v z, recorded stamp st v z -> exists z', recorded stamp st' v z' /\ z' <= z.

(** An accepted vertex iterator: its first vertex is a vertex of the graph,
    and the rest is an accepted iterator. *)
Ltac split_vit Hv Hs :=
  simpl in Hv; apply andb_true_iff in Hv; destruct Hv as [Hs Hv]; apply Nat.ltb_lt in Hs.

(** ** Vectors and stamps *)

Lemma vector_set_length {A : Type} (v : list A) k x : length (vector_set v k x) = length v.
Proof.
  revert k; induction v as [|y r IH]; intros [|k]; simpl; auto.
Qed.

Lemma nth_vector_set_same {A : Type} (v : list A) k x d :
  (k < length v)%nat -> nth k (vector_set v k x) d = x.
Proof.
  revert k; induction v as [|y r IH]; intros [|k] H; simpl in *; try lia; auto.
  apply IH; lia.
Qed.

Lemma nth_vector_set_other {A : Type} (v : list A) k j x d :
  j <> k -> nth j (vector_set v k x) d = nth j v d.
Proof.
  revert k j; induction v as [|y r IH]; intros [|k] [|j] H; simpl; auto; try congruence.
Qed.

Lemma vector_set_Forall {A : Type} (P : A -> Prop) (v : list A) k x :
  Forall P v -> P x -> Forall P (vector_set v k x).
Proof.
  intros Hv Hx; revert k; induction Hv as [|y r Hy Hr IH]; intros [|k]; simpl; auto.
Qed.

Lemma count_stamp_le_length stamp v : (count_stamp stamp v <= length v)%nat.
Proof. apply count_occ_bound. Qed.

Lemma count_stamp_set stamp v k :
  (k < length v)%nat -> nth k v 0 <> stamp ->
  count_stamp stamp (vector_set v k stamp) = S (count_stamp stamp v).
Proof.
  unfold count_stamp.
  revert k; induction v as [|y r IH]; intros [|k] Hk Hn; simpl in *; try lia.
  - destruct (Z.eq_dec stamp stamp); [|congruence].
    destruct (Z.eq_dec y stamp); congruence.
  - destruct (Z.eq_dec y stamp); rewrite IH; auto; lia.
Qed.

Lemma count_stamp_fresh stamp v :
  Forall (fun x => x < stamp) v -> count_stamp stamp v = O.
Proof.
  unfold count_stamp; induction 1 as [|y r Hy Hr IH]; simpl; auto.
  destruct (Z.eq_dec y stamp); [lia|auto].
Qed.

Lemma count_stamp_missing stamp v k :
  (k < length v)%nat -> nth k v 0 <> stamp -> (count_stamp stamp v < length v)%nat.
Proof.
  unfold count_stamp.
  revert k; induction v as [|y r IH]; intros [|k] Hk Hn; simpl in *; try lia.
  - destruct (Z.eq_dec y stamp); [congruence|].
    pose proof (count_occ_bound Z.eq_dec stamp r). lia.
  - assert (count_occ Z.eq_dec r stamp < length r)%nat by (apply (IH k); auto; lia).
    destruct (Z.eq_dec y stamp); lia.
Qed.

Lemma nth_stamp_in_range stamp v k : stamp <> 0 -> nth k v 0 = stamp -> (k < length v)%nat.
Proof.
  intros Hs Hn. destruct (Nat.lt_ge_cases k (length v)) as [|Hge]; auto.
  rewrite nth_overflow in Hn by exact Hge. congruence.
Qed.

(** ** The graph: neighbours of a well-formed graph are vertices *)

Lemma graph_wf_edge g e :
  graph_wf g = true -> (e < length (edges g))%nat ->
  (IGRAPH_FROM g e < vcount g)%nat /\ (IGRAPH_TO g e < vcount g)%nat.
Proof.
  unfold graph_wf, IGRAPH_FROM, IGRAPH_TO. intros Hwf He.
  rewrite forallb_forall in Hwf.
  specialize (Hwf (nth e (edges g) (O, O)) (nth_In _ _ He)).
  apply andb_true_iff in Hwf. destruct Hwf as [H1 H2].
  apply Nat.ltb_lt in H1, H2. auto.
Qed.

Lemma igraph_incident_range g mode v e :
  In e (igraph_incident g mode v) -> (e < length (edges g))%nat.
Proof.
  unfold igraph_incident. intros H. apply in_app_or in H.
  destruct H as [H|H];
    [destruct (Z.land _ IGRAPH_OUT =? 0) | destruct (Z.land _ IGRAPH_IN =? 0)];
    simpl in H; try contradiction;
    apply filter_In in H; destruct H as [H _]; apply in_seq in H; lia.
Qed.

Lemma IGRAPH_OTHER_range g e v :
  graph_wf g = true -> (e < length (edges g))%nat -> (IGRAPH_OTHER g e v < vcount g)%nat.
Proof.
  intros Hwf He. destruct (graph_wf_edge g e Hwf He).
  unfold IGRAPH_OTHER. destruct (Nat.eqb _ _); auto.
Qed.

Lemma igraph_neighbors_range g mode v u :
  graph_wf g = true -> In u (igraph_neighbors g mode v) -> (u < vcount g)%nat.
Proof.
  unfold igraph_neighbors. intros Hwf H. apply in_map_iff in H.
  destruct H as [e [<- He]]. apply IGRAPH_OTHER_range; auto.
  eapply igraph_incident_range; eauto.
Qed.

(** ** Doubles that hold integers

    Integers below 2^53 are represented exactly, and sums, differences,
    products and comparisons of such doubles are those of the integers. *)
Module Binary64.


Lemma digits2_pos_bounds p :
  2 ^ (Zpos (digits2_pos p) - 1) <= Zpos p < 2 ^ Zpos (digits2_pos p).
Proof.
  induction p as [p IH|p IH|]; simpl digits2_pos.
  - rewrite Pos2Z.inj_succ. replace (Z.succ (Zpos (digits2_pos p)) - 1) with (Z.succ (Zpos (digits2_pos p) - 1)) by lia.
    rewrite !Z.pow_succ_r by lia. lia.
  - rewrite Pos2Z.inj_succ. replace (Z.succ (Zpos (digits2_pos p)) - 1) with (Z.succ (Zpos (digits2_pos p) - 1)) by lia.
    rewrite !Z.pow_succ_r by lia. lia.
  - simpl. lia.
Qed.

Lemma digits2_pos_unique p d :
  2 ^ (d - 1) <= Zpos p < 2 ^ d -> Zpos (digits2_pos p) = d.
Proof.
  intros [H1 H2]. pose proof (digits2_pos_bounds p) as [H3 H4].
  assert (0 < d).
  { destruct (Z.lt_ge_cases 0 d); auto. 
    assert (2 ^ d <= 2 ^ 0) by (destruct (Z.lt_ge_cases d 0); [rewrite Z.pow_neg_r by lia; simpl; lia | apply Z.pow_le_mono_r; lia]).
    simpl in *. lia. }
  destruct (Z.lt_trichotomy (Zpos (digits2_pos p)) d) as [Hlt|[Heq|Hgt]]; auto.
  - assert (2 ^ Zpos (digits2_pos p) <= 2 ^ (d - 1)) by (apply Z.pow_le_mono_r; lia). lia.
  - assert (2 ^ d <= 2 ^ (Zpos (digits2_pos p) - 1)) by (apply Z.pow_le_mono_r; lia). lia.
Qed.

Lemma iter_xO_spec m d : Zpos (Pos.iter xO m d) = Zpos m * 2 ^ Zpos d.
Proof.
  induction d as [|d IH] using Pos.peano_ind.
  - simpl. lia.
  - rewrite Pos.iter_succ. rewrite Pos2Z.inj_succ, Z.pow_succ_r by lia.
    rewrite Pos2Z.inj_xO, IH. lia.
Qed.

Lemma iter_pos_iter {A} (f : A -> A) p x : iter_pos f p x = Pos.iter f x p.
Proof.
  revert x; induction p as [p IH|p IH|]; intros x; simpl; auto.
  - rewrite !IH. rewrite <- Pos.iter_swap. rewrite <- Pos.iter_swap. reflexivity.
  - rewrite !IH. reflexivity.
Qed.

Lemma shr_1_exact q : shr_1 {| shr_m := Zpos (xO q); shr_r := false; shr_s := false |}
  = {| shr_m := Zpos q; shr_r := false; shr_s := false |}.
Proof. reflexivity. Qed.

Lemma iter_shr_exact p : forall q M, Zpos M = Zpos q * 2 ^ Zpos p ->
  Pos.iter shr_1 {| shr_m := Zpos M; shr_r := false; shr_s := false |} p
  = {| shr_m := Zpos q; shr_r := false; shr_s := false |}.
Proof.
  induction p as [|p IH] using Pos.peano_ind; intros q M HM.
  - simpl. assert (M = xO q) by lia. subst. reflexivity.
  - rewrite Pos.iter_succ_r.
    rewrite Pos2Z.inj_succ, Z.pow_succ_r in HM by lia.
    assert (exists M', M = xO M' /\ Zpos M' = Zpos q * 2 ^ Zpos p) as [M' [-> HM']].
    { destruct M as [M|M|]; try lia. exists M. split; auto. lia. }
    rewrite shr_1_exact. apply IH; auto.
Qed.

Lemma fexp_canonical e : -1074 <= e -> fexp prec emax (53 + e) = e.
Proof. unfold fexp, emin, prec, emax. lia. Qed.

Lemma shr_zero mrs e : shr mrs e 0 = (mrs, e).
Proof. reflexivity. Qed.

Lemma digits_scaled mc j M :
  Zpos (digits2_pos mc) = 53 -> 0 <= j -> Zpos M = Zpos mc * 2 ^ j ->
  Zpos (digits2_pos M) = 53 + j.
Proof.
  intros Hd Hj HM. apply digits2_pos_unique. rewrite HM.
  pose proof (digits2_pos_bounds mc) as [H1 H2]. rewrite Hd in H1, H2.
  replace (53 + j - 1) with (52 + j) by lia.
  rewrite !Z.pow_add_r by lia. simpl (53 - 1) in H1.
  assert (0 < 2 ^ j) by (apply Z.pow_pos_nonneg; lia). nia.
Qed.

Lemma round_aux_exact mc ec j M :
  Zpos (digits2_pos mc) = 53 -> -1074 <= ec <= 971 -> 0 <= j ->
  Zpos M = Zpos mc * 2 ^ j ->
  binary_round_aux prec emax false (Zpos M) (ec - j) loc_Exact = S754_finite false mc ec.
Proof.
  intros Hd He Hj HM.
  pose proof (digits_scaled mc j M Hd Hj HM) as HdM.
  unfold binary_round_aux, shr_fexp. simpl Zdigits2. simpl shr_record_of_loc.
  rewrite HdM. replace (53 + j + (ec - j)) with (53 + ec) by lia.
  rewrite fexp_canonical by lia.
  replace (ec - (ec - j)) with j by lia.
  assert (Hfirst : shr {| shr_m := Zpos M; shr_r := false; shr_s := false |} (ec - j) j
                   = ({| shr_m := Zpos mc; shr_r := false; shr_s := false |}, ec)).
  { destruct j as [|p|p]; try lia.
    - simpl. f_equal; [|lia]. f_equal. simpl in HM. lia.
    - unfold shr. rewrite iter_pos_iter. rewrite (iter_shr_exact p mc M HM). f_equal. lia. }
  rewrite Hfirst. simpl loc_of_shr_record. simpl round_nearest_even. simpl shr_m at 1.
  simpl Zdigits2. rewrite Hd. rewrite fexp_canonical by lia.
  rewrite Z.sub_diag. rewrite shr_zero. simpl shr_m.
  replace (ec <=? emax - prec) with true; auto.
  symmetry. apply Z.leb_le. unfold emax, prec. lia.
Qed.

Lemma small_digits p : Zpos p < 2 ^ 53 -> 1 <= Zpos (digits2_pos p) <= 53.
Proof.
  intros Hp. pose proof (digits2_pos_bounds p) as [H1 H2]. split; [lia|].
  destruct (Z.le_gt_cases (Zpos (digits2_pos p)) 53); auto.
  assert (2 ^ 53 <= 2 ^ (Zpos (digits2_pos p) - 1)) by (apply Z.pow_le_mono_r; lia). lia.
Qed.

Lemma int_mantissa_spec p : Zpos p < 2 ^ 53 ->
  Zpos (int_mantissa p) = Zpos p * 2 ^ (53 - Zpos (digits2_pos p)).
Proof.
  intros Hp. pose proof (small_digits p Hp). unfold int_mantissa.
  rewrite Z2Pos.id; auto.
  assert (0 < 2 ^ (53 - Zpos (digits2_pos p))) by (apply Z.pow_pos_nonneg; lia). lia.
Qed.

Lemma int_mantissa_digits p : Zpos p < 2 ^ 53 -> Zpos (digits2_pos (int_mantissa p)) = 53.
Proof.
  intros Hp. pose proof (small_digits p Hp) as Hd. apply digits2_pos_unique.
  rewrite int_mantissa_spec by auto.
  pose proof (digits2_pos_bounds p) as [H1 H2].
  set (d := Zpos (digits2_pos p)) in *. clearbody d.
  assert (E1 : 2 ^ (53 - 1) = 2 ^ (d - 1) * 2 ^ (53 - d))
    by (rewrite <- Z.pow_add_r by lia; f_equal; lia).
  assert (E2 : 2 ^ 53 = 2 ^ d * 2 ^ (53 - d))
    by (rewrite <- Z.pow_add_r by lia; f_equal; lia).
  rewrite E1, E2.
  assert (0 < 2 ^ (53 - d)) by (apply Z.pow_pos_nonneg; lia). nia.
Qed.

Lemma binary_round_exact p k M :
  Zpos p < 2 ^ 53 -> 0 <= k -> Zpos M = Zpos p * 2 ^ k ->
  binary_round prec emax false M (- k) = SFint (Zpos p).
Proof.
  intros Hp Hk HM. pose proof (small_digits p Hp) as Hd.
  pose proof (digits2_pos_bounds p) as [H1 H2].
  assert (HdM : Zpos (digits2_pos M) = Zpos (digits2_pos p) + k).
  { apply digits2_pos_unique. rewrite HM.
    replace (Zpos (digits2_pos p) + k - 1) with ((Zpos (digits2_pos p) - 1) + k) by lia.
    rewrite !Z.pow_add_r by lia.
    assert (0 < 2 ^ k) by (apply Z.pow_pos_nonneg; lia). nia. }
  unfold binary_round. rewrite HdM.
  replace (Zpos (digits2_pos p) + k + - k) with (53 + (Zpos (digits2_pos p) - 53)) by lia.
  rewrite fexp_canonical by lia.
  unfold shl_align. simpl SFint. unfold int_exponent.
  set (d := Zpos (digits2_pos p)) in *.
  pose proof (int_mantissa_spec p Hp) as Hmc. fold d in Hmc.
  pose proof (int_mantissa_digits p Hp) as Hdc.
  destruct (d - 53 - - k) as [|n|n] eqn:Hn.
  - pose proof (round_aux_exact (int_mantissa p) (d - 53) 0 M Hdc ltac:(lia) ltac:(lia)) as R.
    replace (d - 53 - 0) with (- k) in R by lia. apply R.
    rewrite HM, Hmc. replace k with (53 - d) by lia. simpl (2 ^ 0). lia.
  - pose proof (round_aux_exact (int_mantissa p) (d - 53) (Zpos n) M Hdc
                  ltac:(lia) ltac:(lia)) as R.
    replace (d - 53 - Zpos n) with (- k) in R by lia. apply R.
    rewrite HM, Hmc. replace k with ((53 - d) + Zpos n) by lia.
    rewrite Z.pow_add_r by lia. lia.
  - pose proof (round_aux_exact (int_mantissa p) (d - 53) 0 (Pos.iter xO M n) Hdc
                  ltac:(lia) ltac:(lia)) as R.
    rewrite Z.sub_0_r in R. apply R.
    rewrite iter_xO_spec, HM, Hmc. simpl (2 ^ 0).
    replace (53 - d) with (k + Zpos n) by lia.
    rewrite Z.pow_add_r by lia. lia.
Qed.

Lemma binary_normalize_exact z k :
  0 <= z < 2 ^ 53 -> 0 <= k ->
  binary_normalize prec emax (z * 2 ^ k) (- k) false = SFint z.
Proof.
  intros [Hz1 Hz2] Hk. destruct z as [|p|p]; try lia.
  - reflexivity.
  - assert (0 < 2 ^ k) by (apply Z.pow_pos_nonneg; lia).
    destruct (Zpos p * 2 ^ k) as [|M|M] eqn:HM; try lia.
    unfold binary_normalize. apply binary_round_exact; auto.
Qed.

Lemma int_exponent_range p : Zpos p < 2 ^ 53 -> -52 <= int_exponent p <= 0.
Proof. intros Hp. pose proof (small_digits p Hp). unfold int_exponent. lia. Qed.

Lemma int_mantissa_value p : Zpos p < 2 ^ 53 ->
  Zpos (int_mantissa p) = Zpos p * 2 ^ (- int_exponent p).
Proof.
  intros Hp. rewrite int_mantissa_spec by auto. unfold int_exponent. f_equal. f_equal. lia.
Qed.

Lemma shl_align_fst m e ez : ez <= e ->
  Zpos (fst (shl_align m e ez)) = Zpos m * 2 ^ (e - ez).
Proof.
  intros H. unfold shl_align. destruct (ez - e) as [|d|d] eqn:E; simpl fst; try lia.
  - replace (e - ez) with 0 by lia. simpl. lia.
  - rewrite iter_xO_spec. f_equal. f_equal. lia.
Qed.

Lemma int_scaled p ez : Zpos p < 2 ^ 53 -> ez <= int_exponent p ->
  Zpos (fst (shl_align (int_mantissa p) (int_exponent p) ez)) = Zpos p * 2 ^ (- ez).
Proof.
  intros Hp Hez. pose proof (int_exponent_range p Hp).
  rewrite shl_align_fst by auto. rewrite int_mantissa_value by auto.
  rewrite <- Z.mul_assoc, <- Z.pow_add_r by lia. f_equal. f_equal. lia.
Qed.

Lemma SFadd_int a b :
  0 <= a -> 0 <= b -> a + b < 2 ^ 53 ->
  SFadd prec emax (SFint a) (SFint b) = SFint (a + b).
Proof.
  intros Ha Hb Hab. destruct a as [|p|p]; try lia; destruct b as [|q|q]; try lia;
    try reflexivity.
  assert (Hp : Zpos p < 2 ^ 53) by lia. assert (Hq : Zpos q < 2 ^ 53) by lia.
  pose proof (int_exponent_range p Hp). pose proof (int_exponent_range q Hq).
  unfold SFint at 1 2. unfold SFadd. unfold cond_Zopp.
  rewrite !int_scaled by lia.
  rewrite <- Z.mul_add_distr_r.
  set (ez := Z.min (int_exponent p) (int_exponent q)).
  replace ez with (- (- ez)) at 2 by lia.
  apply binary_normalize_exact; lia.
Qed.

Lemma SFsub_int a b :
  0 <= b <= a -> a < 2 ^ 53 ->
  SFsub prec emax (SFint a) (SFint b) = SFint (a - b).
Proof.
  intros Hab Ha. destruct a as [|p|p]; try lia; destruct b as [|q|q]; try lia;
    try reflexivity.
  assert (Hp : Zpos p < 2 ^ 53) by lia. assert (Hq : Zpos q < 2 ^ 53) by lia.
  pose proof (int_exponent_range p Hp). pose proof (int_exponent_range q Hq).
  unfold SFint at 1 2. unfold SFsub. unfold cond_Zopp.
  rewrite !int_scaled by lia.
  rewrite <- Z.mul_sub_distr_r.
  set (ez := Z.min (int_exponent p) (int_exponent q)).
  replace ez with (- (- ez)) at 2 by lia.
  apply binary_normalize_exact; lia.
Qed.

Lemma digits_lt_value p q :
  Zpos (digits2_pos p) < Zpos (digits2_pos q) -> Zpos p < Zpos q.
Proof.
  intros H. pose proof (digits2_pos_bounds p) as [_ H1].
  pose proof (digits2_pos_bounds q) as [H2 _].
  assert (2 ^ Zpos (digits2_pos p) <= 2 ^ (Zpos (digits2_pos q) - 1))
    by (apply Z.pow_le_mono_r; lia). lia.
Qed.

Lemma SFcompare_int a b :
  0 <= a < 2 ^ 53 -> 0 <= b < 2 ^ 53 ->
  SFcompare (SFint a) (SFint b) = Some (a ?= b).
Proof.
  intros Ha Hb. destruct a as [|p|p]; try lia; destruct b as [|q|q]; try lia;
    try reflexivity.
  assert (Hp : Zpos p < 2 ^ 53) by lia. assert (Hq : Zpos q < 2 ^ 53) by lia.
  simpl SFint. unfold SFcompare. f_equal. unfold int_exponent.
  destruct (Z.compare_spec (Zpos (digits2_pos p) - 53) (Zpos (digits2_pos q) - 53))
    as [E|E|E].
  - rewrite Pos.compare_cont_spec.
    replace (Pos.switch_Eq Eq (int_mantissa p ?= int_mantissa q)%positive)
      with (int_mantissa p ?= int_mantissa q)%positive
      by (destruct (int_mantissa p ?= int_mantissa q)%positive; reflexivity).
    change (Pos.compare (int_mantissa p) (int_mantissa q))
      with (Z.compare (Zpos (int_mantissa p)) (Zpos (int_mantissa q))).
    rewrite !int_mantissa_spec by auto.
    replace (Zpos (digits2_pos q)) with (Zpos (digits2_pos p)) by lia.
    pose proof (small_digits p Hp).
    assert (0 < 2 ^ (53 - Zpos (digits2_pos p))) by (apply Z.pow_pos_nonneg; lia).
    set (s := 2 ^ (53 - Zpos (digits2_pos p))) in *. clearbody s.
    destruct (Z.compare_spec (Zpos p) (Zpos q));
      [apply Z.compare_eq_iff | apply Z.compare_lt_iff | apply Z.compare_gt_iff]; nia.
  - symmetry. apply Z.compare_lt_iff. apply digits_lt_value. lia.
  - symmetry. apply Z.compare_gt_iff. apply digits_lt_value. lia.
Qed.

Lemma SFcompare_int_opp a b :
  0 < a < 2 ^ 53 -> 0 < b < 2 ^ 53 ->
  SFcompare (SFopp (SFint a)) (SFopp (SFint b)) = Some (b ?= a).
Proof.
  intros Ha Hb. pose proof (SFcompare_int a b ltac:(lia) ltac:(lia)) as H.
  destruct a as [|p|p]; try lia; destruct b as [|q|q]; try lia.
  rewrite (Z.compare_antisym (Zpos p) (Zpos q)).
  unfold SFint, SFopp, SFcompare, negb in *.
  injection H as H'. change (Zpos p ?= Zpos q) with (p ?= q)%positive. rewrite <- H'.
  destruct (int_exponent p ?= int_exponent q); reflexivity.
Qed.

Lemma SFmul_int a b :
  0 <= a -> 0 <= b -> a * b < 2 ^ 53 ->
  SFmul prec emax (SFint a) (SFint b) = SFint (a * b).
Proof.
  intros Ha Hb Hab. destruct a as [|p|p]; try lia; destruct b as [|q|q]; try lia;
    try reflexivity.
  assert (Hp : Zpos p < 2 ^ 53) by nia. assert (Hq : Zpos q < 2 ^ 53) by nia.
  change (Zpos p * Zpos q) with (Zpos (p * q)) in *.
  pose proof (int_exponent_range p Hp) as Hep. pose proof (int_exponent_range q Hq) as Heq.
  pose proof (int_exponent_range (p * q) Hab) as Her.
  assert (Hj : 0 <= int_exponent (p * q) - (int_exponent p + int_exponent q)).
  { unfold int_exponent in *.
    pose proof (digits2_pos_bounds p) as [Hp1 _].
    pose proof (digits2_pos_bounds q) as [Hq1 _].
    pose proof (digits2_pos_bounds (p * q)) as [_ Hr2].
    set (dp := Zpos (digits2_pos p)) in *. set (dq := Zpos (digits2_pos q)) in *.
    set (dr := Zpos (digits2_pos (p * q))) in *. clearbody dp dq dr.
    destruct (Z.le_gt_cases (dp + dq - 1) dr) as [|Hlt]; [lia|].
    assert (2 ^ dr <= 2 ^ ((dp - 1) + (dq - 1))) by (apply Z.pow_le_mono_r; lia).
    rewrite Z.pow_add_r in H by lia.
    rewrite Pos2Z.inj_mul in Hr2. nia. }
  unfold SFint, SFmul. simpl xorb.
  pose proof (round_aux_exact (int_mantissa (p * q)) (int_exponent (p * q))
                (int_exponent (p * q) - (int_exponent p + int_exponent q))
                (int_mantissa p * int_mantissa q)
                (int_mantissa_digits (p * q) Hab) ltac:(lia) Hj) as R.
  replace (int_exponent (p * q)
           - (int_exponent (p * q) - (int_exponent p + int_exponent q)))
    with (int_exponent p + int_exponent q) in R by lia.
  apply R. rewrite Pos2Z.inj_mul. rewrite !int_mantissa_value by auto.
  rewrite Pos2Z.inj_mul.
  assert (E : 2 ^ (- int_exponent (p * q))
              * 2 ^ (int_exponent (p * q) - (int_exponent p + int_exponent q))
              = 2 ^ (- int_exponent p) * 2 ^ (- int_exponent q)).
  { rewrite <- !Z.pow_add_r by lia. f_equal. lia. }
  rewrite <- (Z.mul_assoc _ (2 ^ (- int_exponent (p * q)))). rewrite E. ring.
Qed.

Lemma real_of_long_spec z : 0 <= z < 2 ^ 53 -> Prim2SF (real_of_long z) = SFint z.
Proof.
  intros Hz. unfold real_of_long. destruct (Z.ltb_spec z 0); [lia|].
  rewrite of_uint63_spec, Uint63.of_Z_spec.
  rewrite Z.mod_small.
  - pose proof (binary_normalize_exact z 0 Hz (Z.le_refl 0)) as E.
    simpl in E. rewrite Z.mul_1_r in E. exact E.
  - split; [lia|]. destruct Hz as [_ Hz]. eapply Z.lt_trans; [exact Hz|]. reflexivity.
Qed.

Lemma real_of_long_add a b :
  0 <= a -> 0 <= b -> a + b < 2 ^ 53 ->
  PrimFloat.add (real_of_long a) (real_of_long b) = real_of_long (a + b).
Proof.
  intros Ha Hb Hab. apply Prim2SF_inj.
  rewrite add_spec, !real_of_long_spec by lia. apply SFadd_int; auto.
Qed.

Lemma real_of_long_sub a b :
  0 <= b <= a -> a < 2 ^ 53 ->
  PrimFloat.sub (real_of_long a) (real_of_long b) = real_of_long (a - b).
Proof.
  intros Hab Ha. apply Prim2SF_inj.
  rewrite sub_spec, !real_of_long_spec by lia. apply SFsub_int; auto.
Qed.

Lemma real_of_long_mul a b :
  0 <= a < 2 ^ 53 -> 0 <= b < 2 ^ 53 -> a * b < 2 ^ 53 ->
  PrimFloat.mul (real_of_long a) (real_of_long b) = real_of_long (a * b).
Proof.
  intros Ha Hb Hab. apply Prim2SF_inj.
  rewrite mul_spec, !real_of_long_spec by nia. apply SFmul_int; lia.
Qed.

Lemma real_of_long_compare a b :
  0 <= a < 2 ^ 53 -> 0 <= b < 2 ^ 53 ->
  SFcompare (Prim2SF (real_of_long a)) (Prim2SF (real_of_long b)) = Some (a ?= b).
Proof. intros. rewrite !real_of_long_spec by lia. apply SFcompare_int; auto. Qed.

Lemma real_of_long_ltb a b :
  0 <= a < 2 ^ 53 -> 0 <= b < 2 ^ 53 ->
  PrimFloat.ltb (real_of_long a) (real_of_long b) = (a <? b).
Proof.
  intros. rewrite ltb_spec. unfold SFltb. rewrite real_of_long_compare by auto.
  unfold Z.ltb. destruct (a ?= b); reflexivity.
Qed.

Lemma real_of_long_leb a b :
  0 <= a < 2 ^ 53 -> 0 <= b < 2 ^ 53 ->
  PrimFloat.leb (real_of_long a) (real_of_long b) = (a <=? b).
Proof.
  intros. rewrite leb_spec. unfold SFleb. rewrite real_of_long_compare by auto.
  unfold Z.leb. destruct (a ?= b); reflexivity.
Qed.

Lemma real_of_long_eqb a b :
  0 <= a < 2 ^ 53 -> 0 <= b < 2 ^ 53 ->
  PrimFloat.eqb (real_of_long a) (real_of_long b) = (a =? b).
Proof.
  intros. rewrite eqb_spec. unfold SFeqb. rewrite real_of_long_compare by auto.
  unfold Z.eqb. destruct (Z.compare_spec a b) as [E|E|E].
  - subst. destruct b; try reflexivity. all: rewrite Pos.eqb_refl; reflexivity.
  - destruct a, b; try reflexivity; try lia.
    all: symmetry; apply Pos.eqb_neq; lia.
  - destruct a, b; try reflexivity; try lia.
    all: symmetry; apply Pos.eqb_neq; lia.
Qed.

Lemma real_of_long_opp_ltb a b :
  0 < a < 2 ^ 53 -> 0 < b < 2 ^ 53 ->
  PrimFloat.ltb (PrimFloat.opp (real_of_long a)) (PrimFloat.opp (real_of_long b))
  = (b <? a).
Proof.
  intros. rewrite ltb_spec, !opp_spec. unfold SFltb.
  rewrite !real_of_long_spec by lia. rewrite SFcompare_int_opp by auto.
  unfold Z.ltb. destruct (b ?= a); reflexivity.
Qed.

Lemma float_opp_involutive x : PrimFloat.opp (PrimFloat.opp x) = x.
Proof.
  apply Prim2SF_inj. rewrite !opp_spec.
  destruct (Prim2SF x) as [[]|[]| |[] m e]; reflexivity.
Qed.

Lemma real_of_long_abs z :
  0 <= z < 2 ^ 53 -> PrimFloat.abs (real_of_long z) = real_of_long z.
Proof.
  intros Hz. apply Prim2SF_inj. rewrite abs_spec, real_of_long_spec by auto.
  destruct z; try lia; reflexivity.
Qed.

Lemma real_of_long_below_eps z :
  0 <= z < 2 ^ 53 -> PrimFloat.ltb (real_of_long z) IGRAPH_SHORTEST_PATH_EPSILON = (z =? 0).
Proof.
  intros Hz. rewrite ltb_spec, real_of_long_spec by auto.
  destruct z as [|p|p]; try lia.
  - vm_compute. reflexivity.
  - pose proof (int_exponent_range p ltac:(lia)) as He.
    replace (Prim2SF IGRAPH_SHORTEST_PATH_EPSILON) with (S754_finite false 7737125245533627 (-86))
      by (vm_compute; reflexivity).
    unfold SFint, SFltb, SFcompare.
    destruct (Z.compare_spec (int_exponent p) (-86)); try lia; reflexivity.
Qed.

End Binary64.
Import Binary64.

(** ** The breadth-first traversal *)

Lemma queued_distance_app q1 q2 :
  queued_distance (q1 ++ q2) = queued_distance q1 + queued_distance q2.
Proof.
  unfold queued_distance. induction q1 as [|x r IH]; simpl; auto. rewrite IH. lia.
Qed.

Lemma count_stamp_pos stamp v k : nth k v 0 = stamp -> stamp <> 0 -> (1 <= count_stamp stamp v)%nat.
Proof.
  intros Hn Hs. unfold count_stamp.
  assert (In stamp v).
  { rewrite <- Hn. apply nth_In. eapply nth_stamp_in_range; eauto. }
  apply (count_occ_In Z.eq_dec) in H. lia.
Qed.

Lemma queued_distance_nonneg q :
  (forall v d, In (v, d) q -> 0 <= d) -> 0 <= queued_distance q.
Proof.
  unfold queued_distance. induction q as [|[v d] r IH]; intros H; simpl; [lia|].
  assert (0 <= d) by (apply (H v); left; auto).
  assert (0 <= fold_right Z.add 0 (map snd r)) by (apply IH; intros; eapply H; right; eauto).
  lia.
Qed.

Lemma bfs_neighbors_inv g mode stamp source act d :
  graph_wf g = true -> stamp <> 0 -> reachable g mode source act -> 0 <= d ->
  forall neis st,
    (forall u, In u neis -> In u (igraph_neighbors g mode act)) ->
    d <= bfs_reached st - 1 ->
    bfs_inv g mode stamp source st ->
    bfs_inv g mode stamp source (bfs_neighbors stamp d neis st)
    /\ bfs_measure g stamp (bfs_neighbors stamp d neis st) = bfs_measure g stamp st.
Proof.
  intros Hwf Hs Hact Hd. induction neis as [|u neis IH]; intros st Hsub Hdr Hinv; simpl.
  - auto.
  - assert (Hu : In u (igraph_neighbors g mode act)) by (apply Hsub; left; auto).
    assert (Hsub' : forall w, In w neis -> In w (igraph_neighbors g mode act))
      by (intros w Hw; apply Hsub; right; auto).
    destruct (Z.eqb_spec (nth u (bfs_counted st) 0) stamp) as [Heq|Hne].
    + apply IH; auto.
    + pose proof (igraph_neighbors_range g mode act u Hwf Hu) as Hur.
      destruct Hinv as [Hlen Hup Hsrc Hre Hrb Hq Hsum].
      assert (Hur' : (u < length (bfs_counted st))%nat) by lia.
      set (st' := {| bfs_q := bfs_q st ++ [(u, d + 1)];
                     bfs_counted := vector_set (bfs_counted st) u stamp;
                     bfs_reached := bfs_reached st + 1;
                     bfs_sum := bfs_sum st;
                     bfs_actdist := bfs_actdist st |}).
      assert (Hinv' : bfs_inv g mode stamp source st').
      { constructor; simpl.
        - rewrite vector_set_length; auto.
        - apply vector_set_Forall; auto. lia.
        - destruct (Nat.eq_dec source u) as [->|Hsu].
          + apply nth_vector_set_same; auto.
          + rewrite nth_vector_set_other; auto.
        - rewrite count_stamp_set; auto. lia.
        - intros v Hv. destruct (Nat.eq_dec v u) as [->|Hvu].
          + eapply reach_step; eauto.
          + rewrite nth_vector_set_other in Hv; auto.
        - intros v dv Hin. apply in_app_or in Hin. destruct Hin as [Hin|Hin].
          + destruct (Hq v dv Hin) as [Hv Hdv]. split; [|lia].
            destruct (Nat.eq_dec v u) as [->|Hvu].
            * apply nth_vector_set_same; auto.
            * rewrite nth_vector_set_other; auto.
          + destruct Hin as [Hin|[]]. inversion Hin; subst.
            split; [apply nth_vector_set_same; auto | lia].
        - intros Hn. destruct (Hsum Hn) as [S [HS [HS0 HSb]]]. exists S.
          unfold bfs_sum_is; simpl. split; [exact HS|]. split; [exact HS0|].
          rewrite queued_distance_app. unfold queued_distance at 2 4. simpl. nia. }
      destruct (IH st' Hsub') as [H1 H2]; [unfold st'; simpl; lia | exact Hinv' |].
      split; auto.
      rewrite H2. unfold bfs_measure, st'; simpl.
      rewrite count_stamp_set; auto. rewrite length_app. simpl.
      pose proof (count_stamp_missing stamp (bfs_counted st) u Hur' Hne). lia.
Qed.

Lemma bfs_pop_inv g mode stamp source act d q' c r sm ad :
  stamp <> 0 ->
  bfs_inv g mode stamp source
    {| bfs_q := (act, d) :: q'; bfs_counted := c; bfs_reached := r;
       bfs_sum := sm; bfs_actdist := ad |} ->
  bfs_inv g mode stamp source
    {| bfs_q := q'; bfs_counted := c; bfs_reached := r;
       bfs_sum := PrimFloat.add sm (real_of_long d); bfs_actdist := d |}
  /\ reachable g mode source act
  /\ 0 <= d <= r - 1 /\ r <= Z.of_nat (vcount g).
Proof.
  intros Hs [Hlen Hup Hsrc Hre Hrb Hq Hsum]; simpl in *.
  destruct (Hq act d (or_introl eq_refl)) as [Hact Hd].
  pose proof (count_stamp_le_length stamp c) as Hc.
  split; [|split; [apply Hrb; exact Hact | split; [exact Hd | lia]]].
  constructor; simpl; auto.
  intros Hn. destruct (Hsum Hn) as [S [HS [HS0 HSb]]].
  unfold bfs_sum_is in *; simpl in *.
  assert (Hq' : 0 <= queued_distance q').
  { apply queued_distance_nonneg. intros v dv Hin.
    destruct (Hq v dv (or_intror Hin)) as [_ ?]. lia. }
  unfold queued_distance in HSb, Hq'. simpl in HSb.
  exists (S + d). split.
  - subst sm. apply real_of_long_add; try lia.
    assert ((r - 1) * (r - 1) < 2 ^ 26 * 2 ^ 26) by nia.
    change (2 ^ 26 * 2 ^ 26) with (2 ^ 52) in H.
    assert (2 ^ 52 < 2 ^ 53) by reflexivity. lia.
  - unfold queued_distance. lia.
Qed.

Lemma bfs_while_total g mode cutoff stamp source :
  graph_wf g = true -> stamp <> 0 ->
  forall fuel st,
    bfs_inv g mode stamp source st ->
    (bfs_measure g stamp st <= fuel)%nat ->
    exists st', bfs_while fuel g mode cutoff stamp st = Some st'
                /\ bfs_inv g mode stamp source st' /\ bfs_q st' = [].
Proof.
  intros Hwf Hs. induction fuel as [|fuel IH]; intros st Hinv Hm.
  - destruct st as [q c r sm ad]. destruct q as [|[act d] q'].
    + simpl. eexists; split; [reflexivity|]. split; auto.
    + unfold bfs_measure in Hm; simpl in Hm. lia.
  - destruct st as [q c r sm ad]. destruct q as [|[act d] q'].
    + simpl. eexists; split; [reflexivity|]. split; auto.
    + simpl.
      destruct (bfs_pop_inv g mode stamp source act d q' c r sm ad Hs Hinv)
        as [Hinv1 [Hact [Hd _]]].
      match goal with |- context [bfs_neighbors _ _ _ ?s] => set (st1 := s) in * end.
      assert (Hm1 : (bfs_measure g stamp st1 <= fuel)%nat).
      { unfold bfs_measure in *; simpl in *. lia. }
      destruct (beyond_cutoff cutoff d).
      * apply IH; auto.
      * destruct (bfs_neighbors_inv g mode stamp source act d Hwf Hs Hact
                    (proj1 Hd) (igraph_neighbors g mode act) st1 (fun u H => H)
                    (proj2 Hd) Hinv1) as [Hi Hme].
        apply IH; auto. rewrite Hme. auto.
Qed.

Lemma bfs_init_inv g mode i source counted actdist :
  (source < vcount g)%nat -> stamps_upto g i counted ->
  let st := {| bfs_q := [(source, 0)];
               bfs_counted := vector_set counted source (Z.of_nat i + 1);
               bfs_reached := 1; bfs_sum := 0%float; bfs_actdist := actdist |} in
  bfs_inv g mode (Z.of_nat i + 1) source st
  /\ (bfs_measure g (Z.of_nat i + 1) st <= vcount g)%nat
  /\ (forall v, nth v (bfs_counted st) 0 = Z.of_nat i + 1 -> v = source).
Proof.
  intros Hsrc [Hlen Hup]. simpl.
  assert (Hfresh : Forall (fun x => x < Z.of_nat i + 1) counted).
  { eapply Forall_impl; [|exact Hup]. simpl. intros; lia. }
  assert (Hnth : forall v, nth v counted 0 <> Z.of_nat i + 1).
  { intros v Hv. destruct (Nat.lt_ge_cases v (length counted)) as [Hlt|Hge].
    - rewrite Forall_forall in Hfresh. specialize (Hfresh _ (nth_In counted 0 Hlt)). lia.
    - rewrite nth_overflow in Hv by exact Hge. lia. }
  assert (Honly : forall v, nth v (vector_set counted source (Z.of_nat i + 1)) 0
                            = Z.of_nat i + 1 -> v = source).
  { intros v Hv. destruct (Nat.eq_dec v source) as [->|Hne]; auto.
    rewrite nth_vector_set_other in Hv; auto. elim (Hnth v Hv). }
  split; [|split; [|exact Honly]].
  - constructor; simpl.
    + rewrite vector_set_length; auto.
    + apply vector_set_Forall; [|lia]. eapply Forall_impl; [|exact Hup]. simpl; intros; lia.
    + apply nth_vector_set_same. lia.
    + rewrite count_stamp_set; auto; try lia. rewrite count_stamp_fresh; auto.
    + intros v Hv. rewrite (Honly v Hv). constructor.
    + intros v d [Hin|[]]. inversion Hin; subst. split; [|lia].
      apply nth_vector_set_same. lia.
    + intros _. exists 0. unfold bfs_sum_is, queued_distance; simpl.
      split; [reflexivity|]. lia.
  - unfold bfs_measure; simpl. rewrite count_stamp_set; auto; lia.
Qed.

Lemma bfs_source_total g mode cutoff i source counted actdist :
  graph_wf g = true -> (source < vcount g)%nat -> stamps_upto g i counted ->
  exists b, bfs_source g mode cutoff i source counted actdist = Some b
            /\ bfs_inv g mode (Z.of_nat i + 1) source b /\ bfs_q b = [].
Proof.
  intros Hwf Hsrc Hst. unfold bfs_source.
  destruct (bfs_init_inv g mode i source counted actdist Hsrc Hst) as [Hinv [Hm _]].
  apply bfs_while_total with (source := source); auto. lia.
Qed.

(** ** The indexed heap *)

Lemma igraph_2wheap_max_In h x : igraph_2wheap_max h = Some x -> In x h.
Proof.
  revert x; induction h as [|y r IH]; intros x; simpl; [discriminate|].
  destruct (igraph_2wheap_max r) as [z|].
  - destruct (PrimFloat.ltb (snd y) (snd z)); intros E; inversion E; subst; auto.
  - intros E; inversion E; auto.
Qed.

Lemma igraph_2wheap_max_None h : igraph_2wheap_max h = None -> h = [].
Proof.
  destruct h as [|y r]; simpl; auto.
  destruct (igraph_2wheap_max r) as [z|]; [|discriminate].
  destruct (PrimFloat.ltb (snd y) (snd z)); discriminate.
Qed.

Lemma igraph_2wheap_remove_length h v k :
  In (v, k) h -> S (length (igraph_2wheap_remove h v)) = length h.
Proof.
  induction h as [|y r IH]; simpl; [contradiction|].
  intros [->|Hin]; simpl.
  - rewrite Nat.eqb_refl. auto.
  - destruct (Nat.eqb (fst y) v); simpl; auto.
Qed.

Lemma igraph_2wheap_remove_In h v x : In x (igraph_2wheap_remove h v) -> In x h.
Proof.
  induction h as [|y r IH]; simpl; auto.
  destruct (Nat.eqb (fst y) v); simpl; intuition.
Qed.

Lemma igraph_2wheap_modify_length h v e : length (igraph_2wheap_modify h v e) = length h.
Proof. apply length_map. Qed.

Lemma igraph_2wheap_modify_In h v e x :
  In x (igraph_2wheap_modify h v e) -> exists k, In (fst x, k) h.
Proof.
  unfold igraph_2wheap_modify. intros H. apply in_map_iff in H.
  destruct H as [[w k] [Hx Hin]]. simpl in Hx.
  destruct (Nat.eqb_spec w v) as [->|Hne]; subst x; simpl; eauto.
Qed.

(** ** Dijkstra's algorithm *)

Lemma dij_relax_inv g mode weights stamp source minnei mindist :
  graph_wf g = true -> stamp <> 0 -> reachable g mode source minnei ->
  forall neis st,
    (forall e, In e neis -> In e (igraph_incident g mode minnei)) ->
    dij_inv g mode stamp source st ->
    dij_inv g mode stamp source (dij_relax g weights stamp minnei mindist neis st)
    /\ dij_measure g stamp (dij_relax g weights stamp minnei mindist neis st)
       = dij_measure g stamp st.
Proof.
  intros Hwf Hs Hmin. induction neis as [|e neis IH]; intros st Hsub Hinv; simpl.
  - auto.
  - assert (He : In e (igraph_incident g mode minnei)) by (apply Hsub; left; auto).
    assert (Hsub' : forall w, In w neis -> In w (igraph_incident g mode minnei))
      by (intros w Hw; apply Hsub; right; auto).
    set (to := IGRAPH_OTHER g e minnei).
    assert (Hto : In to (igraph_neighbors g mode minnei))
      by (unfold igraph_neighbors; apply in_map_iff; exists e; auto).
    pose proof (igraph_neighbors_range g mode minnei to Hwf Hto) as Htr.
    destruct Hinv as [Hlen Hup Hsrc Hre Hrb Hq].
    assert (Htr' : (to < length (dj_which st))%nat) by lia.
    destruct (Z.eqb_spec (nth to (dj_which st) 0) stamp) as [Heq|Hne]; simpl.
    + (* already stamped: at most the key changes *)
      match goal with |- context [if ?c then _ else _] => destruct c end.
      * match goal with |- context [dij_relax _ _ _ _ _ _ ?s] => set (st' := s) end.
        assert (Hinv' : dij_inv g mode stamp source st').
        { constructor; simpl; auto.
          - rewrite igraph_2wheap_modify_length; auto.
          - intros v k Hin. apply igraph_2wheap_modify_In in Hin.
            destruct Hin as [k' Hin]. eapply Hq; eauto. }
        destruct (IH st' Hsub' Hinv') as [H1 H2]. split; auto.
        rewrite H2. unfold dij_measure, st'; simpl.
        rewrite igraph_2wheap_modify_length; auto.
      * apply IH; auto. constructor; auto.
    + (* first visit *)
      match goal with |- context [dij_relax _ _ _ _ _ _ ?s] => set (st' := s) end.
      assert (Hinv' : dij_inv g mode stamp source st').
      { constructor; simpl.
        - rewrite vector_set_length; auto.
        - apply vector_set_Forall; auto. lia.
        - destruct (Nat.eq_dec source to) as [->|Hsu].
          + apply nth_vector_set_same; auto.
          + rewrite nth_vector_set_other; auto.
        - rewrite count_stamp_set; auto.
          unfold igraph_2wheap_push_with_index. rewrite length_app. simpl. lia.
        - intros v Hv. destruct (Nat.eq_dec v to) as [->|Hvu].
          + eapply reach_step; eauto.
          + rewrite nth_vector_set_other in Hv; auto.
        - intros v k Hin. unfold igraph_2wheap_push_with_index in Hin.
          apply in_app_or in Hin. destruct Hin as [Hin|Hin].
          + pose proof (Hq v k Hin) as Hv.
            destruct (Nat.eq_dec v to) as [->|Hvu].
            * apply nth_vector_set_same; auto.
            * rewrite nth_vector_set_other; auto.
          + destruct Hin as [Hin|[]]. inversion Hin; subst.
            apply nth_vector_set_same; auto. }
      destruct (IH st' Hsub' Hinv') as [H1 H2]. split; auto.
      rewrite H2. unfold dij_measure, st'; simpl.
      rewrite count_stamp_set; auto.
      unfold igraph_2wheap_push_with_index. rewrite length_app. simpl.
      pose proof (count_stamp_missing stamp (dj_which st) to Htr' Hne). lia.
Qed.

Lemma dij_while_total g mode weights cutoff stamp source :
  graph_wf g = true -> stamp <> 0 ->
  forall fuel st,
    dij_inv g mode stamp source st ->
    (dij_measure g stamp st <= fuel)%nat ->
    exists st', dij_while fuel g mode weights cutoff stamp st = Some st'
                /\ dij_inv g mode stamp source st' /\ dj_Q st' = [].
Proof.
  intros Hwf Hs. induction fuel as [|fuel IH]; intros st Hinv Hm; simpl;
    destruct (igraph_2wheap_max (dj_Q st)) as [[minnei top]|] eqn:Hmax.
  - apply igraph_2wheap_max_In in Hmax.
    unfold dij_measure in Hm. destruct (dj_Q st); simpl in *; [contradiction|lia].
  - eexists; split; [reflexivity|]. split; auto. apply igraph_2wheap_max_None; auto.
  - apply igraph_2wheap_max_In in Hmax.
    match goal with |- context [dij_relax _ _ _ _ _ _ ?s] => set (st1 := s) end.
    destruct Hinv as [Hlen Hup Hsrc Hre Hrb Hq].
    pose proof (igraph_2wheap_remove_length _ _ _ Hmax) as Hrl.
    assert (Hinv1 : dij_inv g mode stamp source st1).
    { constructor; simpl; auto.
      - lia.
      - intros v k Hin. apply igraph_2wheap_remove_In in Hin. eapply Hq; eauto. }
    assert (Hm1 : (dij_measure g stamp st1 <= fuel)%nat).
    { unfold dij_measure in *; simpl in *. lia. }
    destruct (beyond_cutoff_weighted cutoff (PrimFloat.opp top)).
    + apply IH; auto.
    + destruct (dij_relax_inv g mode weights stamp source minnei (PrimFloat.opp top)
                  Hwf Hs (Hrb minnei (Hq _ _ Hmax))
                  (igraph_incident g mode minnei) st1 (fun u H => H) Hinv1) as [Hi Hme].
      apply IH; auto. rewrite Hme. auto.
  - eexists; split; [reflexivity|]. split; auto. apply igraph_2wheap_max_None; auto.
Qed.

Lemma dij_source_total g mode weights cutoff i source which dist mindist :
  graph_wf g = true -> (source < vcount g)%nat -> stamps_upto g i which ->
  exists d, dij_source g mode weights cutoff i source which dist mindist = Some d
            /\ dij_inv g mode (Z.of_nat i + 1) source d /\ dj_Q d = [].
Proof.
  intros Hwf Hsrc [Hlen Hup]. unfold dij_source.
  assert (Hfresh : Forall (fun x => x < Z.of_nat i + 1) which).
  { eapply Forall_impl; [|exact Hup]. simpl. intros; lia. }
  assert (Hnth : forall v, nth v which 0 <> Z.of_nat i + 1).
  { intros v Hv. destruct (Nat.lt_ge_cases v (length which)) as [Hlt|Hge].
    - rewrite Forall_forall in Hfresh. specialize (Hfresh _ (nth_In which 0 Hlt)). lia.
    - rewrite nth_overflow in Hv by exact Hge. lia. }
  apply dij_while_total with (source := source); [exact Hwf | lia | | ].
  - constructor; simpl.
    + rewrite vector_set_length; auto.
    + apply vector_set_Forall; [|lia]. eapply Forall_impl; [|exact Hup]. simpl; intros; lia.
    + apply nth_vector_set_same. lia.
    + rewrite count_stamp_set; auto; try lia. rewrite count_stamp_fresh; auto.
    + intros v Hv. destruct (Nat.eq_dec v source) as [->|Hne].
      * constructor.
      * rewrite nth_vector_set_other in Hv; auto. elim (Hnth v Hv).
    + intros v k [Hin|[]]. inversion Hin; subst. apply nth_vector_set_same. lia.
  - unfold dij_measure; simpl. rewrite count_stamp_set; auto; lia.
Qed.

(** ** The outer loops: the warning latch *)

Lemma count_warning_app w l1 l2 :
  count_warning w (l1 ++ l2) = (count_warning w l1 + count_warning w l2)%nat.
Proof. unfold count_warning. rewrite filter_app, length_app. auto. Qed.

Lemma closeness_loop_latched handler g mode cutoff vit :
  forall i st,
    latched (ls_warning_shown st) (ls_warnings st) ->
    let st' := snd (closeness_loop handler g mode cutoff vit i st) in
    latched (ls_warning_shown st') (ls_warnings st')
    /\ (ls_warning_shown st = true -> ls_warning_shown st' = true).
Proof.
  induction vit as [|source vit IH]; intros i st Hl; simpl.
  - auto.
  - destruct (handler (ls_polls st)); simpl; auto.
    destruct (bfs_source g mode cutoff i source (ls_counted st) (ls_actdist st)) as [b|];
      simpl; auto.
    match goal with |- context [closeness_loop _ _ _ _ _ _ ?s] => set (st1 := s) end.
    assert (H1 : latched (ls_warning_shown st1) (ls_warnings st1)
                 /\ (ls_warning_shown st = true -> ls_warning_shown st1 = true)).
    { unfold st1, latched in *; simpl.
      destruct (ls_warning_shown st); simpl.
      - rewrite !andb_false_r. simpl. auto.
      - rewrite !andb_true_r.
        destruct (within_cutoff cutoff (bfs_actdist b) && (bfs_reached b <? igraph_vcount g));
          simpl; [|split; [auto|discriminate]].
        rewrite count_warning_app, Hl. split; [reflexivity|discriminate]. }
    destruct H1 as [H1 H2]. destruct (IH (S i) st1 H1) as [H3 H4]. split; auto.
Qed.

Lemma closeness_loop_weighted_latched g mode weights cutoff vit :
  forall i st,
    latched (ws_warning_shown st) (ws_warnings st) ->
    let st' := snd (closeness_loop_weighted g mode weights cutoff vit i st) in
    latched (ws_warning_shown st') (ws_warnings st')
    /\ (ws_warning_shown st = true -> ws_warning_shown st' = true).
Proof.
  induction vit as [|source vit IH]; intros i st Hl; simpl.
  - auto.
  - destruct (dij_source g mode weights cutoff i source (ws_which st) (ws_dist st)
                (ws_mindist st)) as [d|]; simpl; auto.
    match goal with |- context [closeness_loop_weighted _ _ _ _ _ _ ?s] => set (st1 := s) end.
    assert (H1 : latched (ws_warning_shown st1) (ws_warnings st1)
                 /\ (ws_warning_shown st = true -> ws_warning_shown st1 = true)).
    { unfold st1, latched in *; simpl.
      destruct (ws_warning_shown st); simpl.
      - rewrite !andb_false_r. simpl. auto.
      - rewrite !andb_true_r.
        destruct (within_cutoff_weighted cutoff (dj_mindist d)
                  && (dj_reached d <? igraph_vcount g));
          simpl; [|split; [auto|discriminate]].
        rewrite count_warning_app, Hl. split; [reflexivity|discriminate]. }
    destruct H1 as [H1 H2]. destruct (IH (S i) st1 H1) as [H3 H4]. split; auto.
Qed.

Lemma finish_warnings normalized g r : warnings (finish normalized g r) = ls_warnings (snd r).
Proof. destruct r as [[[]| |] st]; reflexivity. Qed.

Lemma finish_weighted_warnings normalized g r :
  warnings (finish_weighted normalized g r) = ws_warnings (snd r).
Proof. destruct r as [[[]| |] st]; reflexivity. Qed.

Lemma finish_ret normalized g r : ret (finish normalized g r) = fst r.
Proof. destruct r as [[[]| |] st]; reflexivity. Qed.

Lemma finish_weighted_ret normalized g r : ret (finish_weighted normalized g r) = fst r.
Proof. destruct r as [[[]| |] st]; reflexivity. Qed.

Lemma finish_polls normalized g r : polls (finish normalized g r) = ls_polls (snd r).
Proof. destruct r as [[[]| |] st]; reflexivity. Qed.

Lemma latched_le shown ws : latched shown ws -> (count_warning WARN_DISCONNECTED ws <= 1)%nat.
Proof. unfold latched. destruct shown; lia. Qed.

Lemma disconnected_warning_at_most_once handler g res0 vids mode cutoff weights normalized :
  (count_warning WARN_DISCONNECTED
     (warnings (igraph_closeness_estimate handler g res0 vids mode cutoff weights normalized))
   <= 1)%nat.
Proof.
  unfold igraph_closeness_estimate. destruct weights as [w|].
  - unfold igraph_i_closeness_estimate_weighted, igraph_lazy_inclist_init.
    destruct (negb _); simpl; auto.
    destruct (igraph_vector_min w) as [m|]; simpl; auto.
    destruct (PrimFloat.leb m 0); simpl; auto.
    assert (Hw : count_warning WARN_DISCONNECTED
                   (if PrimFloat.leb m IGRAPH_SHORTEST_PATH_EPSILON
                    then [WARN_EPSILON] else []) = O)
      by (destruct (PrimFloat.leb m IGRAPH_SHORTEST_PATH_EPSILON); reflexivity).
    destruct (negb (igraph_vit_create g vids)); simpl; [lia|].
    destruct (invalid_mode mode); simpl; [lia|].
    rewrite finish_weighted_warnings.
    eapply latched_le. apply closeness_loop_weighted_latched. exact Hw.
  - unfold closeness_estimate_unweighted.
    destruct (negb (igraph_vit_create g vids)); simpl; auto.
    destruct (invalid_mode mode); simpl; auto.
    rewrite finish_warnings.
    eapply latched_le. apply closeness_loop_latched. reflexivity.
Qed.

(** ** The outer loops: they run to the end on a well-formed graph *)

Lemma bfs_inv_stamps_upto g mode i source b :
  bfs_inv g mode (Z.of_nat i + 1) source b -> stamps_upto g (S i) (bfs_counted b).
Proof.
  intros [Hlen Hup _ _ _ _ _]. split; auto.
  eapply Forall_impl; [|exact Hup]. simpl. intros; lia.
Qed.

Lemma dij_inv_stamps_upto g mode i source d :
  dij_inv g mode (Z.of_nat i + 1) source d -> stamps_upto g (S i) (dj_which d).
Proof.
  intros [Hlen Hup _ _ _ _]. split; auto.
  eapply Forall_impl; [|exact Hup]. simpl. intros; lia.
Qed.

Lemma bfs_inv_disconnected g mode stamp source b :
  bfs_inv g mode stamp source b -> disconnected_from g mode source ->
  (bfs_reached b <? igraph_vcount g) = true.
Proof.
  intros [Hlen _ _ Hre Hrb _ _] [t [Ht Hnr]]. apply Z.ltb_lt. rewrite Hre.
  unfold igraph_vcount. rewrite <- Hlen. apply inj_lt.
  apply count_stamp_missing with (k := t); [lia|]. intros Hc. apply Hnr, Hrb, Hc.
Qed.

Lemma dij_inv_disconnected g mode stamp source d :
  dij_inv g mode stamp source d -> dj_Q d = [] -> disconnected_from g mode source ->
  (dj_reached d <? igraph_vcount g) = true.
Proof.
  intros [Hlen _ _ Hre Hrb _] HQ [t [Ht Hnr]]. apply Z.ltb_lt.
  rewrite HQ in Hre. simpl in Hre. rewrite Z.add_0_r in Hre. rewrite Hre.
  unfold igraph_vcount. rewrite <- Hlen. apply inj_lt.
  apply count_stamp_missing with (k := t); [lia|]. intros Hc. apply Hnr, Hrb, Hc.
Qed.

Lemma closeness_loop_runs handler g mode cutoff :
  graph_wf g = true -> (forall k, handler k = false) ->
  forall vit i st,
    igraph_vit_create g vit = true -> stamps_upto g i (ls_counted st) ->
    fst (closeness_loop handler g mode cutoff vit i st) = Returns IGRAPH_SUCCESS
    /\ ls_polls (snd (closeness_loop handler g mode cutoff vit i st))
       = (ls_polls st + length vit)%nat.
Proof.
  intros Hwf Hh. induction vit as [|source vit IH]; intros i st Hv Hst; simpl.
  - split; auto.
  - split_vit Hv Hs.
    rewrite Hh.
    destruct (bfs_source_total g mode cutoff i source (ls_counted st) (ls_actdist st)
                Hwf Hs Hst) as [b [Hb [Hinv _]]].
    rewrite Hb.
    match goal with |- context [closeness_loop _ _ _ _ _ _ ?s] => set (st1 := s) end.
    destruct (IH (S i) st1 Hv) as [H1 H2].
    { apply (bfs_inv_stamps_upto g mode i source b Hinv). }
    split; auto. rewrite H2. unfold st1; simpl. lia.
Qed.

Lemma closeness_loop_weighted_runs g mode weights cutoff :
  graph_wf g = true ->
  forall vit i st,
    igraph_vit_create g vit = true -> stamps_upto g i (ws_which st) ->
    fst (closeness_loop_weighted g mode weights cutoff vit i st) = Returns IGRAPH_SUCCESS.
Proof.
  intros Hwf. induction vit as [|source vit IH]; intros i st Hv Hst; simpl.
  - auto.
  - split_vit Hv Hs.
    destruct (dij_source_total g mode weights cutoff i source (ws_which st) (ws_dist st)
                (ws_mindist st) Hwf Hs Hst) as [d [Hd [Hinv _]]].
    rewrite Hd. apply IH; auto.
    apply (dij_inv_stamps_upto g mode i source d Hinv).
Qed.

Lemma stamps_upto_init g : stamps_upto g 0 (repeat 0 (vcount g)).
Proof.
  split; [apply repeat_length|]. apply Forall_forall. intros x Hx.
  apply repeat_spec in Hx. subst. simpl. lia.
Qed.

Lemma within_cutoff_none cutoff actdist :
  PrimFloat.ltb cutoff 0 = true -> within_cutoff cutoff actdist = true.
Proof. unfold within_cutoff. intros ->. apply orb_true_r. Qed.

Lemma within_cutoff_weighted_none cutoff mindist :
  PrimFloat.ltb cutoff 0 = true -> within_cutoff_weighted cutoff mindist = true.
Proof. unfold within_cutoff_weighted. intros ->. apply orb_true_r. Qed.

Lemma closeness_loop_warns handler g mode cutoff source vit st :
  graph_wf g = true -> handler (ls_polls st) = false ->
  (source < vcount g)%nat -> stamps_upto g 0 (ls_counted st) ->
  PrimFloat.ltb cutoff 0 = true -> disconnected_from g mode source ->
  latched (ls_warning_shown st) (ls_warnings st) ->
  count_warning WARN_DISCONNECTED
    (ls_warnings (snd (closeness_loop handler g mode cutoff (source :: vit) O st))) = 1%nat.
Proof.
  intros Hwf Hh Hs Hst Hc Hd Hl. simpl. rewrite Hh.
  destruct (bfs_source_total g mode cutoff O source (ls_counted st) (ls_actdist st)
              Hwf Hs Hst) as [b [Hb [Hinv _]]].
  rewrite Hb.
  rewrite (within_cutoff_none _ _ Hc), (bfs_inv_disconnected _ _ _ _ _ Hinv Hd).
  match goal with |- context [closeness_loop _ _ _ _ _ _ ?s] => set (st1 := s) end.
  assert (H1 : latched (ls_warning_shown st1) (ls_warnings st1)
               /\ ls_warning_shown st1 = true).
  { unfold st1, latched in *; simpl. destruct (ls_warning_shown st); simpl; auto.
    rewrite count_warning_app, Hl. auto. }
  destruct H1 as [H1 H2].
  destruct (closeness_loop_latched handler g mode cutoff vit 1 st1 H1) as [H3 H4].
  unfold latched in H3. rewrite (H4 H2) in H3. exact H3.
Qed.

Lemma closeness_loop_weighted_warns g mode weights cutoff source vit st :
  graph_wf g = true ->
  (source < vcount g)%nat -> stamps_upto g 0 (ws_which st) ->
  PrimFloat.ltb cutoff 0 = true -> disconnected_from g mode source ->
  latched (ws_warning_shown st) (ws_warnings st) ->
  count_warning WARN_DISCONNECTED
    (ws_warnings (snd (closeness_loop_weighted g mode weights cutoff (source :: vit) O st)))
  = 1%nat.
Proof.
  intros Hwf Hs Hst Hc Hd Hl. simpl.
  destruct (dij_source_total g mode weights cutoff O source (ws_which st) (ws_dist st)
              (ws_mindist st) Hwf Hs Hst) as [d [Hdj [Hinv HQ]]].
  rewrite Hdj.
  rewrite (within_cutoff_weighted_none _ _ Hc),
    (dij_inv_disconnected _ _ _ _ _ Hinv HQ Hd).
  match goal with |- context [closeness_loop_weighted _ _ _ _ _ _ ?s] => set (st1 := s) end.
  assert (H1 : latched (ws_warning_shown st1) (ws_warnings st1)
               /\ ws_warning_shown st1 = true).
  { unfold st1, latched in *; simpl. destruct (ws_warning_shown st); simpl; auto.
    rewrite count_warning_app, Hl. auto. }
  destruct H1 as [H1 H2].
  destruct (closeness_loop_weighted_latched g mode weights cutoff vit 1 st1 H1) as [H3 H4].
  unfold latched in H3. rewrite (H4 H2) in H3. exact H3.
Qed.

(** ** The outer loop of the unweighted engine: interruption *)

Lemma firstn_vector_set {A : Type} (v : list A) n k x :
  (n <= k)%nat -> firstn n (vector_set v k x) = firstn n v.
Proof.
  revert n k; induction v as [|y r IH]; intros [|n] [|k] H; simpl; auto; try lia.
  f_equal. apply IH. lia.
Qed.

Lemma skipn_vector_set {A : Type} (v : list A) n k x :
  (k < n)%nat -> skipn n (vector_set v k x) = skipn n v.
Proof.
  revert n k; induction v as [|y r IH]; intros [|n] [|k] H; simpl; auto; try lia.
  apply IH. lia.
Qed.

Lemma closeness_loop_frame handler g mode cutoff vit :
  forall i st n, (n <= i)%nat ->
    firstn n (ls_res (snd (closeness_loop handler g mode cutoff vit i st)))
    = firstn n (ls_res st).
Proof.
  induction vit as [|source vit IH]; intros i st n Hn; simpl.
  - auto.
  - destruct (handler (ls_polls st)); simpl; auto.
    destruct (bfs_source g mode cutoff i source (ls_counted st) (ls_actdist st)) as [b|];
      simpl; auto.
    rewrite IH by lia. simpl. apply firstn_vector_set. exact Hn.
Qed.

Lemma closeness_loop_interrupted handler g mode cutoff :
  graph_wf g = true ->
  forall vit i st k,
    igraph_vit_create g vit = true -> stamps_upto g i (ls_counted st) ->
    (k < length vit)%nat ->
    (forall j, (j < k)%nat -> handler (ls_polls st + j)%nat = false) ->
    handler (ls_polls st + k)%nat = true ->
    fst (closeness_loop handler g mode cutoff vit i st) = Returns IGRAPH_INTERRUPTED
    /\ ls_polls (snd (closeness_loop handler g mode cutoff vit i st))
       = S (ls_polls st + k)
    /\ ls_res (snd (closeness_loop handler g mode cutoff vit i st))
       = firstn (i + k) (ls_res (snd (closeness_loop no_interrupt g mode cutoff vit i st)))
         ++ skipn (i + k) (ls_res st).
Proof.
  intros Hwf. induction vit as [|source vit IH]; intros i st k Hv Hst Hk Hb Ht.
  - simpl in Hk. lia.
  - split_vit Hv Hs.
    destruct k as [|k].
    + rewrite Nat.add_0_r in Ht. rewrite !Nat.add_0_r.
      rewrite closeness_loop_frame by lia.
      simpl. rewrite Ht. simpl. rewrite firstn_skipn. auto.
    + simpl.
      pose proof (Hb O ltac:(lia)) as Hb0. rewrite Nat.add_0_r in Hb0. rewrite Hb0.
      unfold no_interrupt at 1.
      destruct (bfs_source_total g mode cutoff i source (ls_counted st) (ls_actdist st)
                  Hwf Hs Hst) as [b [Hbs [Hinv _]]].
      rewrite Hbs.
      match goal with |- context [closeness_loop handler _ _ _ _ _ ?s] => set (st1 := s) end.
      destruct (IH (S i) st1 k Hv) as [H1 [H2 H3]].
      * apply (bfs_inv_stamps_upto g mode i source b Hinv).
      * simpl in Hk. lia.
      * intros j Hj. unfold st1; simpl.
        rewrite <- Nat.add_succ_r. apply Hb. lia.
      * unfold st1; simpl. rewrite <- Nat.add_succ_r. exact Ht.
      * split; [exact H1|]. split.
        -- rewrite H2. unfold st1; simpl. lia.
        -- rewrite H3. replace (i + S k)%nat with (S i + k)%nat by lia.
           f_equal. unfold st1; cbn [ls_res]. apply skipn_vector_set. lia.
Qed.

Lemma skipn_repeat {A : Type} (x : A) n k : skipn k (repeat x n) = repeat x (n - k).
Proof.
  revert k; induction n as [|n IH]; intros [|k]; simpl; auto.
Qed.

(** ** The divisor of the score *)

Lemma real_of_long_zero z : 0 <= z < 2 ^ 53 -> (real_of_long z = 0%float <-> z = 0).
Proof.
  intros Hz. split; intros H; [|subst; reflexivity].
  assert (E : Prim2SF (real_of_long z) = Prim2SF 0%float) by (rewrite H; reflexivity).
  rewrite real_of_long_spec in E by auto.
  destruct z; auto; discriminate.
Qed.

Lemma bfs_total_exact g mode stamp source b :
  stamp <> 0 -> Z.of_nat (vcount g) < 2 ^ 26 ->
  bfs_inv g mode stamp source b -> bfs_q b = [] ->
  exists S, bfs_sum b = real_of_long S
            /\ bfs_reached b - 1 <= S <= (bfs_reached b - 1) * (bfs_reached b - 1)
            /\ 1 <= bfs_reached b <= igraph_vcount g
            /\ bfs_total g b
               = real_of_long (S + igraph_vcount g * (igraph_vcount g - bfs_reached b))
            /\ 0 <= S + igraph_vcount g * (igraph_vcount g - bfs_reached b) < 2 ^ 53.
Proof.
  intros Hs Hn [Hlen Hup Hsrc Hre Hrb Hq Hsum] Hqe.
  destruct (Hsum Hn) as [S [HS [HS0 HSb]]].
  rewrite Hqe in HSb. unfold queued_distance in HSb. simpl in HSb.
  pose proof (count_stamp_pos stamp (bfs_counted b) source Hsrc Hs) as H1.
  pose proof (count_stamp_le_length stamp (bfs_counted b)) as H2.
  rewrite Hlen in H2.
  assert (Hr : 1 <= bfs_reached b <= Z.of_nat (vcount g)) by lia.
  exists S. unfold bfs_total, igraph_vcount. rewrite HS.
  clear Hre Hq Hrb Hsrc Hup Hlen Hqe H1 H2 Hsum HS.
  generalize dependent (Z.of_nat (vcount g)). intros n Hn Hr.
  generalize dependent (bfs_reached b). intros r HSb Hr.
  assert (P1 : 2 ^ 26 * 2 ^ 26 = 2 ^ 52) by reflexivity.
  assert (P2 : 2 ^ 52 + 2 ^ 52 = 2 ^ 53) by reflexivity.
  assert (Hp : 0 <= n * (n - r) < 2 ^ 52) by nia.
  assert (Hq : 0 <= (r - 1) * (r - 1) < 2 ^ 52) by nia.
  split; [reflexivity|]. split; [lia|]. split; [lia|]. split; [|lia].
  rewrite real_of_long_mul by lia. apply real_of_long_add; lia.
Qed.

Lemma bfs_total_zero_iff g mode stamp source b :
  stamp <> 0 -> Z.of_nat (vcount g) < 2 ^ 26 ->
  bfs_inv g mode stamp source b -> bfs_q b = [] ->
  (bfs_total g b = 0%float <-> vcount g = 1%nat).
Proof.
  intros Hs Hn Hinv Hqe.
  destruct (bfs_total_exact g mode stamp source b Hs Hn Hinv Hqe)
    as [S [_ [HS [Hr [Ht Hb]]]]].
  rewrite Ht. rewrite real_of_long_zero by auto. unfold igraph_vcount in *.
  assert (Hn1 : vcount g = 1%nat <-> Z.of_nat (vcount g) = 1) by lia.
  rewrite Hn1. clear Hn1 Ht Hb Hinv Hqe.
  generalize dependent (Z.of_nat (vcount g)). intros n Hn Hr.
  generalize dependent (bfs_reached b). intros r HS Hr.
  split; intros H.
  - assert (Hp : 0 <= n * (n - r)) by (apply Z.mul_nonneg_nonneg; lia).
    assert (Hq : 0 <= (r - 1) * (r - 1)) by (apply Z.mul_nonneg_nonneg; lia).
    assert (Hz : n * (n - r) = 0) by lia.
    apply Z.mul_eq_0 in Hz. lia.
  - subst n. assert (r = 1) by lia. subst r. simpl in *. lia.
Qed.

Lemma vector_set_middle {A : Type} (l1 l2 : list A) x y :
  vector_set (l1 ++ x :: l2) (length l1) y = l1 ++ y :: l2.
Proof. induction l1 as [|z r IH]; simpl; auto. f_equal; auto. Qed.

Lemma vector_set_fill (x y : float) i m :
  vector_set (repeat x i ++ repeat y (S m)) i x = repeat x (S i) ++ repeat y m.
Proof.
  simpl repeat at 2.
  rewrite <- (repeat_length x i) at 2. rewrite vector_set_middle.
  change (x :: repeat y m) with ([x] ++ repeat y m).
  rewrite app_assoc. rewrite <- repeat_cons. reflexivity.
Qed.

Lemma closeness_loop_single handler g mode cutoff :
  vcount g = 1%nat -> graph_wf g = true -> (forall k, handler k = false) ->
  forall vit i st,
    igraph_vit_create g vit = true -> stamps_upto g i (ls_counted st) ->
    ls_res st = repeat nan i ++ repeat 0%float (length vit) ->
    ls_res (snd (closeness_loop handler g mode cutoff vit i st))
    = repeat nan (i + length vit).
Proof.
  intros Hn Hwf Hh. induction vit as [|source vit IH]; intros i st Hv Hst Hr; simpl.
  - rewrite Hr. simpl. rewrite app_nil_r, Nat.add_0_r. auto.
  - split_vit Hv Hs.
    rewrite Hh.
    destruct (bfs_source_total g mode cutoff i source (ls_counted st) (ls_actdist st)
                Hwf Hs Hst) as [b [Hb [Hinv Hq]]].
    rewrite Hb.
    assert (Ht : bfs_total g b = 0%float).
    { apply (bfs_total_zero_iff g mode (Z.of_nat i + 1) source b); auto; lia. }
    rewrite Ht. unfold igraph_vcount. rewrite Hn.
    change (closeness_score (Z.of_nat 1) 0%float) with nan.
    rewrite IH; auto.
    + apply (bfs_inv_stamps_upto g mode i source b Hinv).
    + simpl. rewrite Hr. apply vector_set_fill.
Qed.

Lemma dij_relax_popped g weights stamp minnei mindist :
  forall neis st,
    dj_Q st = [] ->
    (forall e, In e neis -> nth (IGRAPH_OTHER g e minnei) (dj_which st) 0 = stamp) ->
    let st' := dij_relax g weights stamp minnei mindist neis st in
    dj_Q st' = [] /\ dj_which st' = dj_which st /\ dj_reached st' = dj_reached st
    /\ dj_sum st' = dj_sum st /\ dj_mindist st' = dj_mindist st.
Proof.
  induction neis as [|e neis IH]; intros st HQ Hall; simpl.
  - auto.
  - rewrite (Hall e (or_introl eq_refl)), Z.eqb_refl. simpl.
    assert (Hall' : forall e', In e' neis ->
                      nth (IGRAPH_OTHER g e' minnei) (dj_which st) 0 = stamp)
      by (intros; apply Hall; right; auto).
    match goal with |- context [if ?c then _ else _] => destruct c end.
    + match goal with |- context [dij_relax _ _ _ _ _ _ ?s] =>
        destruct (IH s) as [H1 [H2 [H3 [H4 H5]]]] end; simpl; auto.
      rewrite HQ. reflexivity.
    + apply IH; auto.
Qed.

Lemma single_vertex_other g e v :
  vcount g = 1%nat -> graph_wf g = true -> (e < length (edges g))%nat ->
  IGRAPH_OTHER g e v = O.
Proof.
  intros Hn Hwf He. pose proof (IGRAPH_OTHER_range g e v Hwf He). lia.
Qed.

Lemma dij_source_single g mode weights cutoff i which dist mindist :
  vcount g = 1%nat -> graph_wf g = true -> stamps_upto g i which ->
  exists d, dij_source g mode weights cutoff i O which dist mindist = Some d
            /\ dij_total g d = 0%float
            /\ stamps_upto g (S i) (dj_which d).
Proof.
  intros Hn Hwf Hst.
  destruct (dij_source_total g mode weights cutoff i O which dist mindist Hwf
              ltac:(lia) Hst) as [d [Hd [Hinv HQ]]].
  exists d. split; [exact Hd|]. split; [|apply (dij_inv_stamps_upto g mode i O d Hinv)].
  assert (Hfin : dj_sum d = 0%float /\ dj_reached d = 1).
  { unfold dij_source in Hd. rewrite Hn in Hd. simpl in Hd.
    destruct (beyond_cutoff_weighted cutoff 1).
    - inversion Hd; subst; simpl; auto.
    - match type of Hd with context [dij_relax _ _ _ _ _ ?n ?s] =>
        destruct (dij_relax_popped g weights (Z.of_nat i + 1) O 1%float n s)
          as [H1 [H2 [H3 [H4 H5]]]]
      end.
      + reflexivity.
      + intros e He. simpl.
        rewrite (single_vertex_other g e O Hn Hwf (igraph_incident_range _ _ _ _ He)).
        apply nth_vector_set_same. destruct Hst as [Hl _]. lia.
      + rewrite H1 in Hd. simpl in Hd. inversion Hd; subst. auto. }
  destruct Hfin as [Hsum Hre]. unfold dij_total, igraph_vcount.
  rewrite Hsum, Hre, Hn. reflexivity.
Qed.

Lemma closeness_loop_weighted_single g mode weights cutoff :
  vcount g = 1%nat -> graph_wf g = true ->
  forall vit i st,
    igraph_vit_create g vit = true -> stamps_upto g i (ws_which st) ->
    ws_res st = repeat nan i ++ repeat 0%float (length vit) ->
    ws_res (snd (closeness_loop_weighted g mode weights cutoff vit i st))
    = repeat nan (i + length vit).
Proof.
  intros Hn Hwf. induction vit as [|source vit IH]; intros i st Hv Hst Hr; simpl.
  - rewrite Hr. simpl. rewrite app_nil_r, Nat.add_0_r. auto.
  - split_vit Hv Hs.
    assert (source = O) by lia. subst source.
    destruct (dij_source_single g mode weights cutoff i (ws_which st) (ws_dist st)
                (ws_mindist st) Hn Hwf Hst) as [d [Hd [Ht Hup]]].
    rewrite Hd, Ht. unfold igraph_vcount. rewrite Hn.
    change (closeness_score (Z.of_nat 1) 0%float) with nan.
    rewrite IH; auto.
    simpl. rewrite Hr. apply vector_set_fill.
Qed.

Lemma unnormalize_single normalized k :
  unnormalize normalized 1 (repeat nan k) = repeat nan k.
Proof.
  unfold unnormalize. destruct normalized; auto.
  rewrite map_repeat. reflexivity.
Qed.

Lemma closeness_loop_weighted_ret g mode weights cutoff vit :
  forall i st,
    fst (closeness_loop_weighted g mode weights cutoff vit i st) = Returns IGRAPH_SUCCESS
    \/ fst (closeness_loop_weighted g mode weights cutoff vit i st) = FuelExhausted.
Proof.
  induction vit as [|source vit IH]; intros i st; simpl; auto.
  destruct (dij_source g mode weights cutoff i source (ws_which st) (ws_dist st)
              (ws_mindist st)); simpl; auto.
Qed.

Lemma two_pairs_side s v :
  (s < 4)%nat -> reachable two_pairs IGRAPH_ALL s v ->
  (v < 4)%nat /\ (s <? 2)%nat = (v <? 2)%nat.
Proof.
  intros Hs. induction 1 as [|u v Hr [Hu IH] Hin].
  - auto.
  - destruct u as [|[|[|[|u]]]]; cbv in Hin; try contradiction;
      destruct Hin as [<-|[]]; (split; [lia|]); rewrite IH; reflexivity.
Qed.

Lemma two_pairs_disconnected s : (s < 4)%nat -> disconnected_from two_pairs IGRAPH_ALL s.
Proof.
  intros Hs. destruct (s <? 2)%nat eqn:E.
  - exists 2%nat. split; [simpl; lia|]. intros Hr.
    apply two_pairs_side in Hr; auto. destruct Hr as [_ Hr].
    rewrite E in Hr. discriminate.
  - exists 0%nat. split; [simpl; lia|]. intros Hr.
    apply two_pairs_side in Hr; auto. destruct Hr as [_ Hr].
    rewrite E in Hr. discriminate.
Qed.

(** ** Unit weights: Dijkstra's algorithm follows the breadth-first traversal *)

Lemma float_ltb_zero_not_leb c : PrimFloat.ltb c 0 = true -> PrimFloat.leb 0 c = false.
Proof.
  rewrite ltb_spec, leb_spec. unfold SFltb, SFleb.
  change (Prim2SF 0) with (S754_zero false).
  destruct (Prim2SF c) as [[]|[]| |[] m e]; simpl; congruence.
Qed.

Lemma real_of_long_nonzero j :
  0 < j < 2 ^ 53 -> PrimFloat.eqb (real_of_long j) 0 = false.
Proof.
  intros Hj. change 0%float with (real_of_long 0).
  rewrite real_of_long_eqb by lia. apply Z.eqb_neq. lia.
Qed.

Lemma igraph_cmp_epsilon_int a b :
  0 <= b <= a -> a < 2 ^ 53 ->
  (igraph_cmp_epsilon (real_of_long a) (real_of_long b) IGRAPH_SHORTEST_PATH_EPSILON <? 0)
  = false.
Proof.
  intros Hab Ha. unfold igraph_cmp_epsilon.
  rewrite real_of_long_sub by lia. rewrite real_of_long_abs by lia.
  rewrite real_of_long_below_eps by lia.
  destruct (a - b =? 0); [reflexivity|].
  rewrite real_of_long_ltb by lia.
  destruct (Z.ltb_spec a b); [lia|reflexivity].
Qed.

Lemma unit_weights_nth g e : (e < length (edges g))%nat -> nth e (unit_weights g) 0%float = 1%float.
Proof. intros He. unfold unit_weights. apply nth_repeat_lt. exact He. Qed.

Lemma queue_sorted_app q v m :
  queue_sorted q -> (forall x, In x q -> snd x <= m) -> queue_sorted (q ++ [(v, m)]).
Proof.
  induction q as [|x r IH]; intros Hs Hb; simpl.
  - split; [intros y []|exact I].
  - destruct Hs as [H1 H2]. split.
    + intros y Hy. apply in_app_or in Hy. destruct Hy as [Hy|[<-|[]]].
      * apply H1; auto.
      * simpl. apply Hb. left; auto.
    + apply IH; auto. intros y Hy. apply Hb. right; auto.
Qed.

Lemma igraph_2wheap_max_sorted q x :
  queue_sorted (x :: q) -> (forall y, In y (x :: q) -> 0 <= snd y < 2 ^ 52) ->
  igraph_2wheap_max (map heap_key (x :: q)) = Some (heap_key x).
Proof.
  intros [Hx Hs] Hb. simpl.
  destruct (igraph_2wheap_max (map heap_key q)) as [y|] eqn:Hmax; [|reflexivity].
  apply igraph_2wheap_max_In in Hmax. apply in_map_iff in Hmax.
  destruct Hmax as [z [<- Hz]]. unfold heap_key at 1 2. simpl snd.
  assert (P : 2 ^ 52 + 1 < 2 ^ 53) by reflexivity.
  pose proof (Hb x (or_introl eq_refl)). pose proof (Hb z (or_intror Hz)).
  pose proof (Hx z Hz).
  rewrite real_of_long_opp_ltb by lia.
  destruct (Z.ltb_spec (snd z + 1) (snd x + 1)); [lia|reflexivity].
Qed.

Lemma relax_lockstep g stamp act k :
  graph_wf g = true -> 0 <= k -> k + 2 < 2 ^ 53 ->
  forall es b d,
    (forall e, In e es -> (e < length (edges g))%nat) ->
    lockstep g stamp k b d ->
    lockstep g stamp k
      (bfs_neighbors stamp k (map (fun e => IGRAPH_OTHER g e act) es) b)
      (dij_relax g (unit_weights g) stamp act (real_of_long (k + 1)) es d).
Proof.
  intros Hwf Hk Hkb. induction es as [|e es IH]; intros b d He Hl.
  - exact Hl.
  - assert (Hel : (e < length (edges g))%nat) by (apply He; left; auto).
    assert (He' : forall e', In e' es -> (e' < length (edges g))%nat)
      by (intros; apply He; right; auto).
    pose proof (IGRAPH_OTHER_range g e act Hwf Hel) as Hto.
    cbn [map bfs_neighbors dij_relax].
    set (to := IGRAPH_OTHER g e act) in *.
    rewrite (unit_weights_nth g e Hel).
    change 1%float with (real_of_long 1).
    rewrite real_of_long_add by lia.
    destruct Hl as [HQ Hwh Hsm Hre Hso Hlv Hdl Hds].
    rewrite Hwh.
    destruct (Z.eqb_spec (nth to (bfs_counted b) 0) stamp) as [Heq|Hne]; cbn [negb].
    + destruct (Hds to Heq) as [j [Hj Hdj]]. rewrite Hdj.
      rewrite real_of_long_nonzero by lia.
      rewrite igraph_cmp_epsilon_int by lia.
      apply IH; auto. constructor; auto.
    + apply IH; auto. constructor; cbn.
      * unfold igraph_2wheap_push_with_index. rewrite HQ, map_app. reflexivity.
      * reflexivity.
      * exact Hsm.
      * rewrite length_app. simpl. lia.
      * apply queue_sorted_app; auto. intros x Hx. apply Hlv in Hx. lia.
      * intros x Hx. apply in_app_or in Hx. destruct Hx as [Hx|[<-|[]]].
        -- apply Hlv; auto.
        -- simpl. lia.
      * rewrite vector_set_length. exact Hdl.
      * intros v Hv. destruct (Nat.eq_dec v to) as [->|Hvt].
        -- exists (k + 1 + 1). split; [lia|]. apply nth_vector_set_same. lia.
        -- rewrite nth_vector_set_other in Hv by auto.
           rewrite nth_vector_set_other by auto. apply Hds; auto.
Qed.

Lemma dij_while_step fuel g mode weights cutoff stamp st minnei top :
  igraph_2wheap_max (dj_Q st) = Some (minnei, top) ->
  dij_while (S fuel) g mode weights cutoff stamp st
  = let st1 := {| dj_Q := igraph_2wheap_remove (dj_Q st) minnei;
                  dj_which := dj_which st;
                  dj_dist := dj_dist st;
                  dj_reached := dj_reached st + 1;
                  dj_sum := PrimFloat.add (dj_sum st)
                              (PrimFloat.sub (PrimFloat.opp top) 1);
                  dj_mindist := PrimFloat.opp top |} in
    if beyond_cutoff_weighted cutoff (PrimFloat.opp top) then
      dij_while fuel g mode weights cutoff stamp st1
    else
      dij_while fuel g mode weights cutoff stamp
        (dij_relax g weights stamp minnei (PrimFloat.opp top)
           (igraph_incident g mode minnei) st1).
Proof. intros H. cbn [dij_while]. rewrite H. reflexivity. Qed.

Lemma while_lockstep g mode cutoff stamp source :
  graph_wf g = true -> stamp <> 0 -> PrimFloat.ltb cutoff 0 = true ->
  Z.of_nat (vcount g) < 2 ^ 31 ->
  forall fuel b d level b',
    bfs_inv g mode stamp source b -> lockstep g stamp level b d -> 0 <= level ->
    bfs_while fuel g mode cutoff stamp b = Some b' ->
    exists d', dij_while fuel g mode (unit_weights g) cutoff stamp d = Some d'
               /\ dj_which d' = bfs_counted b' /\ dj_sum d' = bfs_sum b'
               /\ dj_reached d' = bfs_reached b'
               /\ length (dj_dist d') = vcount g.
Proof.
  intros Hwf Hs Hc Hn.
  assert (P : 2 ^ 31 + 2 < 2 ^ 52) by reflexivity.
  assert (P' : 2 ^ 52 < 2 ^ 53) by reflexivity.
  pose proof (float_ltb_zero_not_leb cutoff Hc) as Hle.
  induction fuel as [|fuel IH]; intros b d level b' Hinv Hl Hlev Hb.
  - destruct b as [q c r sm ad]. destruct q as [|[act k] q']; [|discriminate].
    simpl in Hb. inversion Hb; subst b'. clear Hb.
    destruct Hl as [HQ Hwh Hsm Hre Hso Hlv Hdl Hds]. simpl in *.
    exists d. rewrite HQ. simpl. repeat split; auto. lia.
  - destruct b as [q c r sm ad]. destruct q as [|[act k] q'].
    + simpl in Hb. inversion Hb; subst b'. clear Hb.
      destruct Hl as [HQ Hwh Hsm Hre Hso Hlv Hdl Hds]. simpl in *.
      exists d. rewrite HQ. simpl. repeat split; auto. lia.
    + destruct (bfs_pop_inv g mode stamp source act k q' c r sm ad Hs Hinv)
        as [Hinv1 [Hact [Hk Hr]]].
      pose proof (bi_queue _ _ _ _ _ Hinv) as Hqb. simpl in Hqb.
      destruct Hl as [HQ Hwh Hsm Hre Hso Hlv Hdl Hds].
      simpl in HQ, Hwh, Hsm, Hre, Hso, Hlv, Hds, Hb.
      assert (Hmax : igraph_2wheap_max (dj_Q d) = Some (heap_key (act, k))).
      { rewrite HQ. apply igraph_2wheap_max_sorted; auto.
        intros [v j] Hy. destruct (Hqb v j Hy) as [_ Hj]. simpl. lia. }
      unfold heap_key in Hmax. simpl fst in Hmax. simpl snd in Hmax.
      rewrite (dij_while_step fuel g mode (unit_weights g) cutoff stamp d act _ Hmax).
      cbv zeta. rewrite float_opp_involutive.
      unfold beyond_cutoff_weighted, beyond_cutoff in *. rewrite Hle in *.
      cbn [andb] in *.
      change 1%float with (real_of_long 1). rewrite real_of_long_sub by lia.
      replace (k + 1 - 1) with k by lia.
      pose proof (Hlv (act, k) (or_introl eq_refl)) as Hlk. simpl in Hlk.
      match goal with |- context [dij_relax _ _ _ _ _ _ ?s] => set (d1 := s) end.
      match type of Hb with context [bfs_neighbors _ _ _ ?s] => set (b1 := s) in * end.
      assert (Hl1 : lockstep g stamp k b1 d1).
      { constructor; unfold b1, d1; cbn.
        - rewrite HQ. simpl. rewrite Nat.eqb_refl. reflexivity.
        - exact Hwh.
        - rewrite Hsm. reflexivity.
        - lia.
        - apply Hso.
        - intros x Hx. pose proof (Hlv x (or_intror Hx)).
          pose proof (proj1 Hso x Hx). simpl in *. lia.
        - exact Hdl.
        - intros v Hv. destruct (Hds v Hv) as [j [Hj Hdj]]. exists j. split; [lia|auto]. }
      destruct (bfs_neighbors_inv g mode stamp source act k Hwf Hs Hact (proj1 Hk)
                  (igraph_neighbors g mode act) b1 (fun u H => H) (proj2 Hk) Hinv1)
        as [Hinv2 _].
      eapply (IH _ _ k b' Hinv2); [|lia|exact Hb].
      unfold igraph_neighbors. apply relax_lockstep; auto; try lia.
      intros e He. eapply igraph_incident_range; eauto.
Qed.

Lemma source_lockstep g mode cutoff i source counted actdist dist mindist :
  graph_wf g = true -> PrimFloat.ltb cutoff 0 = true -> Z.of_nat (vcount g) < 2 ^ 31 ->
  (source < vcount g)%nat -> stamps_upto g i counted -> length dist = vcount g ->
  exists b d,
    bfs_source g mode cutoff i source counted actdist = Some b
    /\ dij_source g mode (unit_weights g) cutoff i source counted dist mindist = Some d
    /\ bfs_inv g mode (Z.of_nat i + 1) source b
    /\ dj_which d = bfs_counted b /\ dij_total g d = bfs_total g b
    /\ dj_reached d = bfs_reached b /\ length (dj_dist d) = vcount g.
Proof.
  intros Hwf Hc Hn Hs Hst Hdl.
  destruct (bfs_source_total g mode cutoff i source counted actdist Hwf Hs Hst)
    as [b [Hb [Hinv _]]].
  destruct (bfs_init_inv g mode i source counted actdist Hs Hst) as [Hinv0 [_ Honly]].
  unfold bfs_source in Hb. unfold dij_source.
  match type of Hb with bfs_while _ _ _ _ _ ?s = _ => set (b0 := s) in * end.
  match goal with |- context [dij_while _ _ _ _ _ _ ?s] => set (d0 := s) end.
  assert (Hl0 : lockstep g (Z.of_nat i + 1) 0 b0 d0).
  { constructor; unfold b0, d0; cbn.
    - reflexivity.
    - reflexivity.
    - reflexivity.
    - reflexivity.
    - split; [intros y []|exact I].
    - intros x [<-|[]]. simpl. lia.
    - rewrite vector_set_length. exact Hdl.
    - intros v Hv. rewrite (Honly v Hv). exists 1. split; [lia|].
      apply nth_vector_set_same. lia. }
  destruct (while_lockstep g mode cutoff (Z.of_nat i + 1) source Hwf ltac:(lia) Hc Hn
              (vcount g) b0 d0 0 b Hinv0 Hl0 (Z.le_refl 0) Hb)
    as [d [Hd [Hwh [Hsm [Hre Hlen]]]]].
  exists b, d. split; [exact Hb|]. split; [exact Hd|]. split; [exact Hinv|].
  split; [exact Hwh|]. split; [|split; [exact Hre|exact Hlen]].
  unfold dij_total, bfs_total. rewrite Hsm, Hre. reflexivity.
Qed.

Lemma closeness_loop_lockstep handler g mode cutoff :
  graph_wf g = true -> PrimFloat.ltb cutoff 0 = true -> Z.of_nat (vcount g) < 2 ^ 31 ->
  (forall k, handler k = false) ->
  forall vit i st wst,
    igraph_vit_create g vit = true -> stamps_upto g i (ls_counted st) ->
    ws_res wst = ls_res st -> ws_which wst = ls_counted st ->
    ws_warning_shown wst = ls_warning_shown st -> ws_warnings wst = ls_warnings st ->
    length (ws_dist wst) = vcount g ->
    fst (closeness_loop_weighted g mode (unit_weights g) cutoff vit i wst)
    = fst (closeness_loop handler g mode cutoff vit i st)
    /\ ws_res (snd (closeness_loop_weighted g mode (unit_weights g) cutoff vit i wst))
       = ls_res (snd (closeness_loop handler g mode cutoff vit i st))
    /\ ws_warnings (snd (closeness_loop_weighted g mode (unit_weights g) cutoff vit i wst))
       = ls_warnings (snd (closeness_loop handler g mode cutoff vit i st)).
Proof.
  intros Hwf Hc Hn Hh. induction vit as [|source vit IH];
    intros i st wst Hv Hst Hres Hwh Hshown Hwarn Hdl.
  - simpl. auto.
  - split_vit Hv Hs.
    cbn [closeness_loop closeness_loop_weighted]. rewrite Hh, Hwh.
    destruct (source_lockstep g mode cutoff i source (ls_counted st) (ls_actdist st)
                (ws_dist wst) (ws_mindist wst) Hwf Hc Hn Hs Hst Hdl)
      as [b [d [Hb [Hd [Hinv [Hw' [Ht [Hr Hl]]]]]]]].
    rewrite Hb, Hd.
    rewrite (within_cutoff_none _ _ Hc), (within_cutoff_weighted_none _ _ Hc).
    rewrite Ht, Hr, Hres, Hshown, Hwarn.
    apply IH; auto.
    apply (bfs_inv_stamps_upto g mode i source b Hinv).
Qed.

Lemma igraph_vector_min_unit n : igraph_vector_min (repeat 1%float (S n)) = Some 1%float.
Proof.
  simpl. f_equal. induction n as [|n IH]; simpl; auto.
Qed.

(** The running minimum compares by [<], which is false against a value that
    is not a number: a vector that starts with one has it as its minimum,
    whatever follows, and [minweight <= 0] is then false. *)
Lemma igraph_vector_min_nan_first (r : list float) :
  igraph_vector_min (nan :: r) = Some nan /\ PrimFloat.leb nan 0 = false.
Proof.
  split; [|reflexivity]. simpl. f_equal. induction r as [|y r IH]; simpl; auto.
  assert (H : PrimFloat.ltb y nan = false).
  { rewrite ltb_spec. change (Prim2SF nan) with S754_nan.
    destruct (Prim2SF y); reflexivity. }
  rewrite H. exact IH.
Qed.


(** ** The result vector keeps its size *)

Lemma closeness_loop_res_length handler g mode cutoff vit :
  forall i st,
    length (ls_res (snd (closeness_loop handler g mode cutoff vit i st)))
    = length (ls_res st).
Proof.
  induction vit as [|source vit IH]; intros i st; simpl; auto.
  destruct (handler (ls_polls st)); simpl; auto.
  destruct (bfs_source g mode cutoff i source (ls_counted st) (ls_actdist st)); simpl; auto.
  rewrite IH. simpl. apply vector_set_length.
Qed.

Lemma closeness_loop_weighted_res_length g mode weights cutoff vit :
  forall i st,
    length (ws_res (snd (closeness_loop_weighted g mode weights cutoff vit i st)))
    = length (ws_res st).
Proof.
  induction vit as [|source vit IH]; intros i st; simpl; auto.
  destruct (dij_source g mode weights cutoff i source (ws_which st) (ws_dist st)
              (ws_mindist st)); simpl; auto.
  rewrite IH. simpl. apply vector_set_length.
Qed.

Lemma unnormalize_length normalized n r : length (unnormalize normalized n r) = length r.
Proof. unfold unnormalize. destruct normalized; auto. apply length_map. Qed.

(** ** Calls without a cutoff *)

Lemma beyond_cutoff_none cutoff d : PrimFloat.leb 0 cutoff = false -> beyond_cutoff cutoff d = false.
Proof. intros H. unfold beyond_cutoff. rewrite H. reflexivity. Qed.

Lemma beyond_cutoff_weighted_none cutoff d :
  PrimFloat.leb 0 cutoff = false -> beyond_cutoff_weighted cutoff d = false.
Proof. intros H. unfold beyond_cutoff_weighted. rewrite H. reflexivity. Qed.

Lemma bfs_while_no_cutoff g mode c1 c2 stamp :
  PrimFloat.leb 0 c1 = false -> PrimFloat.leb 0 c2 = false ->
  forall fuel st, bfs_while fuel g mode c1 stamp st = bfs_while fuel g mode c2 stamp st.
Proof.
  intros H1 H2. induction fuel as [|fuel IH]; intros st; simpl; auto.
  destruct (bfs_q st) as [|[act d] q']; auto.
  rewrite !beyond_cutoff_none by auto. apply IH.
Qed.

Lemma dij_while_no_cutoff g mode weights c1 c2 stamp :
  PrimFloat.leb 0 c1 = false -> PrimFloat.leb 0 c2 = false ->
  forall fuel st,
    dij_while fuel g mode weights c1 stamp st = dij_while fuel g mode weights c2 stamp st.
Proof.
  intros H1 H2. induction fuel as [|fuel IH]; intros st; simpl; auto.
  destruct (igraph_2wheap_max (dj_Q st)) as [[minnei top]|]; auto.
  rewrite !beyond_cutoff_weighted_none by auto. apply IH.
Qed.

Lemma within_cutoff_nan cutoff d :
  PrimFloat.leb 0 cutoff = false -> PrimFloat.ltb cutoff 0 = false ->
  within_cutoff cutoff d = false.
Proof. intros H1 H2. unfold within_cutoff. rewrite H1, H2. reflexivity. Qed.

Lemma within_cutoff_weighted_nan cutoff d :
  PrimFloat.leb 0 cutoff = false -> PrimFloat.ltb cutoff 0 = false ->
  within_cutoff_weighted cutoff d = false.
Proof. intros H1 H2. unfold within_cutoff_weighted. rewrite H1, H2. reflexivity. Qed.

(** Two runs of the outer loop whose cutoffs are both not [>= 0] differ in
    nothing but the warnings. *)
Lemma closeness_loop_no_cutoff handler g mode c1 c2 :
  PrimFloat.leb 0 c1 = false -> PrimFloat.leb 0 c2 = false ->
  forall vit i st1 st2,
    ls_res st1 = ls_res st2 -> ls_counted st1 = ls_counted st2 ->
    ls_actdist st1 = ls_actdist st2 -> ls_polls st1 = ls_polls st2 ->
    let r1 := closeness_loop handler g mode c1 vit i st1 in
    let r2 := closeness_loop handler g mode c2 vit i st2 in
    fst r1 = fst r2 /\ ls_res (snd r1) = ls_res (snd r2)
    /\ ls_polls (snd r1) = ls_polls (snd r2)
    /\ (PrimFloat.ltb c1 0 = PrimFloat.ltb c2 0 ->
        ls_warning_shown st1 = ls_warning_shown st2 -> ls_warnings st1 = ls_warnings st2 ->
        ls_warnings (snd r1) = ls_warnings (snd r2))
    /\ (PrimFloat.ltb c1 0 = false -> ls_warnings (snd r1) = ls_warnings st1).
Proof.
  intros H1 H2. induction vit as [|source vit IH]; intros i st1 st2 Hr Hc Ha Hp; simpl.
  - auto.
  - rewrite Hp, Hr. destruct (handler (ls_polls st2)); simpl.
    + auto.
    + unfold bfs_source. rewrite (bfs_while_no_cutoff g mode c1 c2 _ H1 H2), Hc, Ha.
      match goal with |- context [bfs_while ?f ?g ?m ?c ?s ?st] =>
        destruct (bfs_while f g m c s st) as [b|] end; simpl.
      * match goal with |- context [closeness_loop _ _ _ c1 vit (S i) ?s1] =>
          match goal with |- context [closeness_loop _ _ _ c2 vit (S i) ?s2] =>
            specialize (IH (S i) s1 s2) end end.
        simpl in IH.
        destruct (IH eq_refl eq_refl eq_refl eq_refl) as [I1 [I2 [I3 [I4 I5]]]].
        split; [exact I1|]. split; [exact I2|]. split; [exact I3|]. split.
        -- intros Hlt Hs Hw. apply I4; auto.
           ++ unfold within_cutoff. rewrite H1, H2, Hlt, Hs. reflexivity.
           ++ unfold within_cutoff. rewrite H1, H2, Hlt, Hs, Hw. reflexivity.
        -- intros Hlt. rewrite (I5 Hlt). rewrite within_cutoff_nan by auto. reflexivity.
      * auto.
Qed.

Lemma closeness_loop_weighted_no_cutoff g mode weights c1 c2 :
  PrimFloat.leb 0 c1 = false -> PrimFloat.leb 0 c2 = false ->
  forall vit i st1 st2,
    ws_res st1 = ws_res st2 -> ws_which st1 = ws_which st2 ->
    ws_dist st1 = ws_dist st2 -> ws_mindist st1 = ws_mindist st2 ->
    let r1 := closeness_loop_weighted g mode weights c1 vit i st1 in
    let r2 := closeness_loop_weighted g mode weights c2 vit i st2 in
    fst r1 = fst r2 /\ ws_res (snd r1) = ws_res (snd r2)
    /\ (PrimFloat.ltb c1 0 = PrimFloat.ltb c2 0 ->
        ws_warning_shown st1 = ws_warning_shown st2 -> ws_warnings st1 = ws_warnings st2 ->
        ws_warnings (snd r1) = ws_warnings (snd r2))
    /\ (PrimFloat.ltb c1 0 = false -> ws_warnings (snd r1) = ws_warnings st1).
Proof.
  intros H1 H2. induction vit as [|source vit IH]; intros i st1 st2 Hr Hc Hd Ha; simpl.
  - auto.
  - unfold dij_source.
    rewrite (dij_while_no_cutoff g mode weights c1 c2 _ H1 H2), Hc, Hd, Ha, Hr.
    match goal with |- context [dij_while ?f ?g ?m ?w ?c ?s ?st] =>
      destruct (dij_while f g m w c s st) as [d|] end; simpl.
    + match goal with |- context [closeness_loop_weighted _ _ _ c1 vit (S i) ?s1] =>
        match goal with |- context [closeness_loop_weighted _ _ _ c2 vit (S i) ?s2] =>
          specialize (IH (S i) s1 s2) end end.
      simpl in IH.
      destruct (IH eq_refl eq_refl eq_refl eq_refl) as [I1 [I2 [I4 I5]]].
      split; [exact I1|]. split; [exact I2|]. split.
      * intros Hlt Hs Hw. apply I4; auto.
        -- unfold within_cutoff_weighted. rewrite H1, H2, Hlt, Hs. reflexivity.
        -- unfold within_cutoff_weighted. rewrite H1, H2, Hlt, Hs, Hw. reflexivity.
      * intros Hlt. rewrite (I5 Hlt). rewrite within_cutoff_weighted_nan by auto. reflexivity.
    + auto.
Qed.

(** ** The shape of the warnings and of the error returns *)

Lemma closeness_loop_warnings_are handler g mode cutoff pre vit :
  forall i st,
    warnings_are pre (ls_warning_shown st) (ls_warnings st) ->
    let st' := snd (closeness_loop handler g mode cutoff vit i st) in
    warnings_are pre (ls_warning_shown st') (ls_warnings st').
Proof.
  induction vit as [|source vit IH]; intros i st H; simpl; auto.
  destruct (handler (ls_polls st)); simpl; auto.
  destruct (bfs_source g mode cutoff i source (ls_counted st) (ls_actdist st)); simpl; auto.
  apply IH; simpl. unfold warnings_are in *.
  destruct (ls_warning_shown st); simpl.
  - rewrite andb_false_r. exact H.
  - rewrite andb_true_r.
    destruct (within_cutoff cutoff (bfs_actdist b) && (bfs_reached b <? igraph_vcount g));
      simpl; rewrite H; rewrite ?app_nil_r; reflexivity.
Qed.

Lemma closeness_loop_weighted_warnings_are g mode weights cutoff pre vit :
  forall i st,
    warnings_are pre (ws_warning_shown st) (ws_warnings st) ->
    let st' := snd (closeness_loop_weighted g mode weights cutoff vit i st) in
    warnings_are pre (ws_warning_shown st') (ws_warnings st').
Proof.
  induction vit as [|source vit IH]; intros i st H; simpl; auto.
  destruct (dij_source g mode weights cutoff i source (ws_which st) (ws_dist st)
              (ws_mindist st)); simpl; auto.
  apply IH; simpl. unfold warnings_are in *.
  destruct (ws_warning_shown st); simpl.
  - rewrite andb_false_r. exact H.
  - rewrite andb_true_r.
    destruct (within_cutoff_weighted cutoff (dj_mindist d)
              && (dj_reached d <? igraph_vcount g));
      simpl; rewrite H; rewrite ?app_nil_r; reflexivity.
Qed.

Lemma closeness_loop_ret handler g mode cutoff vit :
  forall i st,
    let t := fst (closeness_loop handler g mode cutoff vit i st) in
    t = Returns IGRAPH_SUCCESS \/ t = FuelExhausted
    \/ (t = Returns IGRAPH_INTERRUPTED /\ exists k, handler k = true).
Proof.
  induction vit as [|source vit IH]; intros i st; simpl; auto.
  destruct (handler (ls_polls st)) eqn:Hh; simpl.
  - right. right. split; auto. eauto.
  - destruct (bfs_source g mode cutoff i source (ls_counted st) (ls_actdist st)); simpl; auto.
Qed.

(** ** Sources do not influence each other *)

Lemma nth_vector_set {A : Type} (v : list A) k j x d :
  nth j (vector_set v k x) d
  = if Nat.eqb j k && Nat.ltb k (length v) then x else nth j v d.
Proof.
  revert k j; induction v as [|y r IH]; intros k j.
  - simpl. rewrite andb_false_r. destruct j; reflexivity.
  - destruct k as [|k], j as [|j]; simpl; auto.
Qed.

Lemma bfs_neighbors_alike s1 s2 d neis :
  forall b1 b2,
    bfs_alike s1 s2 b1 b2 -> bfs_actdist b1 = bfs_actdist b2 ->
    bfs_alike s1 s2 (bfs_neighbors s1 d neis b1) (bfs_neighbors s2 d neis b2)
    /\ bfs_actdist (bfs_neighbors s1 d neis b1) = bfs_actdist (bfs_neighbors s2 d neis b2).
Proof.
  induction neis as [|u neis IH]; intros b1 b2 H Ha; simpl; auto.
  destruct H as [Hq Hr Hs _ Hl Hc].
  rewrite (Hc u). destruct (nth u (bfs_counted b2) 0 =? s2) eqn:Hu.
  - apply IH; auto. constructor; auto.
  - apply IH; simpl; auto. constructor; simpl; auto.
    + rewrite Hq; reflexivity.
    + rewrite Hr; reflexivity.
    + rewrite !vector_set_length; auto.
    + intros v. rewrite !nth_vector_set, Hl.
      destruct (Nat.eqb v u && Nat.ltb u (length (bfs_counted b2))); auto.
      rewrite !Z.eqb_refl. reflexivity.
Qed.

Lemma bfs_while_alike g mode cutoff s1 s2 :
  forall fuel b1 b2,
    bfs_alike s1 s2 b1 b2 ->
    match bfs_while fuel g mode cutoff s1 b1, bfs_while fuel g mode cutoff s2 b2 with
    | Some b1', Some b2' =>
        bfs_reached b1' = bfs_reached b2' /\ bfs_sum b1' = bfs_sum b2'
        /\ bfs_actdist b1' = bfs_actdist b2'
        /\ length (bfs_counted b1') = length (bfs_counted b2')
        /\ forall v, (nth v (bfs_counted b1') 0 =? s1) = (nth v (bfs_counted b2') 0 =? s2)
    | None, None => True
    | _, _ => False
    end.
Proof.
  induction fuel as [|fuel IH]; intros b1 b2 H.
  - destruct H as [Hq Hr Hs Ha Hl Hc]. simpl. rewrite <- Hq.
    destruct (bfs_q b1) as [|[act d] q']; auto.
    destruct Ha as [Ha|Ha]; [|congruence]. auto.
  - pose proof H as [Hq Hr Hs Ha Hl Hc]. simpl. rewrite <- Hq.
    destruct (bfs_q b1) as [|[act d] q'] eqn:Hq1.
    + destruct Ha as [Ha|Ha]; [|congruence]. auto.
    + rewrite <- Hr, <- Hs.
      set (n1 := {| bfs_q := q'; bfs_counted := bfs_counted b1;
                    bfs_reached := bfs_reached b1;
                    bfs_sum := PrimFloat.add (bfs_sum b1) (real_of_long d);
                    bfs_actdist := d |}).
      set (n2 := {| bfs_q := q'; bfs_counted := bfs_counted b2;
                    bfs_reached := bfs_reached b1;
                    bfs_sum := PrimFloat.add (bfs_sum b1) (real_of_long d);
                    bfs_actdist := d |}).
      assert (Hn : bfs_alike s1 s2 n1 n2) by (constructor; simpl; auto).
      destruct (beyond_cutoff cutoff d).
      * apply IH; auto.
      * apply IH. apply bfs_neighbors_alike; auto.
Qed.

Lemma stale_stamps g i counted v :
  stamps_upto g i counted -> (nth v counted 0 =? Z.of_nat i + 1) = false.
Proof.
  intros [Hlen Hup]. apply Z.eqb_neq. intros Hv.
  destruct (Nat.lt_ge_cases v (length counted)) as [Hlt|Hge].
  - rewrite Forall_forall in Hup. specialize (Hup _ (nth_In counted 0 Hlt)). lia.
  - rewrite nth_overflow in Hv by exact Hge. lia.
Qed.

(** The traversal of a source in iteration [i], on the stamp vector the
    earlier iterations left, ends like the traversal of a call for that
    source alone. *)
Lemma bfs_source_alike g mode cutoff i source counted actdist :
  stamps_upto g i counted ->
  match bfs_source g mode cutoff i source counted actdist,
        bfs_source g mode cutoff O source (repeat 0 (vcount g)) 0 with
  | Some b1, Some b2 =>
      bfs_reached b1 = bfs_reached b2 /\ bfs_sum b1 = bfs_sum b2
      /\ bfs_actdist b1 = bfs_actdist b2
  | None, None => True
  | _, _ => False
  end.
Proof.
  intros Hst. unfold bfs_source.
  match goal with |- match bfs_while _ _ _ _ ?s1 ?b1 with _ => _ end =>
    match goal with |- context [bfs_while _ _ _ _ (Z.of_nat O + 1) ?b2] =>
      pose proof (bfs_while_alike g mode cutoff s1 (Z.of_nat O + 1) (vcount g) b1 b2) as H
    end end.
  match type of H with ?P -> _ => assert (Ha : P) end.
  { constructor; simpl; auto.
    - right; discriminate.
    - rewrite !vector_set_length, repeat_length. apply Hst.
    - intros v. rewrite !nth_vector_set, repeat_length. destruct Hst as [Hlen Hup].
      rewrite Hlen.
      destruct (Nat.eqb v source && Nat.ltb source (vcount g)).
      + rewrite !Z.eqb_refl. reflexivity.
      + rewrite (stale_stamps g i counted v (conj Hlen Hup)).
        pose proof (stale_stamps g O (repeat 0 (vcount g)) v (stamps_upto_init g)) as Hx.
        simpl in Hx. rewrite Hx. reflexivity. }
  specialize (H Ha).
  destruct (bfs_while (vcount g) g mode cutoff (Z.of_nat i + 1) _) as [b1|];
    destruct (bfs_while (vcount g) g mode cutoff (Z.of_nat O + 1) _) as [b2|]; auto.
  destruct H as [H1 [H2 [H3 _]]]. auto.
Qed.

Lemma vector_set_next (pre : list float) (x : float) m :
  vector_set (pre ++ repeat 0%float (S m)) (length pre) x = (pre ++ [x]) ++ repeat 0%float m.
Proof. simpl. rewrite vector_set_middle, <- app_assoc. reflexivity. Qed.

Lemma closeness_loop_scores handler g mode cutoff :
  graph_wf g = true -> (forall k, handler k = false) ->
  forall vit i st pre,
    igraph_vit_create g vit = true -> stamps_upto g i (ls_counted st) ->
    length pre = i -> ls_res st = pre ++ repeat 0%float (length vit) ->
    ls_res (snd (closeness_loop handler g mode cutoff vit i st))
    = pre ++ map (single_score g mode cutoff) vit.
Proof.
  intros Hwf Hh. induction vit as [|source vit IH]; intros i st pre Hv Hst Hi Hres; simpl.
  - rewrite Hres. reflexivity.
  - split_vit Hv Hs. rewrite Hh.
    pose proof (bfs_source_alike g mode cutoff i source (ls_counted st) (ls_actdist st) Hst)
      as Hal.
    destruct (bfs_source_total g mode cutoff i source (ls_counted st) (ls_actdist st)
                Hwf Hs Hst) as [b [Hb [Hinv _]]].
    rewrite Hb in *.
    rewrite (IH (S i) _ (pre ++ [closeness_score (igraph_vcount g) (bfs_total g b)])); auto.
    + rewrite <- app_assoc. simpl. unfold single_score.
      destruct (bfs_source g mode cutoff 0 source (repeat 0 (vcount g)) 0) as [b2|];
        [|contradiction].
      destruct Hal as [H1 [H2 _]]. unfold bfs_total. rewrite H1, H2. reflexivity.
    + simpl. eapply bfs_inv_stamps_upto; eauto.
    + rewrite length_app. simpl. lia.
    + cbn [ls_res]. rewrite Hres, <- Hi. apply vector_set_next.
Qed.

Lemma dij_relax_alike g weights s1 s2 minnei mindist neis :
  forall d1 d2,
    dij_alike s1 s2 d1 d2 -> dj_mindist d1 = dj_mindist d2 ->
    dij_alike s1 s2 (dij_relax g weights s1 minnei mindist neis d1)
                    (dij_relax g weights s2 minnei mindist neis d2)
    /\ dj_mindist (dij_relax g weights s1 minnei mindist neis d1)
       = dj_mindist (dij_relax g weights s2 minnei mindist neis d2).
Proof.
  induction neis as [|e neis IH]; intros d1 d2 H Hm; simpl; auto.
  destruct H as [HQ Hr Hs _ Hl Hdl Hw Hd].
  set (to := IGRAPH_OTHER g e minnei).
  rewrite (Hw to). destruct (nth to (dj_which d2) 0 =? s2) eqn:Hto; simpl.
  - apply Z.eqb_eq in Hto. rewrite (Hd to Hto).
    match goal with |- context [if ?c then _ else _] => destruct c end.
    + apply IH; simpl; auto. constructor; simpl; auto.
      * rewrite HQ; reflexivity.
      * rewrite !vector_set_length; auto.
      * intros v Hv. rewrite !nth_vector_set, Hdl.
        destruct (Nat.eqb v to && Nat.ltb to (length (dj_dist d2))); auto.
    + apply IH; auto. constructor; auto.
  - apply IH; simpl; auto. constructor; simpl; auto.
    + rewrite HQ; reflexivity.
    + rewrite !vector_set_length; auto.
    + rewrite !vector_set_length; auto.
    + intros v. rewrite !nth_vector_set, Hl.
      destruct (Nat.eqb v to && Nat.ltb to (length (dj_which d2))); auto.
      rewrite !Z.eqb_refl. reflexivity.
    + intros v. rewrite !nth_vector_set, Hdl. intros Hv.
      destruct (Nat.eqb v to) eqn:Hvt; simpl in *.
      * apply Nat.eqb_eq in Hvt.
        destruct (Nat.ltb_spec to (length (dj_dist d2))); auto.
        rewrite !nth_overflow; auto; lia.
      * apply Hd; auto.
Qed.

Lemma dij_while_alike g mode weights cutoff s1 s2 :
  forall fuel d1 d2,
    dij_alike s1 s2 d1 d2 ->
    match dij_while fuel g mode weights cutoff s1 d1,
          dij_while fuel g mode weights cutoff s2 d2 with
    | Some d1', Some d2' =>
        dj_reached d1' = dj_reached d2' /\ dj_sum d1' = dj_sum d2'
        /\ dj_mindist d1' = dj_mindist d2'
    | None, None => True
    | _, _ => False
    end.
Proof.
  induction fuel as [|fuel IH]; intros d1 d2 H.
  - destruct H as [HQ Hr Hs Hm Hl Hdl Hw Hd]. simpl. rewrite <- HQ.
    destruct (igraph_2wheap_max (dj_Q d1)) as [[minnei top]|] eqn:Hmax; auto.
    apply igraph_2wheap_max_None in Hmax.
    destruct Hm as [Hm|Hm]; [|congruence]. auto.
  - pose proof H as [HQ Hr Hs Hm Hl Hdl Hw Hd]. simpl. rewrite <- HQ.
    destruct (igraph_2wheap_max (dj_Q d1)) as [[minnei top]|] eqn:Hmax.
    + rewrite <- Hr, <- Hs.
      set (n1 := {| dj_Q := igraph_2wheap_remove (dj_Q d1) minnei;
                    dj_which := dj_which d1; dj_dist := dj_dist d1;
                    dj_reached := dj_reached d1 + 1;
                    dj_sum := PrimFloat.add (dj_sum d1)
                                (PrimFloat.sub (PrimFloat.opp top) 1);
                    dj_mindist := PrimFloat.opp top |}).
      set (n2 := {| dj_Q := igraph_2wheap_remove (dj_Q d1) minnei;
                    dj_which := dj_which d2; dj_dist := dj_dist d2;
                    dj_reached := dj_reached d1 + 1;
                    dj_sum := PrimFloat.add (dj_sum d1)
                                (PrimFloat.sub (PrimFloat.opp top) 1);
                    dj_mindist := PrimFloat.opp top |}).
      assert (Hn : dij_alike s1 s2 n1 n2) by (constructor; simpl; auto).
      destruct (beyond_cutoff_weighted cutoff (PrimFloat.opp top)).
      * apply IH; auto.
      * apply IH. apply dij_relax_alike; auto.
    + apply igraph_2wheap_max_None in Hmax.
      destruct Hm as [Hm|Hm]; [|congruence]. auto.
Qed.

Lemma dij_source_alike g mode weights cutoff i source which dist mindist :
  stamps_upto g i which -> length dist = vcount g ->
  match dij_source g mode weights cutoff i source which dist mindist,
        dij_source g mode weights cutoff O source (repeat 0 (vcount g))
          (repeat 0%float (vcount g)) 0%float with
  | Some d1, Some d2 =>
      dj_reached d1 = dj_reached d2 /\ dj_sum d1 = dj_sum d2
      /\ dj_mindist d1 = dj_mindist d2
  | None, None => True
  | _, _ => False
  end.
Proof.
  intros Hst Hdl. unfold dij_source.
  apply dij_while_alike. constructor; simpl; auto.
  - right; discriminate.
  - rewrite !vector_set_length, repeat_length. apply Hst.
  - rewrite !vector_set_length, repeat_length. exact Hdl.
  - intros v. rewrite !nth_vector_set, repeat_length. destruct Hst as [Hlen Hup].
    rewrite Hlen.
    destruct (Nat.eqb v source && Nat.ltb source (vcount g)).
    + rewrite !Z.eqb_refl. reflexivity.
    + rewrite (stale_stamps g i which v (conj Hlen Hup)).
      pose proof (stale_stamps g O (repeat 0 (vcount g)) v (stamps_upto_init g)) as Hx.
      simpl in Hx. rewrite Hx. reflexivity.
  - intros v. rewrite !nth_vector_set, !repeat_length, Hdl.
    destruct (Nat.eqb v source && Nat.ltb source (vcount g)); auto.
    intros Hv.
    pose proof (stale_stamps g O (repeat 0 (vcount g)) v (stamps_upto_init g)) as Hx.
    simpl in Hx. rewrite Hv in Hx. discriminate.
Qed.

Lemma dij_relax_dist_length g weights stamp minnei mindist neis :
  forall st, length (dj_dist (dij_relax g weights stamp minnei mindist neis st))
             = length (dj_dist st).
Proof.
  induction neis as [|e neis IH]; intros st; simpl; auto.
  destruct (negb _); [rewrite IH; simpl; apply vector_set_length|].
  destruct (_ <? 0); [rewrite IH; simpl; apply vector_set_length|apply IH].
Qed.

Lemma dij_while_dist_length g mode weights cutoff stamp :
  forall fuel st st',
    dij_while fuel g mode weights cutoff stamp st = Some st' ->
    length (dj_dist st') = length (dj_dist st).
Proof.
  induction fuel as [|fuel IH]; intros st st'; simpl.
  - destruct (igraph_2wheap_max (dj_Q st)) as [[minnei top]|]; [discriminate|].
    intros H; inversion H; auto.
  - destruct (igraph_2wheap_max (dj_Q st)) as [[minnei top]|].
    + destruct (beyond_cutoff_weighted cutoff (PrimFloat.opp top)); intros H;
        apply IH in H; rewrite H; [reflexivity|].
      rewrite dij_relax_dist_length. reflexivity.
    + intros H; inversion H; auto.
Qed.

Lemma closeness_loop_weighted_scores g mode weights cutoff :
  graph_wf g = true ->
  forall vit i st pre,
    igraph_vit_create g vit = true -> stamps_upto g i (ws_which st) ->
    length (ws_dist st) = vcount g ->
    length pre = i -> ws_res st = pre ++ repeat 0%float (length vit) ->
    ws_res (snd (closeness_loop_weighted g mode weights cutoff vit i st))
    = pre ++ map (single_score_weighted g mode weights cutoff) vit.
Proof.
  intros Hwf. induction vit as [|source vit IH]; intros i st pre Hv Hst Hdl Hi Hres; simpl.
  - rewrite Hres. reflexivity.
  - split_vit Hv Hs.
    pose proof (dij_source_alike g mode weights cutoff i source (ws_which st) (ws_dist st)
                  (ws_mindist st) Hst Hdl) as Hal.
    destruct (dij_source_total g mode weights cutoff i source (ws_which st) (ws_dist st)
                (ws_mindist st) Hwf Hs Hst) as [d [Hd [Hinv _]]].
    rewrite Hd in *.
    rewrite (IH (S i) _ (pre ++ [closeness_score (igraph_vcount g) (dij_total g d)])); auto.
    + rewrite <- app_assoc. simpl. unfold single_score_weighted.
      destruct (dij_source g mode weights cutoff 0 source (repeat 0 (vcount g))
                  (repeat 0%float (vcount g)) 0%float) as [d2|]; [|contradiction].
      destruct Hal as [H1 [H2 _]]. unfold dij_total. rewrite H1, H2. reflexivity.
    + simpl. eapply dij_inv_stamps_upto; eauto.
    + simpl. unfold dij_source in Hd. apply dij_while_dist_length in Hd.
      rewrite Hd. simpl. rewrite vector_set_length. exact Hdl.
    + rewrite length_app. simpl. lia.
    + cbn [ws_res]. rewrite Hres, <- Hi. apply vector_set_next.
Qed.

Lemma unnormalize_flat_map {A : Type} normalized n (f : A -> float) l :
  unnormalize normalized n (map f l) = flat_map (fun v => unnormalize normalized n [f v]) l.
Proof.
  unfold unnormalize. destruct normalized.
  - induction l as [|x r IH]; simpl; [reflexivity|]. now f_equal.
  - induction l as [|x r IH]; simpl; [reflexivity|]. now f_equal.
Qed.

Lemma flat_map_ext_In {A B : Type} (f h : A -> list B) l :
  (forall x, In x l -> f x = h x) -> flat_map f l = flat_map h l.
Proof.
  induction l as [|x r IH]; intros H; simpl; auto.
  rewrite (H x (or_introl eq_refl)), IH; auto. intros y Hy. apply H. right; auto.
Qed.

(** ** The order of doubles *)

Lemma SFltb_trans a b c : SFltb a b = true -> SFltb b c = true -> SFltb a c = true.
Proof.
  unfold SFltb, SFcompare.
  destruct a as [sa|sa| |sa ma ea], b as [sb|sb| |sb mb eb], c as [sc|sc| |sc mc ec];
    try destruct sa; try destruct sb; try destruct sc; simpl; try congruence.
  - (* negative finite *)
    change (PosDef.Pos.compare_cont Eq) with Pos.compare.
    destruct (Z.compare_spec ea eb), (Z.compare_spec eb ec), (Z.compare_spec ea ec);
      try lia; simpl; try congruence; subst.
    destruct (Pos.compare_spec ma mb), (Pos.compare_spec mb mc), (Pos.compare_spec ma mc);
      simpl; try congruence; try lia.
  - change (PosDef.Pos.compare_cont Eq) with Pos.compare.
    destruct (Z.compare_spec ea eb), (Z.compare_spec eb ec), (Z.compare_spec ea ec);
      try lia; simpl; try congruence; subst.
    destruct (Pos.compare_spec ma mb), (Pos.compare_spec mb mc), (Pos.compare_spec ma mc);
      simpl; try congruence; try lia.
Qed.

Lemma float_ltb_int_mono c j d :
  PrimFloat.ltb c (real_of_long j) = true -> 0 <= j <= d -> d < 2 ^ 53 ->
  PrimFloat.ltb c (real_of_long d) = true.
Proof.
  intros H Hj Hd. destruct (Z.eq_dec j d) as [->|Hne]; auto.
  rewrite ltb_spec in *. apply SFltb_trans with (b := Prim2SF (real_of_long j)); auto.
  rewrite <- ltb_spec, real_of_long_ltb by lia. apply Z.ltb_lt. lia.
Qed.

Lemma beyond_cutoff_mono cutoff j d :
  beyond_cutoff cutoff j = true -> 0 <= j <= d -> d < 2 ^ 53 ->
  beyond_cutoff cutoff d = true.
Proof.
  unfold beyond_cutoff. intros H Hj Hd. apply andb_true_iff in H. destruct H as [H1 H2].
  rewrite H1. simpl. eapply float_ltb_int_mono; eauto.
Qed.

Lemma beyond_cutoff_below cutoff j d :
  beyond_cutoff cutoff d = false -> 0 <= j <= d -> d < 2 ^ 53 ->
  beyond_cutoff cutoff j = false.
Proof.
  intros H Hj Hd. destruct (beyond_cutoff cutoff j) eqn:Hb; auto.
  rewrite (beyond_cutoff_mono cutoff j d Hb Hj Hd) in H. discriminate.
Qed.

Lemma real_of_long_0 : real_of_long 0 = 0%float.
Proof. reflexivity. Qed.

Lemma beyond_cutoff_int c d :
  0 <= c < 2 ^ 53 -> 0 <= d < 2 ^ 53 -> beyond_cutoff (real_of_long c) d = (c <? d).
Proof.
  intros Hc Hd. unfold beyond_cutoff. rewrite <- real_of_long_0.
  rewrite real_of_long_leb, real_of_long_ltb by lia.
  destruct (Z.leb_spec 0 c); [reflexivity|lia].
Qed.

(** ** Lists of (vertex, distance) pairs *)

Lemma distance_sum_app l1 l2 : distance_sum (l1 ++ l2) = distance_sum l1 + distance_sum l2.
Proof.
  unfold distance_sum. induction l1 as [|x r IH]; simpl; auto. rewrite IH. lia.
Qed.

Lemma distance_sum_bound (l : list (nat * Z)) M :
  0 <= M -> (forall v d, In (v, d) l -> 0 <= d <= M) ->
  0 <= distance_sum l <= Z.of_nat (length l) * M.
Proof.
  intros HM. unfold distance_sum. induction l as [|[v d] r IH]; intros H.
  - simpl. lia.
  - assert (0 <= d <= M) by (apply (H v); left; auto).
    assert (0 <= fold_right Z.add 0 (map snd r) <= Z.of_nat (length r) * M)
      by (apply IH; intros; eapply H; right; eauto).
    cbn [length map fold_right snd]. rewrite Nat2Z.inj_succ. nia.
Qed.

Lemma nodup_fst_unique (l : list (nat * Z)) v a b :
  NoDup (map fst l) -> In (v, a) l -> In (v, b) l -> a = b.
Proof.
  induction l as [|[u c] r IH]; simpl; intros Hn Ha Hb; [contradiction|].
  inversion Hn as [|? ? Hnot Hr]; subst.
  destruct Ha as [Ha|Ha], Hb as [Hb|Hb].
  - congruence.
  - inversion Ha; subst. elim Hnot. apply in_map_iff. exists (v, b). auto.
  - inversion Hb; subst. elim Hnot. apply in_map_iff. exists (v, a). auto.
  - auto.
Qed.

Lemma in_fst_exists (l : list (nat * Z)) v : In v (map fst l) -> exists d, In (v, d) l.
Proof.
  intros H. apply in_map_iff in H. destruct H as [[u d] [Hu Hin]]. simpl in Hu. subst.
  eauto.
Qed.

Lemma walk_nonneg g mode s v k : walk g mode s v k -> 0 <= k.
Proof. induction 1; lia. Qed.

Lemma walk_reachable g mode s v k : walk g mode s v k -> reachable g mode s v.
Proof. induction 1; [constructor|econstructor; eauto]. Qed.

Lemma reachable_walk g mode s v : reachable g mode s v -> exists k, walk g mode s v k.
Proof.
  induction 1 as [|u v Hu [k IH] Hv]; [exists 0; constructor|].
  exists (k + 1). econstructor; eauto.
Qed.

(** ** The trace of a breadth-first traversal *)

Lemma trace_reached_le g mode cutoff stamp source seen st :
  trace_inv g mode cutoff stamp source seen st -> bfs_reached st <= Z.of_nat (vcount g).
Proof.
  intros H. destruct (ti_inv _ _ _ _ _ _ _ H) as [Hlen _ _ Hre _ _ _].
  pose proof (count_stamp_le_length stamp (bfs_counted st)). lia.
Qed.

Lemma bfs_neighbors_trace g mode cutoff stamp source u D seen :
  graph_wf g = true -> stamp <> 0 -> In (u, D) seen -> beyond_cutoff cutoff D = false ->
  forall neis st,
    (forall w, In w neis -> In w (igraph_neighbors g mode u)) ->
    trace_inv g mode cutoff stamp source seen st ->
    level D seen (bfs_q st) ->
    let st' := bfs_neighbors stamp D neis st in
    trace_inv g mode cutoff stamp source seen st' /\ level D seen (bfs_q st')
    /\ (forall x, In x (seen ++ bfs_q st) -> In x (seen ++ bfs_q st'))
    /\ (forall w, In w neis -> exists dw, In (w, dw) (seen ++ bfs_q st') /\ dw <= D + 1).
Proof.
  intros Hwf Hs Hu Hcut. induction neis as [|w neis IH]; intros st Hsub Ht Hlv; simpl.
  - split; [exact Ht|]. split; [exact Hlv|]. split; [auto|]. intros w [].
  - assert (Hw : In w (igraph_neighbors g mode u)) by (apply Hsub; left; auto).
    assert (Hsub' : forall x, In x neis -> In x (igraph_neighbors g mode u))
      by (intros x Hx; apply Hsub; right; auto).
    destruct (Z.eqb_spec (nth w (bfs_counted st) 0) stamp) as [Heq|Hne].
    + (* already counted *)
      destruct (IH st Hsub' Ht Hlv) as [I1 [I2 [I3 I4]]].
      split; [exact I1|]. split; [exact I2|]. split; [exact I3|].
      intros x [<-|Hx]; [|apply I4; auto].
      apply (ti_stamped _ _ _ _ _ _ _ Ht) in Heq. apply in_fst_exists in Heq.
      destruct Heq as [dw Hdw]. exists dw. split; [apply I3; exact Hdw|].
      apply (proj2 Hlv (w, dw)). exact Hdw.
    + (* first visit *)
      pose proof (igraph_neighbors_range g mode u w Hwf Hw) as Hwr.
      pose proof Ht as [Hinv Hst Hnd Hwk Hsrc Hre Hsum Hbd Hso].
      destruct (Hwk u D (in_or_app _ _ _ (or_introl Hu))) as [HwalkU _].
      destruct (Hbd u D Hu) as [HD0 HDr].
      assert (Hlen : length (bfs_counted st) = vcount g) by (apply Hinv).
      set (st2 := {| bfs_q := bfs_q st ++ [(w, D + 1)];
                     bfs_counted := vector_set (bfs_counted st) w stamp;
                     bfs_reached := bfs_reached st + 1;
                     bfs_sum := bfs_sum st;
                     bfs_actdist := bfs_actdist st |}).
      assert (Hnotin : ~ In w (map fst (seen ++ bfs_q st))).
      { intros Hin. apply Hst in Hin. contradiction. }
      assert (Ht2 : trace_inv g mode cutoff stamp source seen st2).
      { constructor; unfold st2; cbn [bfs_q bfs_counted bfs_reached bfs_sum bfs_actdist].
        - destruct (bfs_neighbors_inv g mode stamp source u D Hwf Hs
                      (walk_reachable _ _ _ _ _ HwalkU) HD0 [w] st) as [Hi _]; auto.
          { intros x [->|[]]; auto. }
          simpl in Hi. destruct (Z.eqb_spec (nth w (bfs_counted st) 0) stamp); [contradiction|].
          exact Hi.
        - intros v. rewrite nth_vector_set, app_assoc, map_app, in_app_iff. simpl.
          destruct (Nat.eqb_spec v w) as [->|Hvw]; simpl.
          + destruct (Nat.ltb_spec w (length (bfs_counted st))); [|lia].
            split; auto.
          + rewrite Hst. split; [auto|]. intros [H|[H|[]]]; [auto|congruence].
        - rewrite app_assoc, map_app. simpl. apply NoDup_app.
          + exact Hnd.
          + constructor; [intros []|constructor].
          + intros x Hx [<-|[]]. contradiction.
        - intros v d Hin. rewrite app_assoc in Hin. apply in_app_or in Hin.
          destruct Hin as [Hin|[Hin|[]]]; [apply Hwk; exact Hin|].
          inversion Hin; subst. split; [econstructor; eauto|].
          right. replace (D + 1 - 1) with D by lia. exact Hcut.
        - rewrite app_assoc. apply in_or_app. left. exact Hsrc.
        - rewrite app_assoc, length_app. simpl. rewrite Hre. lia.
        - exact Hsum.
        - intros v d Hin. specialize (Hbd v d Hin). lia.
        - apply queue_sorted_app; auto. intros x Hx. apply (proj1 Hlv x Hx). }
      assert (Hlv2 : level D seen (bfs_q st2)).
      { unfold st2; simpl. destruct Hlv as [L1 L2]. split.
        - intros y Hy. apply in_app_or in Hy. destruct Hy as [Hy|[<-|[]]]; auto.
          simpl. lia.
        - intros x Hx. rewrite app_assoc in Hx. apply in_app_or in Hx.
          destruct Hx as [Hx|[<-|[]]]; auto. simpl. lia. }
      destruct (IH st2 Hsub' Ht2 Hlv2) as [I1 [I2 [I3 I4]]].
      assert (Hkeep : forall x, In x (seen ++ bfs_q st) -> In x (seen ++ bfs_q st2)).
      { intros x Hx. unfold st2; simpl. rewrite app_assoc. apply in_or_app. auto. }
      split; [exact I1|]. split; [exact I2|]. split; [auto|].
      intros x [<-|Hx]; [|apply I4; auto].
      exists (D + 1). split; [|lia]. apply I3. unfold st2; simpl.
      rewrite app_assoc. apply in_or_app. right. left. reflexivity.
Qed.

Lemma bfs_pop_trace g mode cutoff stamp source done u D q' c r sm ad :
  stamp <> 0 ->
  trace_inv g mode cutoff stamp source done
    {| bfs_q := (u, D) :: q'; bfs_counted := c; bfs_reached := r;
       bfs_sum := sm; bfs_actdist := ad |} ->
  trace_inv g mode cutoff stamp source (done ++ [(u, D)])
    {| bfs_q := q'; bfs_counted := c; bfs_reached := r;
       bfs_sum := PrimFloat.add sm (real_of_long D); bfs_actdist := D |}.
Proof.
  intros Hs Ht. pose proof (trace_reached_le _ _ _ _ _ _ _ Ht) as Hrn.
  destruct Ht as [Hinv Hst Hnd Hwk Hsrc Hre Hsum Hbd Hso]. simpl in *.
  destruct (bfs_pop_inv g mode stamp source u D q' c r sm ad Hs Hinv) as [Hinv1 [_ [HD _]]].
  constructor; simpl; rewrite <- ?app_assoc; simpl; auto.
  - intros Hn. rewrite distance_sum_app. unfold distance_sum at 2. simpl.
    rewrite Z.add_0_r, (Hsum Hn).
    assert (Hb : 0 <= distance_sum done <= Z.of_nat (length done) * (r - 1)).
    { apply distance_sum_bound; [lia|]. exact Hbd. }
    rewrite length_app in Hre. simpl in Hre.
    assert (Z.of_nat (length done) * (r - 1) < 2 ^ 26 * 2 ^ 26) by nia.
    change (2 ^ 26 * 2 ^ 26) with (2 ^ 52) in H.
    assert (2 ^ 52 + 2 ^ 26 < 2 ^ 53) by reflexivity.
    apply real_of_long_add; lia.
  - intros v d Hin. apply in_app_or in Hin.
    destruct Hin as [Hin|[Hin|[]]]; [apply (Hbd v d Hin)|].
    inversion Hin; subst. exact HD.
  - apply Hso.
Qed.

Lemma bfs_while_trace g mode cutoff stamp source :
  graph_wf g = true -> stamp <> 0 ->
  forall fuel st done st',
    bfs_while fuel g mode cutoff stamp st = Some st' ->
    trace_inv g mode cutoff stamp source done st ->
    closed g mode cutoff done (done ++ bfs_q st) ->
    (forall x y, In x (done ++ bfs_q st) -> In y (bfs_q st) -> snd x <= snd y + 1) ->
    exists done', trace_inv g mode cutoff stamp source done' st' /\ bfs_q st' = []
                  /\ closed g mode cutoff done' done'.
Proof.
  intros Hwf Hs. induction fuel as [|fuel IH]; intros st done st' Hrun Ht Hcl Hlv.
  - destruct st as [q c r sm ad]. destruct q as [|[u D] q']; [|discriminate].
    simpl in *. inversion Hrun; subst. exists done. rewrite app_nil_r in Hcl. auto.
  - destruct st as [q c r sm ad]. destruct q as [|[u D] q'].
    + simpl in *. inversion Hrun; subst. exists done. rewrite app_nil_r in Hcl. auto.
    + pose proof (bfs_pop_trace g mode cutoff stamp source done u D q' c r sm ad Hs Ht)
        as Ht1.
      cbn [bfs_q] in Hcl, Hlv.
      assert (Hso : forall y, In y q' -> D <= snd y).
      { apply (ti_sorted _ _ _ _ _ _ _ Ht). }
      assert (Hin : In (u, D) (done ++ [(u, D)])) by (apply in_or_app; right; left; auto).
      simpl in Hrun.
      match type of Hrun with context [bfs_neighbors _ _ _ ?s] => set (st1 := s) in * end.
      destruct (beyond_cutoff cutoff D) eqn:Hcut.
      * apply (IH st1 (done ++ [(u, D)]) st' Hrun Ht1).
        -- unfold st1; simpl. rewrite <- app_assoc. simpl.
           intros u' d' w Hu' Hb Hw. apply in_app_or in Hu'.
           destruct Hu' as [Hu'|[Hu'|[]]]; [eapply Hcl; eauto|].
           inversion Hu'; subst. congruence.
        -- unfold st1; simpl. rewrite <- app_assoc. simpl.
           intros x y Hx Hy. apply Hlv; auto. right; auto.
      * assert (Hlevel : level D (done ++ [(u, D)]) (bfs_q st1)).
        { unfold st1; simpl. split.
          - intros y Hy. split; [auto|].
            apply (Hlv y (u, D)); [apply in_or_app; right; right; auto | left; auto].
          - rewrite <- app_assoc. simpl. intros x Hx.
            apply (Hlv x (u, D)); [auto | left; auto]. }
        destruct (bfs_neighbors_trace g mode cutoff stamp source u D (done ++ [(u, D)])
                    Hwf Hs Hin Hcut (igraph_neighbors g mode u) st1 (fun w H => H)
                    Ht1 Hlevel) as [T1 [T2 [T3 T4]]].
        apply (IH _ (done ++ [(u, D)]) st' Hrun T1).
        -- intros u' d' w Hu' Hb Hw. apply in_app_or in Hu'.
           destruct Hu' as [Hu'|[Hu'|[]]].
           ++ destruct (Hcl u' d' w Hu' Hb Hw) as [dw [Hdw Hle]]. exists dw. split; auto.
              apply T3. unfold st1; simpl. rewrite <- app_assoc. simpl. exact Hdw.
           ++ inversion Hu'; subst. apply T4. exact Hw.
        -- intros x y Hx Hy. destruct T2 as [L1 L2].
           specialize (L1 y Hy). specialize (L2 x Hx). lia.
Qed.

(** Every walk whose vertices were all expanded ends at a vertex on record,
    at a distance that is at most the length of the walk. *)
Lemma closed_walk g mode cutoff source done :
  In (source, 0) done -> (forall v d, In (v, d) done -> 0 <= d) ->
  closed g mode cutoff done done ->
  forall v k, walk g mode source v k ->
    (forall j, 0 <= j < k -> beyond_cutoff cutoff j = false) ->
    exists d, In (v, d) done /\ d <= k.
Proof.
  intros Hsrc Hpos Hcl v k Hw. induction Hw as [|u v k Hw IH Hv]; intros Hok.
  - exists 0. split; [exact Hsrc|lia].
  - pose proof (walk_nonneg _ _ _ _ _ Hw) as Hk.
    destruct IH as [du [Hdu Hle]]; [intros j Hj; apply Hok; lia|].
    pose proof (Hpos u du Hdu) as Hdu0.
    destruct (Hcl u du v Hdu (Hok du ltac:(lia)) Hv) as [dv [Hdv Hle']].
    exists dv. split; [exact Hdv|lia].
Qed.

(** The traversal from one source ends with a trace. *)
Lemma bfs_source_trace_inv g mode cutoff i source counted actdist :
  graph_wf g = true -> (source < vcount g)%nat -> stamps_upto g i counted ->
  exists b order,
    bfs_source g mode cutoff i source counted actdist = Some b
    /\ trace_inv g mode cutoff (Z.of_nat i + 1) source order b /\ bfs_q b = []
    /\ closed g mode cutoff order order.
Proof.
  intros Hwf Hsrc Hst.
  destruct (bfs_source_total g mode cutoff i source counted actdist Hwf Hsrc Hst)
    as [b [Hb _]].
  destruct (bfs_init_inv g mode i source counted actdist Hsrc Hst) as [Hinv0 [_ Honly]].
  cbv zeta in Hinv0, Honly.
  assert (Hs : Z.of_nat i + 1 <> 0) by lia.
  unfold bfs_source in Hb.
  destruct (bfs_while_trace g mode cutoff (Z.of_nat i + 1) source Hwf Hs _ _ [] b Hb)
    as [order [Ht [Hq Hcl]]].
  { constructor; simpl; auto.
    - intros v. split; [intros Hv; left; symmetry; apply Honly; exact Hv|].
      intros [<-|[]]. apply nth_vector_set_same. destruct Hst as [Hlen _]. lia.
    - constructor; [intros []|constructor].
    - intros v d [Hin|[]]. inversion Hin; subst. split; [constructor|auto].
    - intros v d [].
    - split; [intros y []|exact I]. }
  { intros u d w []. }
  { simpl. intros x y [<-|[]] [<-|[]]. simpl. lia. }
  exists b, order. unfold bfs_source. auto.
Qed.

(** A distance in hops is smaller than the number of vertices: the
    traversal without a cutoff has every vertex with a walk on record. *)
Lemma hop_distance_small g mode source v d :
  graph_wf g = true -> (source < vcount g)%nat ->
  hop_distance g mode source v d -> 0 <= d < Z.of_nat (vcount g).
Proof.
  intros Hwf Hsrc [Hw Hleast].
  destruct (bfs_source_trace_inv g mode (-1)%float O source (repeat 0 (vcount g)) 0 Hwf
              Hsrc (stamps_upto_init g)) as [b [order [_ [Ht [Hq Hcl]]]]].
  pose proof (trace_reached_le _ _ _ _ _ _ _ Ht) as Hrn.
  destruct Ht as [_ _ _ Hwk Hso _ _ Hbd _]. rewrite Hq, app_nil_r in *.
  destruct (closed_walk g mode (-1)%float source order Hso
              (fun v d H => proj1 (Hbd v d H)) Hcl v d Hw) as [d' [Hd' Hle]].
  { intros j _. apply beyond_cutoff_none. reflexivity. }
  specialize (Hleast d' (proj1 (Hwk v d' Hd'))). specialize (Hbd v d' Hd'). lia.
Qed.

(** The trace of the traversal from one source. *)
Lemma bfs_source_trace g mode cutoff i source counted actdist :
  graph_wf g = true -> Z.of_nat (vcount g) < 2 ^ 26 ->
  (source < vcount g)%nat -> stamps_upto g i counted ->
  exists b order,
    bfs_source g mode cutoff i source counted actdist = Some b
    /\ NoDup (map fst order)
    /\ (forall v d, In (v, d) order -> hop_distance g mode source v d)
    /\ (forall v d, hop_distance g mode source v d ->
          (In (v, d) order <-> d = 0 \/ beyond_cutoff cutoff (d - 1) = false))
    /\ (forall v k, walk g mode source v k ->
          (forall j, 0 <= j < k -> beyond_cutoff cutoff j = false) ->
          exists d, In (v, d) order /\ d <= k)
    /\ bfs_reached b = Z.of_nat (length order)
    /\ bfs_sum b = real_of_long (distance_sum order)
    /\ bfs_total g b
       = real_of_long (distance_sum order
                       + igraph_vcount g * (igraph_vcount g - Z.of_nat (length order))).
Proof.
  intros Hwf Hn Hsrc Hst.
  destruct (bfs_source_trace_inv g mode cutoff i source counted actdist Hwf Hsrc Hst)
    as [b [order [Hb [Ht [Hq Hcl]]]]].
  exists b, order. split; [exact Hb|].
  pose proof (trace_reached_le _ _ _ _ _ _ _ Ht) as Hrn.
  destruct Ht as [Hinv Hstm Hnd Hwk Hso Hre Hsum Hbd _].
  rewrite Hq, app_nil_r in *.
  assert (H2653 : 2 ^ 26 < 2 ^ 53) by reflexivity.
  assert (Hpos : forall v d, In (v, d) order -> 0 <= d)
    by (intros v d Hin; apply (Hbd v d Hin)).
  assert (Hhop : forall v d, In (v, d) order -> hop_distance g mode source v d).
  { intros v d Hin. destruct (Hwk v d Hin) as [Hw Hd]. split; [exact Hw|].
    intros k Hk. destruct (Z.le_gt_cases d k) as [|Hlt]; auto. exfalso.
    pose proof (walk_nonneg _ _ _ _ _ Hk) as Hk0.
    destruct Hd as [->|Hd]; [lia|].
    destruct (closed_walk g mode cutoff source order Hso Hpos Hcl v k Hk) as [d' [Hd' Hle]].
    { intros j Hj. specialize (Hbd v d Hin).
      apply (beyond_cutoff_below cutoff j (d - 1)); auto; lia. }
    pose proof (nodup_fst_unique order v d d' Hnd Hin Hd'). lia. }
  split; [exact Hnd|]. split; [exact Hhop|]. split.
  { intros v d Hh. split; [intros Hin; apply (Hwk v d Hin)|].
    intros Hd. pose proof (hop_distance_small g mode source v d Hwf Hsrc Hh) as Hds.
    destruct Hh as [Hw Hleast].
    destruct (closed_walk g mode cutoff source order Hso Hpos Hcl v d Hw) as [d' [Hd' Hle]].
    { intros j Hj. destruct Hd as [->|Hd]; [lia|].
      apply (beyond_cutoff_below cutoff j (d - 1)); auto; lia. }
    assert (d <= d') by (apply Hleast; apply (Hwk v d' Hd')).
    replace d with d' by lia. exact Hd'. }
  split; [apply (closed_walk g mode cutoff source order Hso Hpos Hcl)|].
  split; [exact Hre|]. split; [exact (Hsum Hn)|].
  unfold bfs_total, igraph_vcount. rewrite (Hsum Hn), Hre.
  assert (Hb' : 0 <= distance_sum order
                <= Z.of_nat (length order) * (Z.of_nat (vcount g) - 1)).
  { apply distance_sum_bound; [lia|]. intros v d Hin. specialize (Hbd v d Hin). lia. }
  set (n := Z.of_nat (vcount g)) in *. set (r := Z.of_nat (length order)) in *.
  assert (0 <= r) by (unfold r; lia).
  assert (H52 : 2 ^ 26 * 2 ^ 26 = 2 ^ 52) by reflexivity.
  assert (H53 : 2 ^ 52 + 2 ^ 52 = 2 ^ 53) by reflexivity.
  assert (r * (n - 1) < 2 ^ 26 * 2 ^ 26) by nia.
  assert (0 <= n * (n - r) <= 2 ^ 26 * 2 ^ 26) by nia.
  rewrite real_of_long_mul by lia.
  rewrite real_of_long_add by lia. reflexivity.
Qed.

(** ** The scores of an unweighted call *)

Lemma nth_unnormalize normalized n r k :
  (k < length r)%nat ->
  nth k (unnormalize normalized n r) 0%float
  = if normalized then nth k r 0%float
    else PrimFloat.div (nth k r 0%float) (real_of_long (n - 1)).
Proof.
  intros Hk. unfold unnormalize. destruct normalized; auto.
  rewrite (nth_indep _ 0%float (PrimFloat.div 0 (real_of_long (n - 1))))
    by (rewrite length_map; exact Hk).
  apply (map_nth (fun x => PrimFloat.div x (real_of_long (n - 1)))).
Qed.

(** The result vector of a well-formed unweighted call: the scores of the
    vertices asked for, each as a call for it alone computes it. *)
Lemma unweighted_call_scores handler g res0 vids mode cutoff normalized :
  graph_wf g = true -> invalid_mode mode = false -> igraph_vit_create g vids = true ->
  (forall k, handler k = false) ->
  res (igraph_closeness_estimate handler g res0 vids mode cutoff None normalized)
  = unnormalize normalized (igraph_vcount g) (map (single_score g mode cutoff) vids).
Proof.
  intros Hwf Hm Hv Hh.
  unfold igraph_closeness_estimate, closeness_estimate_unweighted. rewrite Hv, Hm. cbn [negb].
  match goal with |- context [closeness_loop ?h ?a ?b ?c ?e ?f ?s] =>
    pose proof (closeness_loop_runs h a b c Hwf Hh e f s Hv (stamps_upto_init g))
      as [Hr _];
    pose proof (closeness_loop_scores h a b c Hwf Hh e f s [] Hv
                  (stamps_upto_init g) eq_refl eq_refl) as Hs;
    destruct (closeness_loop h a b c e f s) as [t st]
  end.
  simpl in Hr, Hs. subst t. simpl. rewrite Hs. reflexivity.
Qed.

Lemma vit_nth g vids k :
  igraph_vit_create g vids = true -> (k < length vids)%nat -> (nth k vids O < vcount g)%nat.
Proof.
  intros Hv Hk. unfold igraph_vit_create in Hv. rewrite forallb_forall in Hv.
  apply Nat.ltb_lt. apply Hv. apply nth_In. exact Hk.
Qed.

(** The [k]-th entry of the result vector, from the divisor of its source. *)
Lemma unweighted_call_score handler g res0 vids mode cutoff normalized k b :
  graph_wf g = true -> invalid_mode mode = false -> igraph_vit_create g vids = true ->
  (forall k, handler k = false) -> (k < length vids)%nat ->
  bfs_source g mode cutoff O (nth k vids O) (repeat 0 (vcount g)) 0 = Some b ->
  nth k (res (igraph_closeness_estimate handler g res0 vids mode cutoff None normalized))
    0%float
  = if normalized then closeness_score (igraph_vcount g) (bfs_total g b)
    else PrimFloat.div (closeness_score (igraph_vcount g) (bfs_total g b))
           (real_of_long (igraph_vcount g - 1)).
Proof.
  intros Hwf Hm Hv Hh Hk Hb.
  rewrite unweighted_call_scores by auto.
  rewrite nth_unnormalize by (rewrite length_map; exact Hk).
  rewrite (nth_indep _ 0%float (single_score g mode cutoff O)) by (rewrite length_map; exact Hk).
  rewrite map_nth. unfold single_score. rewrite Hb. reflexivity.
Qed.

(** ** When the disconnected-graph warning is issued *)

Lemma count_stamp_lt_exists stamp v :
  (count_stamp stamp v < length v)%nat ->
  exists t, (t < length v)%nat /\ nth t v 0 <> stamp.
Proof.
  unfold count_stamp. induction v as [|y r IH]; simpl; intros H; [lia|].
  destruct (Z.eq_dec y stamp) as [Heq|Hne].
  - destruct IH as [t [Ht Hn]]; [lia|]. exists (S t). split; [lia|exact Hn].
  - exists O. split; [lia|exact Hne].
Qed.

(** Without a cutoff the breadth-first traversal stamps every vertex that
    can be reached, so it counts fewer vertices than the graph has exactly
    when some vertex cannot be reached. *)
Lemma bfs_source_disconnected g mode cutoff i source counted actdist :
  graph_wf g = true -> (source < vcount g)%nat -> stamps_upto g i counted ->
  PrimFloat.leb 0 cutoff = false ->
  exists b, bfs_source g mode cutoff i source counted actdist = Some b
            /\ ((bfs_reached b <? igraph_vcount g) = true <-> disconnected_from g mode source).
Proof.
  intros Hwf Hsrc Hst Hc.
  destruct (bfs_source_trace_inv g mode cutoff i source counted actdist Hwf Hsrc Hst)
    as [b [order [Hb [Ht [Hq Hcl]]]]].
  exists b. split; [exact Hb|]. split.
  - intros Hlt. apply Z.ltb_lt in Hlt.
    destruct Ht as [Hinv Hstm _ _ Hso _ _ Hbd _]. rewrite Hq, app_nil_r in *.
    pose proof Hinv as [Hlen _ _ Hre _ _ _]. unfold igraph_vcount in Hlt.
    destruct (count_stamp_lt_exists (Z.of_nat i + 1) (bfs_counted b)) as [t [Htl Htn]];
      [lia|].
    exists t. split; [lia|]. intros Hr. apply Htn. apply Hstm.
    apply reachable_walk in Hr. destruct Hr as [k Hw].
    destruct (closed_walk g mode cutoff source order Hso
                (fun v d H => proj1 (Hbd v d H)) Hcl t k Hw) as [d [Hd _]].
    { intros; apply beyond_cutoff_none; exact Hc. }
    apply in_map_iff. exists (t, d). auto.
  - intros Hd. eapply bfs_inv_disconnected; [|exact Hd]. apply Ht.
Qed.

Lemma igraph_2wheap_remove_other h idx u k :
  In (u, k) h -> u <> idx -> In (u, k) (igraph_2wheap_remove h idx).
Proof.
  induction h as [|x r IH]; simpl; intros Hin Hne; auto.
  destruct (Nat.eqb_spec (fst x) idx) as [Heq|Hneq].
  - destruct Hin as [->|Hin]; auto. simpl in Heq. congruence.
  - destruct Hin as [->|Hin]; [left; auto|right; auto].
Qed.

Lemma igraph_2wheap_modify_keep h idx e u k :
  In (u, k) h -> exists k', In (u, k') (igraph_2wheap_modify h idx e).
Proof.
  unfold igraph_2wheap_modify. intros Hin.
  destruct (Nat.eqb_spec u idx) as [->|Hne].
  - exists e. apply in_map_iff. exists (idx, k). simpl. rewrite Nat.eqb_refl. auto.
  - exists k. apply in_map_iff. exists (u, k). simpl.
    destruct (Nat.eqb_spec u idx); [contradiction|auto].
Qed.

Lemma dij_relax_closed g weights stamp minnei mindist :
  graph_wf g = true ->
  forall neis st,
    (forall e, In e neis -> (e < length (edges g))%nat) ->
    length (dj_which st) = vcount g ->
    let st' := dij_relax g weights stamp minnei mindist neis st in
    length (dj_which st') = vcount g
    /\ (forall v, nth v (dj_which st) 0 = stamp -> nth v (dj_which st') 0 = stamp)
    /\ (forall u k, In (u, k) (dj_Q st) -> exists k', In (u, k') (dj_Q st'))
    /\ (forall v, nth v (dj_which st') 0 = stamp ->
          nth v (dj_which st) 0 = stamp \/ exists k, In (v, k) (dj_Q st'))
    /\ (forall e, In e neis -> nth (IGRAPH_OTHER g e minnei) (dj_which st') 0 = stamp).
Proof.
  intros Hwf. induction neis as [|e neis IH]; intros st Hr Hlen; simpl.
  - split; [exact Hlen|]. split; [auto|]. split; [eauto|]. split; [auto|]. intros e [].
  - assert (He : (e < length (edges g))%nat) by (apply Hr; left; auto).
    assert (Hr' : forall x, In x neis -> (x < length (edges g))%nat)
      by (intros x Hx; apply Hr; right; auto).
    pose proof (IGRAPH_OTHER_range g e minnei Hwf He) as Hto.
    set (to := IGRAPH_OTHER g e minnei) in *.
    destruct (Z.eqb_spec (nth to (dj_which st) 0) stamp) as [Heq|Hne]; simpl.
    + match goal with |- context [if ?c then _ else _] => destruct c end.
      * match goal with |- context [dij_relax _ _ _ _ _ neis ?s] =>
          destruct (IH s Hr') as [I1 [I2 [I3 [I4 I5]]]]; [simpl; exact Hlen|] end.
        simpl in I2, I3, I4.
        split; [exact I1|]. split; [exact I2|]. split.
        { intros u k Hin.
          destruct (igraph_2wheap_modify_keep (dj_Q st) to
                      (PrimFloat.opp (PrimFloat.add mindist (nth e weights 0%float)))
                      u k Hin) as [k' Hk'].
          eapply I3; eauto. }
        split; [exact I4|].
        intros x [<-|Hx]; [apply I2; exact Heq|apply I5; exact Hx].
      * destruct (IH st Hr' Hlen) as [I1 [I2 [I3 [I4 I5]]]].
        split; [exact I1|]. split; [exact I2|]. split; [exact I3|]. split; [exact I4|].
        intros x [<-|Hx]; [apply I2; exact Heq|apply I5; exact Hx].
    + match goal with |- context [dij_relax _ _ _ _ _ neis ?s] =>
        destruct (IH s Hr') as [I1 [I2 [I3 [I4 I5]]]];
          [simpl; rewrite vector_set_length; exact Hlen|] end.
      simpl in I2, I3, I4.
      assert (Hset : nth to (vector_set (dj_which st) to stamp) 0 = stamp)
        by (apply nth_vector_set_same; lia).
      split; [exact I1|]. split.
      { intros v Hv. apply I2. destruct (Nat.eq_dec v to) as [->|Hvt]; [exact Hset|].
        rewrite nth_vector_set_other; auto. }
      split.
      { intros u k Hin. apply (I3 u k). unfold igraph_2wheap_push_with_index.
        apply in_or_app. left. exact Hin. }
      split.
      { intros v Hv. destruct (I4 v Hv) as [H|H]; [|right; exact H].
        destruct (Nat.eq_dec v to) as [->|Hvt].
        - right. apply (I3 to (PrimFloat.opp (PrimFloat.add mindist (nth e weights 0%float)))).
          unfold igraph_2wheap_push_with_index. apply in_or_app. right. left. reflexivity.
        - left. rewrite nth_vector_set_other in H; auto. }
      intros x [<-|Hx]; [apply I2; exact Hset|apply I5; exact Hx].
Qed.

Lemma dij_while_closed g mode weights cutoff stamp :
  graph_wf g = true -> PrimFloat.leb 0 cutoff = false ->
  forall fuel st st',
    dij_while fuel g mode weights cutoff stamp st = Some st' ->
    length (dj_which st) = vcount g -> dij_closed g mode stamp st ->
    dij_closed g mode stamp st' /\ dj_Q st' = []
    /\ (forall v, nth v (dj_which st) 0 = stamp -> nth v (dj_which st') 0 = stamp).
Proof.
  intros Hwf Hc. induction fuel as [|fuel IH]; intros st st' Hrun Hlen Hcl.
  - simpl in Hrun.
    destruct (igraph_2wheap_max (dj_Q st)) as [[minnei top]|] eqn:Hmax; [discriminate|].
    inversion Hrun; subst. apply igraph_2wheap_max_None in Hmax. auto.
  - destruct (igraph_2wheap_max (dj_Q st)) as [[minnei top]|] eqn:Hmax.
    + rewrite (dij_while_step _ _ _ _ _ _ _ _ _ Hmax) in Hrun. cbv zeta in Hrun.
      rewrite beyond_cutoff_weighted_none in Hrun by exact Hc.
      match type of Hrun with context [dij_relax _ _ _ _ _ _ ?s] => set (st1 := s) in * end.
      destruct (dij_relax_closed g weights stamp minnei (PrimFloat.opp top) Hwf
                  (igraph_incident g mode minnei) st1
                  (fun e H => igraph_incident_range g mode minnei e H) Hlen)
        as [R1 [R2 [R3 [R4 R5]]]].
      cbv zeta in R1, R2, R3, R4, R5.
      destruct (IH _ st' Hrun R1) as [C1 [C2 C3]].
      * intros u Hu. destruct (R4 u Hu) as [Hu1|Hq]; [|left; exact Hq].
        unfold st1 in Hu1; simpl in Hu1.
        destruct (Nat.eq_dec u minnei) as [->|Hne].
        -- right. intros w Hw. unfold igraph_neighbors in Hw. apply in_map_iff in Hw.
           destruct Hw as [e [<- He]]. apply R5. exact He.
        -- destruct (Hcl u Hu1) as [[k Hk]|Hn].
           ++ left. apply (R3 u k). unfold st1; simpl.
              apply igraph_2wheap_remove_other; auto.
           ++ right. intros w Hw. apply R2. unfold st1; simpl. apply Hn. exact Hw.
      * split; [exact C1|]. split; [exact C2|].
        intros v Hv. apply C3. apply R2. exact Hv.
    + simpl in Hrun. rewrite Hmax in Hrun. inversion Hrun; subst.
      apply igraph_2wheap_max_None in Hmax. auto.
Qed.

Lemma dij_source_disconnected g mode weights cutoff i source which dist mindist :
  graph_wf g = true -> (source < vcount g)%nat -> stamps_upto g i which ->
  PrimFloat.leb 0 cutoff = false ->
  exists d, dij_source g mode weights cutoff i source which dist mindist = Some d
            /\ ((dj_reached d <? igraph_vcount g) = true <-> disconnected_from g mode source).
Proof.
  intros Hwf Hsrc Hst Hc.
  destruct (dij_source_total g mode weights cutoff i source which dist mindist Hwf Hsrc Hst)
    as [d [Hd [Hinv Hq]]].
  exists d. split; [exact Hd|]. split.
  - intros Hlt. apply Z.ltb_lt in Hlt.
    unfold dij_source in Hd.
    destruct (dij_while_closed g mode weights cutoff (Z.of_nat i + 1) Hwf Hc _ _ _ Hd)
      as [C1 [_ C3]].
    { simpl. rewrite vector_set_length. apply Hst. }
    { intros u Hu. left. simpl in *. exists (-1)%float.
      destruct (Nat.eq_dec u source) as [->|Hne]; [left; reflexivity|].
      rewrite nth_vector_set_other in Hu by auto.
      pose proof (stale_stamps g i which u Hst) as Hx. apply Z.eqb_neq in Hx. contradiction. }
    pose proof Hinv as [Hlen _ _ Hre _ _]. rewrite Hq in Hre. simpl in Hre.
    unfold igraph_vcount in Hlt.
    assert (Hall : forall v, reachable g mode source v ->
                     nth v (dj_which d) 0 = Z.of_nat i + 1).
    { intros v Hr. induction Hr as [|u v Hu IHu Hv].
      - apply C3. simpl. apply nth_vector_set_same. destruct Hst as [Hl _]. lia.
      - destruct (C1 u IHu) as [[k Hk]|Hn]; [rewrite Hq in Hk; contradiction|].
        apply Hn. exact Hv. }
    destruct (count_stamp_lt_exists (Z.of_nat i + 1) (dj_which d)) as [t [Htl Htn]]; [lia|].
    exists t. split; [lia|]. intros Hr. apply Htn. apply Hall. exact Hr.
  - intros Hdis. eapply dij_inv_disconnected; eauto.
Qed.

(** The latch of an outer loop without a cutoff is set at its end exactly if
    it was set before or a source of the loop cannot reach every vertex. *)
Lemma closeness_loop_shown handler g mode cutoff :
  graph_wf g = true -> (forall k, handler k = false) -> PrimFloat.ltb cutoff 0 = true ->
  forall vit i st,
    igraph_vit_create g vit = true -> stamps_upto g i (ls_counted st) ->
    (ls_warning_shown (snd (closeness_loop handler g mode cutoff vit i st)) = true
     <-> ls_warning_shown st = true \/ exists s, In s vit /\ disconnected_from g mode s).
Proof.
  intros Hwf Hh Hc. pose proof (float_ltb_zero_not_leb cutoff Hc) as Hc'.
  induction vit as [|source vit IH]; intros i st Hv Hst; simpl.
  - split; [auto|]. intros [H|[s [[] _]]]. exact H.
  - split_vit Hv Hs. rewrite Hh.
    destruct (bfs_source_disconnected g mode cutoff i source (ls_counted st) (ls_actdist st)
                Hwf Hs Hst Hc') as [b [Hb Hiff]].
    destruct (bfs_source_total g mode cutoff i source (ls_counted st) (ls_actdist st)
                Hwf Hs Hst) as [b' [Hb' [Hinv _]]].
    rewrite Hb in Hb'. inversion Hb'; subst b'. rewrite Hb.
    rewrite IH; [|exact Hv|simpl; eapply bfs_inv_stamps_upto; eauto].
    simpl. rewrite within_cutoff_none by exact Hc. simpl.
    destruct (ls_warning_shown st); simpl.
    + split; auto.
    + rewrite andb_true_r. split.
      * intros [H|[s [Hin Hd]]]; right.
        -- exists source. split; [left; auto|]. apply Hiff. exact H.
        -- exists s. split; [right; auto|exact Hd].
      * intros [H|[s [[<-|Hin] Hd]]]; [discriminate| |].
        -- left. apply Hiff. exact Hd.
        -- right. exists s. auto.
Qed.

Lemma closeness_loop_weighted_shown g mode weights cutoff :
  graph_wf g = true -> PrimFloat.ltb cutoff 0 = true ->
  forall vit i st,
    igraph_vit_create g vit = true -> stamps_upto g i (ws_which st) ->
    (ws_warning_shown (snd (closeness_loop_weighted g mode weights cutoff vit i st)) = true
     <-> ws_warning_shown st = true \/ exists s, In s vit /\ disconnected_from g mode s).
Proof.
  intros Hwf Hc. pose proof (float_ltb_zero_not_leb cutoff Hc) as Hc'.
  induction vit as [|source vit IH]; intros i st Hv Hst; simpl.
  - split; [auto|]. intros [H|[s [[] _]]]. exact H.
  - split_vit Hv Hs.
    destruct (dij_source_disconnected g mode weights cutoff i source (ws_which st)
                (ws_dist st) (ws_mindist st) Hwf Hs Hst Hc') as [d [Hd Hiff]].
    destruct (dij_source_total g mode weights cutoff i source (ws_which st) (ws_dist st)
                (ws_mindist st) Hwf Hs Hst) as [d' [Hd' [Hinv _]]].
    rewrite Hd in Hd'. inversion Hd'; subst d'. rewrite Hd.
    rewrite IH; [|exact Hv|simpl; eapply dij_inv_stamps_upto; eauto].
    simpl. rewrite within_cutoff_weighted_none by exact Hc. simpl.
    destruct (ws_warning_shown st); simpl.
    + split; auto.
    + rewrite andb_true_r. split.
      * intros [H|[s [Hin Hdis]]]; right.
        -- exists source. split; [left; auto|]. apply Hiff. exact H.
        -- exists s. split; [right; auto|exact Hdis].
      * intros [H|[s [[<-|Hin] Hdis]]]; [discriminate| |].
        -- left. apply Hiff. exact Hdis.
        -- right. exists s. auto.
Qed.

Lemma latched_count shown ws :
  latched shown ws -> (count_warning WARN_DISCONNECTED ws = 1%nat <-> shown = true).
Proof. unfold latched. intros ->. destruct shown; split; auto; discriminate. Qed.

(** ** The divisor of a score *)

(** Sums over lists without repetition. *)
Lemma sum_app {A : Type} (f : A -> Z) (a b : list A) :
  fold_right Z.add 0 (map f (a ++ b))
  = fold_right Z.add 0 (map f a) + fold_right Z.add 0 (map f b).
Proof. induction a as [|x a IH]; simpl; [reflexivity|]. rewrite IH. lia. Qed.

Lemma sum_nonneg {A : Type} (f : A -> Z) (l : list A) :
  (forall x, In x l -> 0 <= f x) -> 0 <= fold_right Z.add 0 (map f l).
Proof.
  induction l as [|y l IH]; intros Hpos; simpl; [lia|].
  assert (0 <= f y) by (apply Hpos; left; auto).
  assert (0 <= fold_right Z.add 0 (map f l))
    by (apply IH; intros z Hz; apply Hpos; right; exact Hz).
  lia.
Qed.

Lemma sum_incl {A : Type} (f : A -> Z) (l1 l2 : list A) :
  NoDup l1 -> incl l1 l2 -> (forall x, In x l2 -> 0 <= f x) ->
  fold_right Z.add 0 (map f l1) <= fold_right Z.add 0 (map f l2).
Proof.
  intros Hnd. revert l2. induction Hnd as [|x r Hx Hr IH]; intros l2 Hin Hpos.
  - simpl. apply sum_nonneg. exact Hpos.
  - destruct (in_split x l2 (Hin x (or_introl eq_refl))) as [a [b ->]].
    assert (Hsub : incl r (a ++ b)).
    { intros y Hy. specialize (Hin y (or_intror Hy)). apply in_app_or in Hin.
      apply in_or_app. destruct Hin as [H|[H|H]]; auto. subst. contradiction. }
    assert (Hpos' : forall y, In y (a ++ b) -> 0 <= f y).
    { intros y Hy. apply Hpos. apply in_app_or in Hy. apply in_or_app.
      destruct Hy; [left|right; right]; auto. }
    specialize (IH (a ++ b) Hsub Hpos').
    rewrite sum_app in *. simpl. lia.
Qed.

Lemma penalty_sum (n : Z) (l : list (nat * Z)) :
  fold_right Z.add 0 (map (fun x => n - snd x) l) = n * Z.of_nat (length l) - distance_sum l.
Proof.
  unfold distance_sum. induction l as [|x r IH]; [simpl; lia|].
  cbn [map fold_right length]. rewrite IH, Nat2Z.inj_succ. lia.
Qed.

(** ** Differences and comparisons of doubles that hold integers *)

Lemma binary_round_aux_sign m e l :
  binary_round_aux prec emax true m e l = SFopp (binary_round_aux prec emax false m e l).
Proof.
  unfold binary_round_aux.
  destruct (shr_fexp prec emax m e l) as [mrs' e'].
  match goal with |- context [shr_fexp ?a ?b ?c ?d ?f] =>
    destruct (shr_fexp a b c d f) as [mrs'' e''] end.
  destruct (shr_m mrs''); try reflexivity.
  match goal with |- context [if ?c then _ else _] => destruct c end; reflexivity.
Qed.

Lemma binary_round_sign M e :
  binary_round prec emax true M e = SFopp (binary_round prec emax false M e).
Proof.
  unfold binary_round.
  match goal with |- context [shl_align ?a ?b ?c] => destruct (shl_align a b c) end.
  apply binary_round_aux_sign.
Qed.

Lemma SFsub_int_neg a b :
  0 <= a < b -> b < 2 ^ 53 ->
  SFsub prec emax (SFint a) (SFint b) = SFopp (SFint (b - a)).
Proof.
  intros Hab Hb. destruct a as [|p|p]; try lia; destruct b as [|q|q]; try lia.
  - reflexivity.
  - assert (Hp : Zpos p < 2 ^ 53) by lia. assert (Hq : Zpos q < 2 ^ 53) by lia.
    pose proof (int_exponent_range p Hp). pose proof (int_exponent_range q Hq).
    unfold SFint at 1 2. unfold SFsub. unfold cond_Zopp.
    rewrite !int_scaled by lia.
    rewrite <- Z.mul_sub_distr_r.
    set (ez := Z.min (int_exponent p) (int_exponent q)).
    assert (Hk : 0 <= - ez) by lia.
    assert (H2 : 0 < 2 ^ (- ez)) by (apply Z.pow_pos_nonneg; lia).
    destruct (Zpos q - Zpos p) as [|z|z] eqn:Hz; try lia.
    destruct ((Zpos p - Zpos q) * 2 ^ (- ez)) as [|M|M] eqn:HM; try nia.
    unfold binary_normalize. rewrite binary_round_sign. f_equal.
    replace ez with (- (- ez)) by lia.
    apply binary_round_exact; lia || nia.
Qed.

Lemma real_of_long_sub_neg a b :
  0 <= a < b -> b < 2 ^ 53 ->
  PrimFloat.sub (real_of_long a) (real_of_long b) = PrimFloat.opp (real_of_long (b - a)).
Proof.
  intros Hab Hb. apply Prim2SF_inj.
  rewrite sub_spec, opp_spec, !real_of_long_spec by lia. apply SFsub_int_neg; auto.
Qed.

Lemma real_of_long_abs_opp z :
  0 <= z < 2 ^ 53 -> PrimFloat.abs (PrimFloat.opp (real_of_long z)) = real_of_long z.
Proof.
  intros Hz. apply Prim2SF_inj. rewrite abs_spec, opp_spec, real_of_long_spec by auto.
  destruct z; try lia; reflexivity.
Qed.

Lemma igraph_cmp_epsilon_lt a b :
  0 <= a < b -> b < 2 ^ 53 ->
  (igraph_cmp_epsilon (real_of_long a) (real_of_long b) IGRAPH_SHORTEST_PATH_EPSILON <? 0)
  = true.
Proof.
  intros Hab Hb. unfold igraph_cmp_epsilon.
  rewrite real_of_long_sub_neg by lia. rewrite real_of_long_abs_opp by lia.
  rewrite real_of_long_below_eps by lia.
  destruct (Z.eqb_spec (b - a) 0); [lia|].
  rewrite real_of_long_ltb by lia.
  destruct (Z.ltb_spec a b); [reflexivity|lia].
Qed.

Lemma real_of_long_inj a b :
  0 <= a < 2 ^ 53 -> 0 <= b < 2 ^ 53 -> real_of_long a = real_of_long b -> a = b.
Proof.
  intros Ha Hb H. pose proof (real_of_long_eqb a a Ha Ha) as E1.
  rewrite H in E1 at 2. rewrite real_of_long_eqb in E1 by auto.
  rewrite Z.eqb_refl in E1. apply Z.eqb_eq. auto.
Qed.

Lemma dij_key_inj a b :
  0 <= a < 2 ^ 53 -> 0 <= b < 2 ^ 53 -> dij_key a = dij_key b -> a = b.
Proof.
  unfold dij_key. intros Ha Hb H. apply real_of_long_inj; auto.
  rewrite <- (float_opp_involutive (real_of_long a)), H. apply float_opp_involutive.
Qed.

Lemma dij_key_opp z : PrimFloat.opp (dij_key z) = real_of_long z.
Proof. apply float_opp_involutive. Qed.

Lemma int_weights_nth W e : nth e (int_weights W) 0%float = real_of_long (nth e W 0).
Proof.
  unfold int_weights. change 0%float with (real_of_long 0). apply map_nth.
Qed.

(** ** The indexed heap, when every index is queued once *)

Lemma igraph_2wheap_modify_fst h idx e : map fst (igraph_2wheap_modify h idx e) = map fst h.
Proof.
  unfold igraph_2wheap_modify. induction h as [|x r IH]; simpl; auto.
  rewrite IH. destruct (Nat.eqb_spec (fst x) idx); simpl; congruence.
Qed.

Lemma igraph_2wheap_modify_In_iff h idx e v k :
  In (v, k) (igraph_2wheap_modify h idx e)
  <-> (v <> idx /\ In (v, k) h) \/ (v = idx /\ k = e /\ In idx (map fst h)).
Proof.
  unfold igraph_2wheap_modify. rewrite in_map_iff. split.
  - intros [[u c] [Hf Hin]]. simpl in Hf.
    destruct (Nat.eqb_spec u idx) as [->|Hne]; inversion Hf; subst.
    + right. split; [reflexivity|]. split; [reflexivity|].
      apply in_map_iff. exists (v, c). auto.
    + left. auto.
  - intros [[Hv Hin]|[-> [-> Hin]]].
    + exists (v, k). split; [|exact Hin]. simpl.
      destruct (Nat.eqb_spec v idx); [contradiction|reflexivity].
    + apply in_map_iff in Hin. destruct Hin as [[u c] [Hu Hin]]. simpl in Hu. subst u.
      exists (idx, c). split; [|exact Hin]. simpl. rewrite Nat.eqb_refl. reflexivity.
Qed.

Lemma igraph_2wheap_remove_fst h u v :
  NoDup (map fst h) ->
  (In v (map fst (igraph_2wheap_remove h u)) <-> In v (map fst h) /\ v <> u).
Proof.
  induction h as [|x r IH]; simpl; intros Hnd.
  - tauto.
  - inversion Hnd as [|? ? Hx Hr]; subst.
    destruct (Nat.eqb_spec (fst x) u) as [Heq|Hne]; simpl.
    + subst u. split.
      * intros Hin. split; [right; auto|]. intros ->. contradiction.
      * intros [[H|H] Hv]; [congruence|auto].
    + rewrite (IH Hr). split.
      * intros [H|[H Hv]]; [subst; auto|auto].
      * intros [[H|H] Hv]; auto.
Qed.

Lemma igraph_2wheap_remove_nodup h u :
  NoDup (map fst h) -> NoDup (map fst (igraph_2wheap_remove h u)).
Proof.
  induction h as [|x r IH]; simpl; intros Hnd; auto.
  inversion Hnd as [|? ? Hx Hr]; subst.
  destruct (Nat.eqb_spec (fst x) u) as [Heq|Hne]; simpl; auto.
  constructor; auto. intros Hin. apply (igraph_2wheap_remove_fst r u (fst x) Hr) in Hin.
  tauto.
Qed.

Lemma igraph_2wheap_remove_In_iff h u v k :
  NoDup (map fst h) ->
  (In (v, k) (igraph_2wheap_remove h u) <-> In (v, k) h /\ v <> u).
Proof.
  induction h as [|x r IH]; simpl; intros Hnd.
  - tauto.
  - inversion Hnd as [|? ? Hx Hr]; subst.
    destruct (Nat.eqb_spec (fst x) u) as [Heq|Hne]; simpl.
    + subst u. split.
      * intros Hin. split; [right; auto|]. intros ->.
        apply Hx. apply in_map_iff. exists (fst x, k). auto.
      * intros [[H|H] Hv]; [subst; simpl in Hv; congruence|auto].
    + rewrite (IH Hr). split.
      * intros [H|[H Hv]]; [subst; simpl in Hne; auto|auto].
      * intros [[H|H] Hv]; auto.
Qed.

(** The maximum of a heap of keys is the entry of the least distance. *)
Lemma igraph_2wheap_max_least h u top :
  igraph_2wheap_max h = Some (u, top) ->
  (forall v k, In (v, k) h -> exists z, 1 <= z < 2 ^ 53 /\ k = dij_key z) ->
  In (u, top) h
  /\ exists zu, 1 <= zu < 2 ^ 53 /\ top = dij_key zu
                /\ forall v z, In (v, dij_key z) h -> 1 <= z < 2 ^ 53 -> zu <= z.
Proof.
  revert u top. induction h as [|x r IH]; simpl; intros u top Hmax Hkeys; [discriminate|].
  destruct (igraph_2wheap_max r) as [[y ky]|] eqn:Hr.
  - destruct (IH y ky eq_refl) as [Hin [zy [Hzy [Hky Hleast]]]].
    { intros v k Hv. apply (Hkeys v k). right; auto. }
    destruct x as [vx kx]. simpl in Hmax.
    destruct (Hkeys vx kx (or_introl eq_refl)) as [zx [Hzx Hkx]].
    subst kx ky. unfold dij_key in Hmax. rewrite real_of_long_opp_ltb in Hmax by lia.
    destruct (Z.ltb_spec zy zx); inversion Hmax; subst.
    + split; [right; auto|]. exists zy. split; [auto|]. split; [reflexivity|].
      intros v z [Hv|Hv] Hz; [|apply (Hleast v z Hv Hz)].
      inversion Hv as [[E1 E2]]. apply dij_key_inj in E2; try lia.
    + split; [left; auto|]. exists zx. split; [auto|]. split; [reflexivity|].
      intros v z [Hv|Hv] Hz.
      * inversion Hv as [[E1 E2]]. apply dij_key_inj in E2; try lia.
      * specialize (Hleast v z Hv Hz). lia.
  - apply igraph_2wheap_max_None in Hr. subst r. inversion Hmax; subst.
    split; [left; auto|].
    destruct (Hkeys u top (or_introl eq_refl)) as [zx [Hzx Hkx]].
    exists zx. split; [auto|]. split; [auto|].
    intros v z [Hv|[]] Hz. inversion Hv as [[E1 E2]]. rewrite Hkx in E2.
    apply dij_key_inj in E2; try lia.
Qed.

(** ** Dijkstra's algorithm on integer weights *)

Lemma dij_relax_cons g weights stamp minnei mindist e es st :
  dij_relax g weights stamp minnei mindist (e :: es) st
  = let to := IGRAPH_OTHER g e minnei in
    let altdist := PrimFloat.add mindist (nth e weights 0%float) in
    let curdist := nth to (dj_dist st) 0%float in
    if negb (nth to (dj_which st) 0 =? stamp) then
      dij_relax g weights stamp minnei mindist es
        {| dj_Q := igraph_2wheap_push_with_index (dj_Q st) to (PrimFloat.opp altdist);
           dj_which := vector_set (dj_which st) to stamp;
           dj_dist := vector_set (dj_dist st) to altdist;
           dj_reached := dj_reached st;
           dj_sum := dj_sum st;
           dj_mindist := dj_mindist st |}
    else if (if PrimFloat.eqb curdist 0 then -1
             else igraph_cmp_epsilon altdist curdist IGRAPH_SHORTEST_PATH_EPSILON) <? 0 then
      dij_relax g weights stamp minnei mindist es
        {| dj_Q := igraph_2wheap_modify (dj_Q st) to (PrimFloat.opp altdist);
           dj_which := dj_which st;
           dj_dist := vector_set (dj_dist st) to altdist;
           dj_reached := dj_reached st;
           dj_sum := dj_sum st;
           dj_mindist := dj_mindist st |}
    else dij_relax g weights stamp minnei mindist es st.
Proof. reflexivity. Qed.

Lemma cmp_result_int a c :
  1 <= a < 2 ^ 53 -> 1 <= c < 2 ^ 53 ->
  ((if PrimFloat.eqb (real_of_long c) 0 then -1
    else igraph_cmp_epsilon (real_of_long a) (real_of_long c) IGRAPH_SHORTEST_PATH_EPSILON)
   <? 0) = (a <? c).
Proof.
  intros Ha Hc. rewrite real_of_long_nonzero by lia.
  destruct (Z.ltb_spec a c).
  - apply igraph_cmp_epsilon_lt; lia.
  - apply igraph_cmp_epsilon_int; lia.
Qed.

Lemma in_fst_pair {A B : Type} (l : list (A * B)) v k : In (v, k) l -> In v (map fst l).
Proof. intros H. apply in_map_iff. exists (v, k). auto. Qed.

(** The popped and the queued vertices are vertices of the graph, each
    once, so there are at most [vcount] of them. *)
Lemma dij_int_count g mode W Wmax stamp source popped st :
  stamp <> 0 -> dij_int_inv g mode W Wmax stamp source popped st ->
  (length popped + length (dj_Q st) <= vcount g)%nat.
Proof.
  intros Hs H. destruct H as [Hl _ Hnd Hst _ _ _ _ _].
  assert (Hincl : incl (map fst popped ++ map fst (dj_Q st)) (seq 0 (vcount g))).
  { intros v Hv. apply Hst in Hv. apply in_seq. split; [lia|]. simpl. rewrite <- Hl.
    eapply nth_stamp_in_range; eauto. }
  pose proof (NoDup_incl_length Hnd Hincl) as Hlen.
  rewrite length_app, !length_map, length_seq in Hlen. exact Hlen.
Qed.

(** With at most [n] vertices popped and weights up to [Wmax], every
    distance plus one, and every sum the engine forms, is below 2^53. *)
Lemma weight_bound n p Wmax :
  0 <= p <= n -> 0 <= Wmax -> n * n * (Wmax + 1) < 2 ^ 53 ->
  1 + p * Wmax < 2 ^ 53 /\ p * (n * Wmax) + n * n < 2 ^ 53 + n * n * Wmax
  /\ p * (n * Wmax) + n * n <= n * n * (Wmax + 1).
Proof.
  intros Hp HW Hb. assert (H1 : 1 < 2 ^ 53) by reflexivity.
  set (P := 2 ^ 53) in *. clearbody P.
  assert (p * Wmax <= n * Wmax) by nia.
  assert (p * (n * Wmax) <= n * (n * Wmax)) by nia.
  destruct (Z.eq_dec n 0) as [->|Hn]; [assert (p = 0) by lia; subst; lia|].
  assert (n * Wmax + 1 <= n * n * (Wmax + 1)) by nia.
  split; [lia|]. split; nia.
Qed.

(** A stamped vertex has its distance plus one on record. *)
Lemma stamped_recorded g mode W Wmax stamp source popped st v :
  stamp <> 0 -> 0 <= Wmax ->
  Z.of_nat (vcount g) * Z.of_nat (vcount g) * (Wmax + 1) < 2 ^ 53 ->
  dij_int_inv g mode W Wmax stamp source popped st ->
  nth v (dj_which st) 0 = stamp ->
  exists c, recorded stamp st v c
            /\ (In (v, c - 1) popped \/ In (v, dij_key c) (dj_Q st))
            /\ c <= 1 + Z.of_nat (length popped) * Wmax.
Proof.
  intros Hs HW0 Hb H Hv. pose proof (dij_int_count _ _ _ _ _ _ _ _ Hs H) as Hcount.
  pose proof H as [_ _ _ Hst Hq Hp _ _ _].
  assert (Hsmall : 1 + Z.of_nat (length popped) * Wmax < 2 ^ 53).
  { apply (weight_bound (Z.of_nat (vcount g))); auto. lia. }
  apply Hst in Hv as Hin. apply in_app_or in Hin. destruct Hin as [Hin|Hin].
  - apply in_fst_exists in Hin. destruct Hin as [d Hd].
    destruct (Hp v d Hd) as [Hd0 [Hd1 [Hd2 _]]].
    exists (d + 1). split; [split; [exact Hv|split; [exact Hd2|nia]]|].
    split; [left; replace (d + 1 - 1) with d by lia; exact Hd|nia].
  - apply in_map_iff in Hin. destruct Hin as [[v' k] [Hfst Hin]]. simpl in Hfst. subst v'.
    destruct (Hq v k Hin) as [z [Hz [Hk [Hd _]]]].
    exists z. split; [split; [exact Hv|split; [exact Hd|lia]]|].
    split; [right; rewrite <- Hk; exact Hin|lia].
Qed.

Lemma improves_refl stamp st : improves stamp st st.
Proof. intros v z H. exists z. split; [exact H|lia]. Qed.

Lemma improves_trans stamp st1 st2 st3 :
  improves stamp st1 st2 -> improves stamp st2 st3 -> improves stamp st1 st3.
Proof.
  intros H1 H2 v z Hz. destruct (H1 v z Hz) as [z' [Hz' Hle]].
  destruct (H2 v z' Hz') as [z'' [Hz'' Hle']]. exists z''. split; [exact Hz''|lia].
Qed.

(** The first visit of a vertex keeps the invariant. *)
Lemma dij_push_int g mode W Wmax stamp source popped st to alt :
  stamp <> 0 -> 0 <= Wmax ->
  Z.of_nat (vcount g) * Z.of_nat (vcount g) * (Wmax + 1) < 2 ^ 53 ->
  dij_int_inv g mode W Wmax stamp source popped st ->
  (to < vcount g)%nat -> nth to (dj_which st) 0 <> stamp ->
  1 <= alt <= 1 + Z.of_nat (length popped) * Wmax ->
  wwalk g mode W source to (alt - 1) ->
  (forall v d, In (v, d) popped -> d + 1 <= alt) ->
  let st' := {| dj_Q := igraph_2wheap_push_with_index (dj_Q st) to
                          (PrimFloat.opp (real_of_long alt));
                dj_which := vector_set (dj_which st) to stamp;
                dj_dist := vector_set (dj_dist st) to (real_of_long alt);
                dj_reached := dj_reached st;
                dj_sum := dj_sum st;
                dj_mindist := dj_mindist st |} in
  dij_int_inv g mode W Wmax stamp source popped st'
  /\ improves stamp st st' /\ recorded stamp st' to alt.
Proof.
  intros Hs HW0 Hb Hinv Hto Hnst Halt Hwalk Hord st'.
  pose proof (dij_int_count _ _ _ _ _ _ _ _ Hs Hinv) as Hcount.
  assert (Hsmall : 1 + Z.of_nat (length popped) * Wmax < 2 ^ 53).
  { apply (weight_bound (Z.of_nat (vcount g))); auto. lia. }
  pose proof Hinv as [Hl Hdl Hnd Hst Hq Hp Hsrc Hsum Hre].
  assert (Hnotin : ~ In to (map fst popped ++ map fst (dj_Q st))).
  { intros Hin. apply Hst in Hin. contradiction. }
  assert (Hother : forall v, nth v (dj_which st) 0 = stamp -> v <> to).
  { intros v Hv ->. contradiction. }
  assert (Hrec : recorded stamp st' to alt).
  { unfold recorded, st'; simpl. rewrite !nth_vector_set_same by lia. split; [auto|].
    split; [auto|lia]. }
  assert (Himp : improves stamp st st').
  { intros v z [Hv [Hd Hz]]. exists z. split; [|lia]. pose proof (Hother v Hv) as Hne.
    unfold recorded, st'; simpl. rewrite !nth_vector_set_other by auto. auto. }
  split; [|split; [exact Himp|exact Hrec]].
  constructor; unfold st'; cbn [dj_Q dj_which dj_dist dj_reached dj_sum dj_mindist].
  - rewrite vector_set_length. exact Hl.
  - rewrite vector_set_length. exact Hdl.
  - unfold igraph_2wheap_push_with_index. rewrite map_app, app_assoc. cbn [map fst].
    apply NoDup_app; [exact Hnd|constructor; [intros []|constructor]|].
    intros x Hx [<-|[]]. contradiction.
  - intros v. unfold igraph_2wheap_push_with_index.
    rewrite nth_vector_set, map_app, app_assoc, in_app_iff. cbn [map fst In].
    destruct (Nat.eqb_spec v to) as [->|Hvt]; cbn [andb].
    + destruct (Nat.ltb_spec to (length (dj_which st))); [|lia]. split; auto.
    + rewrite Hst. split; [auto|]. intros [H|[H|[]]]; [auto|congruence].
  - intros v k Hin. unfold igraph_2wheap_push_with_index in Hin. apply in_app_or in Hin.
    destruct Hin as [Hin|[Hin|[]]].
    + destruct (Hq v k Hin) as [z [Hz [Hk [Hd [Hw Ho]]]]].
      exists z. split; [exact Hz|]. split; [exact Hk|]. split; [|split; [exact Hw|exact Ho]].
      rewrite nth_vector_set_other; [exact Hd|]. apply Hother. apply Hst.
      apply in_or_app. right. eapply in_fst_pair; eauto.
    + inversion Hin; subst. exists alt. split; [lia|]. split; [reflexivity|].
      split; [apply nth_vector_set_same; lia|]. split; [exact Hwalk|exact Hord].
  - intros v d Hin. destruct (Hp v d Hin) as [H1 [H2 [H3 H4]]].
    split; [exact H1|]. split; [exact H2|]. split; [|exact H4].
    rewrite nth_vector_set_other; [exact H3|]. apply Hother. apply Hst.
    apply in_or_app. left. eapply in_fst_pair; eauto.
  - destruct Hsrc as [Hsw [Hsd Hs1]]. pose proof (Hother source Hsw) as Hne.
    unfold recorded; simpl. rewrite !nth_vector_set_other by auto. auto.
  - exact Hsum.
  - exact Hre.
Qed.

(** A shorter path to a queued vertex keeps the invariant. *)
Lemma dij_modify_int g mode W Wmax stamp source popped st to alt c :
  stamp <> 0 -> 0 <= Wmax ->
  Z.of_nat (vcount g) * Z.of_nat (vcount g) * (Wmax + 1) < 2 ^ 53 ->
  dij_int_inv g mode W Wmax stamp source popped st ->
  (to < vcount g)%nat -> recorded stamp st to c -> In (to, dij_key c) (dj_Q st) ->
  1 <= alt < c ->
  wwalk g mode W source to (alt - 1) ->
  (forall v d, In (v, d) popped -> d + 1 <= alt) ->
  let st' := {| dj_Q := igraph_2wheap_modify (dj_Q st) to (PrimFloat.opp (real_of_long alt));
                dj_which := dj_which st;
                dj_dist := vector_set (dj_dist st) to (real_of_long alt);
                dj_reached := dj_reached st;
                dj_sum := dj_sum st;
                dj_mindist := dj_mindist st |} in
  dij_int_inv g mode W Wmax stamp source popped st'
  /\ improves stamp st st' /\ recorded stamp st' to alt.
Proof.
  intros Hs HW0 Hb Hinv Hto [Hcw [Hcd Hc]] Hqc Halt Hwalk Hord st'.
  pose proof (dij_int_count _ _ _ _ _ _ _ _ Hs Hinv) as Hcount.
  assert (Hsmall : 1 + Z.of_nat (length popped) * Wmax < 2 ^ 53).
  { apply (weight_bound (Z.of_nat (vcount g))); auto. lia. }
  pose proof Hinv as [Hl Hdl Hnd Hst Hq Hp Hsrc Hsum Hre].
  assert (Hqto : In to (map fst (dj_Q st))) by (eapply in_fst_pair; eauto).
  assert (Hnp : forall v d, In (v, d) popped -> v <> to).
  { intros v d Hin ->. apply NoDup_app_remove_l in Hnd as Hnq.
    assert (Hin' : In to (map fst popped)) by (eapply in_fst_pair; eauto).
    clear - Hnd Hin' Hqto. induction (map fst popped) as [|x r IH]; [contradiction|].
    simpl in Hnd. inversion Hnd as [|? ? Hx Hr]; subst.
    destruct Hin' as [->|Hin']; [apply Hx; apply in_or_app; right; exact Hqto|auto]. }
  assert (Hrec : recorded stamp st' to alt).
  { unfold recorded, st'; simpl. rewrite nth_vector_set_same by lia. split; [auto|].
    split; [auto|lia]. }
  assert (Himp : improves stamp st st').
  { intros v z [Hv [Hd Hz]]. destruct (Nat.eq_dec v to) as [->|Hne].
    - exists alt. split; [exact Hrec|]. rewrite Hcd in Hd.
      apply real_of_long_inj in Hd; lia.
    - exists z. split; [|lia]. unfold recorded, st'; simpl.
      rewrite nth_vector_set_other by auto. auto. }
  split; [|split; [exact Himp|exact Hrec]].
  constructor; unfold st'; cbn [dj_Q dj_which dj_dist dj_reached dj_sum dj_mindist].
  - exact Hl.
  - rewrite vector_set_length. exact Hdl.
  - rewrite igraph_2wheap_modify_fst. exact Hnd.
  - intros v. rewrite igraph_2wheap_modify_fst. apply Hst.
  - intros v k Hin. apply igraph_2wheap_modify_In_iff in Hin.
    destruct Hin as [[Hne Hin]|[-> [-> _]]].
    + destruct (Hq v k Hin) as [z [Hz [Hk [Hd [Hw Ho]]]]].
      exists z. split; [exact Hz|]. split; [exact Hk|]. split; [|split; [exact Hw|exact Ho]].
      rewrite nth_vector_set_other by auto. exact Hd.
    + destruct (Hq to (dij_key c) Hqc) as [z [Hz [Hk [Hd _]]]].
      apply dij_key_inj in Hk; [|lia|lia]. subst z.
      exists alt. split; [lia|]. split; [reflexivity|].
      split; [apply nth_vector_set_same; lia|]. split; [exact Hwalk|exact Hord].
  - intros v d Hin. destruct (Hp v d Hin) as [H1 [H2 [H3 H4]]].
    split; [exact H1|]. split; [exact H2|]. split; [|exact H4].
    rewrite nth_vector_set_other; [exact H3|]. eapply Hnp; eauto.
  - destruct Hsrc as [Hsw [Hsd Hs1]].
    assert (Hne : source <> to).
    { intros ->. rewrite Hcd in Hsd. apply real_of_long_inj in Hsd; lia. }
    unfold recorded; simpl. rewrite nth_vector_set_other by auto. auto.
  - exact Hsum.
  - exact Hre.
Qed.

(** The relaxation of the edges of the vertex [u], popped at distance [du]. *)
Lemma dij_relax_int g mode W Wmax stamp source u du popped :
  graph_wf g = true -> stamp <> 0 -> 0 <= Wmax ->
  Z.of_nat (vcount g) * Z.of_nat (vcount g) * (Wmax + 1) < 2 ^ 53 ->
  (forall e, (e < length (edges g))%nat -> 1 <= nth e W 0 <= Wmax) ->
  In (u, du) popped -> (forall v d, In (v, d) popped -> d <= du) ->
  forall es st,
    (forall e, In e es -> In e (igraph_incident g mode u)) ->
    dij_int_inv g mode W Wmax stamp source popped st ->
    let st' := dij_relax g (int_weights W) stamp u (real_of_long (du + 1)) es st in
    dij_int_inv g mode W Wmax stamp source popped st'
    /\ improves stamp st st'
    /\ (forall e, In e es ->
          exists z, recorded stamp st' (IGRAPH_OTHER g e u) z /\ z <= du + 1 + nth e W 0).
Proof.
  intros Hwf Hs HW0 Hb HW Hu Hmax. induction es as [|e es IH]; intros st Hsub Hinv.
  - simpl. split; [exact Hinv|]. split; [apply improves_refl|]. intros e [].
  - assert (Hein : In e (igraph_incident g mode u)) by (apply Hsub; left; auto).
    assert (Hsub' : forall x, In x es -> In x (igraph_incident g mode u))
      by (intros x Hx; apply Hsub; right; auto).
    pose proof (igraph_incident_range g mode u e Hein) as He.
    pose proof (IGRAPH_OTHER_range g e u Hwf He) as Hto.
    pose proof (HW e He) as HWe.
    pose proof (dij_int_count _ _ _ _ _ _ _ _ Hs Hinv) as Hcount.
    assert (Hsmall : 1 + Z.of_nat (length popped) * Wmax < 2 ^ 53).
    { apply (weight_bound (Z.of_nat (vcount g))); auto. lia. }
    destruct (dn_popped _ _ _ _ _ _ _ _ Hinv u du Hu) as [Hdu0 [Hdu1 [_ [Hwalk _]]]].
    set (to := IGRAPH_OTHER g e u) in *.
    set (alt := du + 1 + nth e W 0).
    assert (Halt : 1 <= alt <= 1 + Z.of_nat (length popped) * Wmax) by (unfold alt; lia).
    assert (Hwalk' : wwalk g mode W source to (alt - 1)).
    { replace (alt - 1) with (du + nth e W 0) by (unfold alt; lia).
      unfold to. apply wwalk_step; auto. }
    assert (Hord : forall v d, In (v, d) popped -> d + 1 <= alt).
    { intros v d Hin. specialize (Hmax v d Hin). unfold alt. lia. }
    cbv zeta. rewrite dij_relax_cons. cbv zeta. fold to.
    rewrite int_weights_nth, real_of_long_add by lia. fold alt.
    destruct (Z.eqb_spec (nth to (dj_which st) 0) stamp) as [Hst|Hnst]; cbn [negb].
    + destruct (stamped_recorded g mode W Wmax stamp source popped st to Hs HW0 Hb Hinv Hst)
        as [c [Hrec [Hwhere Hcb]]].
      pose proof Hrec as [_ [Hdist Hc]]. rewrite Hdist, cmp_result_int by lia.
      destruct (Z.ltb_spec alt c) as [Hlt|Hge].
      * destruct Hwhere as [Hpop|Hqc].
        { specialize (Hmax to (c - 1) Hpop). unfold alt in Hlt. lia. }
        destruct (dij_modify_int g mode W Wmax stamp source popped st to alt c Hs HW0 Hb
                    Hinv Hto Hrec Hqc ltac:(lia) Hwalk' Hord) as [M1 [M2 M3]].
        cbv zeta in M1, M2, M3.
        destruct (IH _ Hsub' M1) as [I1 [I2 I3]]. cbv zeta in I1, I2, I3.
        split; [exact I1|]. split; [eapply improves_trans; eauto|].
        intros x [<-|Hx]; [|apply I3; exact Hx].
        destruct (I2 to alt M3) as [z' [Hz' Hle]]. exists z'. split; [exact Hz'|].
        fold alt. lia.
      * destruct (IH st Hsub' Hinv) as [I1 [I2 I3]]. cbv zeta in I1, I2, I3.
        split; [exact I1|]. split; [exact I2|].
        intros x [<-|Hx]; [|apply I3; exact Hx].
        destruct (I2 to c Hrec) as [z' [Hz' Hle]]. exists z'. split; [exact Hz'|].
        fold alt. lia.
    + destruct (dij_push_int g mode W Wmax stamp source popped st to alt Hs HW0 Hb
                  Hinv Hto Hnst Halt Hwalk' Hord) as [M1 [M2 M3]].
      cbv zeta in M1, M2, M3.
      destruct (IH _ Hsub' M1) as [I1 [I2 I3]]. cbv zeta in I1, I2, I3.
      split; [exact I1|]. split; [eapply improves_trans; eauto|].
      intros x [<-|Hx]; [|apply I3; exact Hx].
      destruct (I2 to alt M3) as [z' [Hz' Hle]]. exists z'. split; [exact Hz'|].
      fold alt. lia.
Qed.

Lemma nodup_app_disjoint {A : Type} (a b : list A) x :
  NoDup (a ++ b) -> In x a -> ~ In x b.
Proof.
  induction a as [|y r IH]; simpl; intros Hnd Hin; [contradiction|].
  inversion Hnd as [|? ? Hy Hr]; subst. destruct Hin as [->|Hin]; [|auto].
  intros Hb. apply Hy. apply in_or_app. right. exact Hb.
Qed.

(** Moving a queued vertex to the popped ones keeps every vertex once. *)
Lemma nodup_move (a b b' : list nat) u :
  NoDup (a ++ b) -> NoDup b' -> (forall v, In v b' <-> In v b /\ v <> u) -> In u b ->
  NoDup ((a ++ [u]) ++ b').
Proof.
  intros Hnd Hb' Hiff Hu.
  apply NoDup_app; [apply NoDup_app| |]; auto.
  - eapply NoDup_app_remove_r; eauto.
  - constructor; [intros []|constructor].
  - intros x Hx [<-|[]]. eapply nodup_app_disjoint; eauto.
  - intros x Hx Hx'. apply Hiff in Hx'. destruct Hx' as [Hxb Hne].
    apply in_app_or in Hx. destruct Hx as [Hx|[<-|[]]]; [|congruence].
    eapply nodup_app_disjoint; eauto.
Qed.

(** Every walk ends at a popped vertex whose distance is at most the weight
    of the walk, or its weight is at least the distance of a queued
    vertex. *)
Lemma wwalk_known g mode W Wmax stamp source popped st :
  stamp <> 0 -> 0 <= Wmax ->
  Z.of_nat (vcount g) * Z.of_nat (vcount g) * (Wmax + 1) < 2 ^ 53 ->
  (forall e, (e < length (edges g))%nat -> 1 <= nth e W 0 <= Wmax) ->
  dij_int_inv g mode W Wmax stamp source popped st ->
  settled g mode W stamp popped st ->
  forall v L, wwalk g mode W source v L ->
    (exists d, In (v, d) popped /\ d <= L)
    \/ (exists y z, In (y, dij_key z) (dj_Q st) /\ 1 <= z < 2 ^ 53 /\ z - 1 <= L).
Proof.
  intros Hs HW0 Hb HW Hinv Hset v L Hw.
  assert (Hknown : forall x z, recorded stamp st x z ->
            In (x, z - 1) popped \/ In (x, dij_key z) (dj_Q st)).
  { intros x z [Hx [Hd Hz]].
    destruct (stamped_recorded g mode W Wmax stamp source popped st x Hs HW0 Hb Hinv Hx)
      as [c [[_ [Hcd Hc]] [Hwhere _]]].
    rewrite Hd in Hcd. apply real_of_long_inj in Hcd; [|lia|lia]. subst c. exact Hwhere. }
  induction Hw as [|u e L Hw IH He].
  - pose proof (dn_source _ _ _ _ _ _ _ _ Hinv) as Hsrc.
    destruct (Hknown source 1 Hsrc) as [H|H].
    + left. exists 0. split; [exact H|lia].
    + right. exists source, 1. split; [exact H|]. split; [|lia].
      assert (2 < 2 ^ 53) by reflexivity. lia.
  - pose proof (HW e (igraph_incident_range g mode u e He)) as HWe.
    destruct IH as [[d [Hd Hle]]|[y [z [Hy [Hz Hle]]]]].
    + destruct (Hset u d e Hd He) as [z [Hrec Hz]].
      pose proof Hrec as [_ [_ Hzr]].
      destruct (Hknown _ z Hrec) as [H|H].
      * left. exists (z - 1). split; [exact H|lia].
      * right. exists (IGRAPH_OTHER g e u), z. split; [exact H|]. split; [exact Hzr|lia].
    + right. exists y, z. split; [exact Hy|]. split; [exact Hz|lia].
Qed.

Lemma settled_improves g mode W stamp done st st' :
  settled g mode W stamp done st -> improves stamp st st' -> settled g mode W stamp done st'.
Proof.
  intros Hset Himp u d e Hu He. destruct (Hset u d e Hu He) as [z [Hrec Hz]].
  destruct (Himp _ z Hrec) as [z' [Hrec' Hle]]. exists z'. split; [exact Hrec'|lia].
Qed.

(** A vertex popped from the heap has its weighted distance on record. *)
Lemma dij_pop_int g mode W Wmax stamp source popped st u top :
  stamp <> 0 -> 0 <= Wmax ->
  Z.of_nat (vcount g) * Z.of_nat (vcount g) * (Wmax + 1) < 2 ^ 53 ->
  (forall e, (e < length (edges g))%nat -> 1 <= nth e W 0 <= Wmax) ->
  dij_int_inv g mode W Wmax stamp source popped st ->
  settled g mode W stamp popped st ->
  igraph_2wheap_max (dj_Q st) = Some (u, top) ->
  exists du,
    PrimFloat.opp top = real_of_long (du + 1)
    /\ (forall v d, In (v, d) (popped ++ [(u, du)]) -> d <= du)
    /\ dij_int_inv g mode W Wmax stamp source (popped ++ [(u, du)])
         {| dj_Q := igraph_2wheap_remove (dj_Q st) u;
            dj_which := dj_which st;
            dj_dist := dj_dist st;
            dj_reached := dj_reached st + 1;
            dj_sum := PrimFloat.add (dj_sum st) (PrimFloat.sub (PrimFloat.opp top) 1);
            dj_mindist := PrimFloat.opp top |}.
Proof.
  intros Hs HW0 Hb HW Hinv Hset Hmax.
  pose proof (dij_int_count _ _ _ _ _ _ _ _ Hs Hinv) as Hcount.
  pose proof Hinv as [Hl Hdl Hnd Hst Hq Hp Hsrc Hsum Hre].
  assert (Hn : 0 <= Z.of_nat (length popped) <= Z.of_nat (vcount g)) by lia.
  destruct (weight_bound _ _ _ Hn HW0 Hb) as [Hsmall _].
  destruct (igraph_2wheap_max_least (dj_Q st) u top Hmax) as [Hin [zu [Hzu [Htop Hleast]]]].
  { intros v k Hv. destruct (Hq v k Hv) as [z [Hz [Hk _]]]. exists z. split; [lia|exact Hk]. }
  destruct (Hq u top Hin) as [z [Hz [Hk [Hd [Hw Ho]]]]].
  rewrite Htop in Hk. apply dij_key_inj in Hk; [|lia|lia]. subst z.
  assert (Hndq : NoDup (map fst (dj_Q st))) by (eapply NoDup_app_remove_l; eauto).
  assert (Huq : In u (map fst (dj_Q st))) by (eapply in_fst_pair; eauto).
  assert (Hupop : forall d, ~ In (u, d) popped).
  { intros d Hd'. eapply (nodup_app_disjoint _ _ u Hnd); eauto. eapply in_fst_pair; eauto. }
  assert (Hlen1 : (1 <= length (dj_Q st))%nat).
  { destruct (dj_Q st); [contradiction|simpl; lia]. }
  exists (zu - 1). replace (zu - 1 + 1) with zu by lia.
  split; [rewrite Htop; apply dij_key_opp|]. split.
  { intros v d Hv. apply in_app_or in Hv. destruct Hv as [Hv|[Hv|[]]].
    - specialize (Ho v d Hv). lia.
    - inversion Hv; subst. lia. }
  assert (Hwd : weighted_distance g mode W source u (zu - 1)).
  { split; [exact Hw|]. intros L HL.
    destruct (wwalk_known g mode W Wmax stamp source popped st Hs HW0 Hb HW Hinv Hset u L HL)
      as [[d [Hd' _]]|[y [z [Hy [Hz' Hle]]]]].
    - elim (Hupop d Hd').
    - specialize (Hleast y z Hy Hz'). lia. }
  constructor; cbn [dj_Q dj_which dj_dist dj_reached dj_sum dj_mindist].
  - exact Hl.
  - exact Hdl.
  - rewrite map_app. cbn [map fst]. apply (nodup_move _ (map fst (dj_Q st))); auto.
    + apply igraph_2wheap_remove_nodup. exact Hndq.
    + intros v. apply igraph_2wheap_remove_fst. exact Hndq.
  - intros v. rewrite Hst, map_app, !in_app_iff. cbn [map fst In].
    rewrite (igraph_2wheap_remove_fst (dj_Q st) u v Hndq).
    destruct (Nat.eq_dec v u) as [->|Hne]; [tauto|].
    split; [intros [H|H]; auto|intros [[H|[H|[]]]|[H _]]; auto]. congruence.
  - intros v k Hv. apply (igraph_2wheap_remove_In_iff (dj_Q st) u v k Hndq) in Hv.
    destruct Hv as [Hv Hne].
    destruct (Hq v k Hv) as [z [Hz' [Hk' [Hd' [Hw' Ho']]]]].
    pose proof Hv as Hvz. rewrite Hk' in Hvz.
    pose proof (Hleast v z Hvz ltac:(lia)) as Hlz.
    exists z. rewrite length_app, Nat2Z.inj_add. cbn [length].
    split; [nia|]. split; [exact Hk'|]. split; [exact Hd'|]. split; [exact Hw'|].
    intros x d Hx. apply in_app_or in Hx. destruct Hx as [Hx|[Hx|[]]]; [apply (Ho' x d Hx)|].
    inversion Hx; subst. lia.
  - intros v d Hv. rewrite length_app, Nat2Z.inj_add. cbn [length].
    apply in_app_or in Hv. destruct Hv as [Hv|[Hv|[]]].
    + destruct (Hp v d Hv) as [H1 [H2 [H3 H4]]]. split; [exact H1|]. split; [nia|].
      split; [exact H3|exact H4].
    + inversion Hv; subst. split; [lia|]. split; [nia|].
      split; [replace (zu - 1 + 1) with zu by lia; exact Hd|exact Hwd].
  - exact Hsrc.
  - rewrite Htop, dij_key_opp, Hsum. change 1%float with (real_of_long 1).
    rewrite real_of_long_sub by lia.
    rewrite distance_sum_app. unfold distance_sum at 3. cbn [map snd fold_right].
    rewrite Z.add_0_r.
    assert (Hds : 0 <= distance_sum popped
                  <= Z.of_nat (length popped) * (Z.of_nat (vcount g) * Wmax)).
    { apply distance_sum_bound; [nia|]. intros v d Hv.
      destruct (Hp v d Hv) as [H1 [H2 _]]. nia. }
    assert (Hn' : 0 <= Z.of_nat (length popped) + 1 <= Z.of_nat (vcount g)) by lia.
    destruct (weight_bound _ _ _ Hn' HW0 Hb) as [_ [_ Hb3]].
    apply real_of_long_add; try lia.
    assert (zu - 1 <= Z.of_nat (vcount g) * Wmax) by nia.
    assert (0 <= Z.of_nat (vcount g) * Z.of_nat (vcount g)) by nia.
    nia.
  - rewrite length_app, Nat2Z.inj_add, Hre. reflexivity.
Qed.

Lemma dij_while_int g mode W Wmax cutoff stamp source :
  graph_wf g = true -> stamp <> 0 -> 0 <= Wmax ->
  Z.of_nat (vcount g) * Z.of_nat (vcount g) * (Wmax + 1) < 2 ^ 53 ->
  (forall e, (e < length (edges g))%nat -> 1 <= nth e W 0 <= Wmax) ->
  PrimFloat.leb 0 cutoff = false ->
  forall fuel st popped st',
    dij_while fuel g mode (int_weights W) cutoff stamp st = Some st' ->
    dij_int_inv g mode W Wmax stamp source popped st ->
    settled g mode W stamp popped st ->
    exists popped',
      dij_int_inv g mode W Wmax stamp source popped' st' /\ dj_Q st' = []
      /\ settled g mode W stamp popped' st'.
Proof.
  intros Hwf Hs HW0 Hb HW Hc. induction fuel as [|fuel IH]; intros st popped st' Hrun Hinv Hset.
  - simpl in Hrun.
    destruct (igraph_2wheap_max (dj_Q st)) as [[u top]|] eqn:Hmax; [discriminate|].
    inversion Hrun; subst. apply igraph_2wheap_max_None in Hmax. eauto.
  - destruct (igraph_2wheap_max (dj_Q st)) as [[u top]|] eqn:Hmax.
    + rewrite (dij_while_step _ _ _ _ _ _ _ _ _ Hmax) in Hrun. cbv zeta in Hrun.
      rewrite beyond_cutoff_weighted_none in Hrun by exact Hc.
      destruct (dij_pop_int g mode W Wmax stamp source popped st u top Hs HW0 Hb HW Hinv
                  Hset Hmax) as [du [Htop [Hle Hinv1]]].
      rewrite Htop in Hrun, Hinv1.
      match type of Hinv1 with dij_int_inv _ _ _ _ _ _ _ ?s => set (st1 := s) in * end.
      assert (Hu : In (u, du) (popped ++ [(u, du)])) by (apply in_or_app; right; left; auto).
      destruct (dij_relax_int g mode W Wmax stamp source u du (popped ++ [(u, du)])
                  Hwf Hs HW0 Hb HW Hu Hle (igraph_incident g mode u) st1 (fun e H => H)
                  Hinv1) as [R1 [R2 R3]].
      cbv zeta in R1, R2, R3.
      apply (IH _ (popped ++ [(u, du)]) st' Hrun R1).
      intros x d e Hx He. apply in_app_or in Hx. destruct Hx as [Hx|[Hx|[]]].
      * assert (Hset1 : settled g mode W stamp popped st1) by exact Hset.
        apply (settled_improves g mode W stamp popped st1 _ Hset1 R2 x d e Hx He).
      * inversion Hx; subst. apply R3. exact He.
    + simpl in Hrun. rewrite Hmax in Hrun. inversion Hrun; subst.
      apply igraph_2wheap_max_None in Hmax. eauto.
Qed.

Lemma wwalk_reachable g mode W s v L : wwalk g mode W s v L -> reachable g mode s v.
Proof.
  induction 1 as [|u e L Hw IH He]; [constructor|].
  apply (reach_step g mode s u); [exact IH|].
  unfold igraph_neighbors. apply in_map_iff. exists e. auto.
Qed.

Lemma reachable_wwalk g mode W s v : reachable g mode s v -> exists L, wwalk g mode W s v L.
Proof.
  induction 1 as [|u v Hu [L IH] Hv]; [exists 0; constructor|].
  unfold igraph_neighbors in Hv. apply in_map_iff in Hv. destruct Hv as [e [<- He]].
  exists (L + nth e W 0). constructor; auto.
Qed.

(** The trace of Dijkstra's algorithm from one source on integer weights,
    without a cutoff. *)
Lemma dij_source_trace g mode W Wmax cutoff i source which dist mindist :
  graph_wf g = true -> 0 <= Wmax ->
  Z.of_nat (vcount g) * Z.of_nat (vcount g) * (Wmax + 1) < 2 ^ 53 ->
  (forall e, (e < length (edges g))%nat -> 1 <= nth e W 0 <= Wmax) ->
  PrimFloat.leb 0 cutoff = false ->
  (source < vcount g)%nat -> stamps_upto g i which -> length dist = vcount g ->
  exists d order,
    dij_source g mode (int_weights W) cutoff i source which dist mindist = Some d
    /\ NoDup (map fst order)
    /\ (forall v, In v (map fst order) <-> reachable g mode source v)
    /\ (forall v dv, In (v, dv) order -> weighted_distance g mode W source v dv)
    /\ dj_reached d = Z.of_nat (length order)
    /\ dj_sum d = real_of_long (distance_sum order)
    /\ dij_total g d
       = real_of_long (distance_sum order
                       + igraph_vcount g * (igraph_vcount g - Z.of_nat (length order))).
Proof.
  intros Hwf HW0 Hb HW Hc Hsrc Hst Hdl.
  destruct (dij_source_total g mode (int_weights W) cutoff i source which dist mindist
              Hwf Hsrc Hst) as [d [Hd _]].
  assert (Hs : Z.of_nat i + 1 <> 0) by lia.
  pose proof Hst as [Hlen Hup].
  unfold dij_source in Hd.
  destruct (dij_while_int g mode W Wmax cutoff (Z.of_nat i + 1) source Hwf Hs HW0 Hb HW Hc
              _ _ [] d Hd) as [order [Hinv [Hq Hset]]].
  { constructor; cbn [dj_Q dj_which dj_dist dj_reached dj_sum dj_mindist].
    - rewrite vector_set_length. exact Hlen.
    - rewrite vector_set_length. exact Hdl.
    - simpl. constructor; [intros []|constructor].
    - intros v. rewrite nth_vector_set. simpl.
      destruct (Nat.eqb_spec v source) as [->|Hne]; simpl.
      + destruct (Nat.ltb_spec source (length which)); [|lia]. split; auto.
      + pose proof (stale_stamps g i which v Hst) as Hx. apply Z.eqb_neq in Hx.
        split; [contradiction|]. intros [H|[]]. congruence.
    - intros v k [Hin|[]]. inversion Hin; subst. exists 1.
      split; [simpl; lia|]. split; [reflexivity|].
      split; [rewrite nth_vector_set_same by lia; reflexivity|].
      split; [constructor|]. intros u du [].
    - intros v dv [].
    - unfold recorded; simpl. rewrite !nth_vector_set_same by lia.
      split; [reflexivity|]. split; [reflexivity|].
      assert (2 < 2 ^ 53) by reflexivity. lia.
    - reflexivity.
    - reflexivity. }
  { intros u du e []. }
  exists d, order. split; [unfold dij_source; exact Hd|].
  pose proof (dij_int_count _ _ _ _ _ _ _ _ Hs Hinv) as Hcount.
  pose proof Hinv as [_ _ Hnd _ _ Hp _ Hsum Hre].
  rewrite Hq in Hnd, Hcount. simpl in Hnd, Hcount. rewrite app_nil_r in Hnd.
  split; [exact Hnd|]. split.
  { intros v. split.
    - intros Hin. apply in_fst_exists in Hin. destruct Hin as [dv Hdv].
      destruct (Hp v dv Hdv) as [_ [_ [_ [Hw _]]]]. eapply wwalk_reachable; eauto.
    - intros Hr. destruct (reachable_wwalk g mode W source v Hr) as [L HL].
      destruct (wwalk_known g mode W Wmax (Z.of_nat i + 1) source order d Hs HW0 Hb HW
                  Hinv Hset v L HL) as [[dv [Hdv _]]|[y [z [Hy _]]]].
      + eapply in_fst_pair; eauto.
      + rewrite Hq in Hy. contradiction. }
  split; [intros v dv Hin; apply (Hp v dv Hin)|].
  split; [exact Hre|]. split; [exact Hsum|].
  unfold dij_total, igraph_vcount. rewrite Hsum, Hre.
  assert (Hds : 0 <= distance_sum order
                <= Z.of_nat (length order) * (Z.of_nat (vcount g) * Wmax)).
  { apply distance_sum_bound; [nia|]. intros v dv Hv.
    destruct (Hp v dv Hv) as [H1 [H2 _]]. nia. }
  assert (Hn : 0 <= Z.of_nat (length order) <= Z.of_nat (vcount g)) by lia.
  destruct (weight_bound _ _ _ Hn HW0 Hb) as [_ [_ Hb3]].
  set (n := Z.of_nat (vcount g)) in *. set (r := Z.of_nat (length order)) in *.
  assert (0 <= n * (n - r) <= n * n) by nia.
  assert (n * n <= n * n * (Wmax + 1)) by nia.
  rewrite real_of_long_mul by nia.
  rewrite real_of_long_add by nia. reflexivity.
Qed.

(** The [k]-th entry of the result vector of a well-formed weighted call,
    from the divisor of its source. *)
Lemma weighted_call_score handler g res0 vids mode cutoff w normalized k d :
  graph_wf g = true -> invalid_mode mode = false -> igraph_vit_create g vids = true ->
  weights_accepted g (Some w) = true -> (k < length vids)%nat ->
  dij_source g mode w cutoff O (nth k vids O) (repeat 0 (vcount g))
    (repeat 0%float (vcount g)) 0%float = Some d ->
  nth k (res (igraph_closeness_estimate handler g res0 vids mode cutoff (Some w) normalized))
    0%float
  = if normalized then closeness_score (igraph_vcount g) (dij_total g d)
    else PrimFloat.div (closeness_score (igraph_vcount g) (dij_total g d))
           (real_of_long (igraph_vcount g - 1)).
Proof.
  intros Hwf Hm Hv Hw Hk Hd.
  unfold igraph_closeness_estimate, igraph_i_closeness_estimate_weighted,
    igraph_lazy_inclist_init.
  unfold weights_accepted in Hw. apply andb_true_iff in Hw. destruct Hw as [Hl Hmin].
  rewrite Hl. cbn [negb].
  destruct (igraph_vector_min w) as [m|]; [|discriminate].
  apply negb_true_iff in Hmin. rewrite Hmin, Hv, Hm. cbn [negb].
  match goal with |- context [closeness_loop_weighted ?a ?b ?c ?d ?e ?f ?s] =>
    pose proof (closeness_loop_weighted_runs a b c d Hwf e f s Hv (stamps_upto_init g))
      as Hr;
    pose proof (closeness_loop_weighted_scores a b c d Hwf e f s [] Hv
                  (stamps_upto_init g) (repeat_length _ _) eq_refl eq_refl) as Hs;
    destruct (closeness_loop_weighted a b c d e f s) as [t st]
  end.
  simpl in Hr, Hs. subst t. simpl. rewrite Hs.
  rewrite nth_unnormalize by (rewrite length_map; exact Hk).
  rewrite (nth_indep _ 0%float (single_score_weighted g mode w cutoff O))
    by (rewrite length_map; exact Hk).
  rewrite map_nth. unfold single_score_weighted. rewrite Hd. reflexivity.
Qed.

(** ** Cutoffs that no distance reaches *)

Lemma bfs_neighbors_actdist stamp d neis :
  forall st, bfs_actdist (bfs_neighbors stamp d neis st) = bfs_actdist st.
Proof.
  induction neis as [|u neis IH]; intros st; simpl; auto.
  destruct (nth u (bfs_counted st) 0 =? stamp); rewrite IH; reflexivity.
Qed.

(** No vertex is dequeued at a distance of [vcount] or more, so an integer
    cutoff of at least [vcount - 1] never takes effect. *)
Lemma bfs_while_large_cutoff g mode C stamp source :
  graph_wf g = true -> stamp <> 0 -> Z.of_nat (vcount g) - 1 <= C < 2 ^ 53 ->
  forall fuel st,
    bfs_inv g mode stamp source st ->
    bfs_while fuel g mode (real_of_long C) stamp st
    = bfs_while fuel g mode (-1)%float stamp st.
Proof.
  intros Hwf Hs HC. induction fuel as [|fuel IH]; intros st Hinv.
  - reflexivity.
  - destruct st as [q c r sm ad]. destruct q as [|[act d] q']; [reflexivity|].
    simpl.
    destruct (bfs_pop_inv g mode stamp source act d q' c r sm ad Hs Hinv)
      as [Hinv1 [Hact [Hd Hr]]].
    rewrite beyond_cutoff_int by lia.
    try rewrite (beyond_cutoff_none (-1)%float d eq_refl).
    destruct (Z.ltb_spec C d); [lia|].
    apply IH.
    apply (bfs_neighbors_inv g mode stamp source act d Hwf Hs Hact (proj1 Hd)
             (igraph_neighbors g mode act) _ (fun u H => H)); [simpl; lia|exact Hinv1].
Qed.

Lemma bfs_while_actdist_bound g mode cutoff stamp source :
  graph_wf g = true -> stamp <> 0 ->
  forall fuel st b,
    bfs_while fuel g mode cutoff stamp st = Some b ->
    bfs_inv g mode stamp source st ->
    (bfs_q st = [] -> 0 <= bfs_actdist st <= Z.of_nat (vcount g) - 1) ->
    0 <= bfs_actdist b <= Z.of_nat (vcount g) - 1.
Proof.
  intros Hwf Hs. induction fuel as [|fuel IH]; intros st b Hrun Hinv Hb.
  - destruct st as [q c r sm ad]. destruct q as [|[act d] q']; [|discriminate].
    simpl in *. inversion Hrun; subst. simpl. auto.
  - destruct st as [q c r sm ad]. destruct q as [|[act d] q'].
    + simpl in *. inversion Hrun; subst. simpl. auto.
    + simpl in Hrun.
      destruct (bfs_pop_inv g mode stamp source act d q' c r sm ad Hs Hinv)
        as [Hinv1 [Hact [Hd Hr]]].
      destruct (beyond_cutoff cutoff d).
      * apply (IH _ b Hrun Hinv1). simpl. lia.
      * apply (IH _ b Hrun).
        -- apply (bfs_neighbors_inv g mode stamp source act d Hwf Hs Hact (proj1 Hd)
                    (igraph_neighbors g mode act) _ (fun u H => H));
             [simpl; lia|exact Hinv1].
        -- rewrite bfs_neighbors_actdist. simpl. lia.
Qed.

Lemma closeness_loop_large_cutoff handler g mode C :
  graph_wf g = true -> Z.of_nat (vcount g) - 1 <= C < 2 ^ 53 ->
  forall vit i st,
    igraph_vit_create g vit = true -> stamps_upto g i (ls_counted st) ->
    closeness_loop handler g mode (real_of_long C) vit i st
    = closeness_loop handler g mode (-1)%float vit i st.
Proof.
  intros Hwf HC. induction vit as [|source vit IH]; intros i st Hv Hst; simpl; auto.
  split_vit Hv Hs.
  destruct (handler (ls_polls st)); [reflexivity|].
  destruct (bfs_init_inv g mode i source (ls_counted st) (ls_actdist st) Hs Hst)
    as [Hinv0 _]. cbv zeta in Hinv0.
  assert (Hne : Z.of_nat i + 1 <> 0) by lia.
  unfold bfs_source.
  rewrite (bfs_while_large_cutoff g mode C (Z.of_nat i + 1) source Hwf Hne HC _ _ Hinv0).
  destruct (bfs_source_total g mode (-1)%float i source (ls_counted st) (ls_actdist st)
              Hwf Hs Hst) as [b [Hb [Hinv _]]].
  unfold bfs_source in Hb. rewrite Hb.
  pose proof (bfs_while_actdist_bound g mode (-1)%float (Z.of_nat i + 1) source Hwf Hne
                _ _ b Hb Hinv0) as Ha.
  assert (Had : 0 <= bfs_actdist b <= Z.of_nat (vcount g) - 1)
    by (apply Ha; simpl; discriminate).
  assert (Hw : within_cutoff (real_of_long C) (bfs_actdist b) = true).
  { unfold within_cutoff. rewrite <- real_of_long_0 at 1.
    rewrite !real_of_long_leb by lia.
    destruct (Z.leb_spec 0 C); [|lia].
    destruct (Z.leb_spec (bfs_actdist b) C); [reflexivity|lia]. }
  rewrite Hw. cbn [andb].
  apply IH; [exact Hv|]. simpl. eapply bfs_inv_stamps_upto; eauto.
Qed.

(** * The claims *)

(** C1 (the code departs from the claim).  The claim has the unweighted
    engine sum the hop-distances of the vertices at distance at most the
    cutoff and charge [vertex_count] for every other vertex, so that with
    cutoff 0 the sum of a source is [n * (n - 1)].  The engine enqueues and
    counts the neighbours of every vertex whose distance does not exceed the
    cutoff, so vertices at distance cutoff+1 are counted as reached too: on
    the path 0-1-2-3 with cutoff 0, source 1 gets the distance sum 2, three
    vertices reached and the divisor 2 + 4*1 = 6 (score 3/6), where the claim
    gives 0 + 4*3 = 12 (score 3/12). *)
Theorem cutoff_counts_one_hop_beyond :
  option_map (fun b => (bfs_sum b, bfs_reached b, bfs_total path4 b))
    (bfs_source path4 IGRAPH_ALL 0%float 0 1 (repeat 0 4) 0) = Some (2%float, 3, 6%float)
  /\ igraph_closeness_estimate no_interrupt path4 [] [1%nat] IGRAPH_ALL 0%float None true
     = {| ret := Returns IGRAPH_SUCCESS; res := [0.5%float]; warnings := []; polls := 1 |}.
Proof. split; vm_compute; reflexivity. Qed.

(** C2.  On the undirected, unweighted path 0-1-2-3 with a negative cutoff
    and normalization requested, the call for vertex 1 succeeds with the
    score 3/4 = 0.75; the distance sum of that source is 4, all four vertices
    being reached. *)
Theorem path_vertex1_unweighted :
  igraph_closeness_estimate no_interrupt path4 [] [1%nat] IGRAPH_ALL (-1)%float None true
  = {| ret := Returns IGRAPH_SUCCESS; res := [0.75%float]; warnings := []; polls := 1 |}
  /\ option_map (fun b => (bfs_sum b, bfs_reached b, bfs_total path4 b))
       (bfs_source path4 IGRAPH_ALL (-1)%float 0 1 (repeat 0 4) 0)
     = Some (4%float, 4, 4%float).
Proof. split; vm_compute; reflexivity. Qed.

(** C3.  On the same path with weight 2 on every edge, a negative cutoff and
    normalization requested, the call for vertex 1 succeeds with the score
    3/8 = 0.375; the weighted distance sum of that source is 8. *)
Theorem path_vertex1_weighted :
  igraph_closeness_estimate no_interrupt path4 [] [1%nat] IGRAPH_ALL (-1)%float
    (Some [2; 2; 2]%float) true
  = {| ret := Returns IGRAPH_SUCCESS; res := [0.375%float]; warnings := []; polls := 0 |}
  /\ option_map (fun d => (dj_sum d, dj_reached d, dij_total path4 d))
       (dij_source path4 IGRAPH_ALL [2; 2; 2]%float (-1)%float 0 1 (repeat 0 4)
          (repeat 0%float 4) 0%float) = Some (8%float, 4, 8%float).
Proof. split; vm_compute; reflexivity. Qed.

(** C4, as the claim states it, fails: with the illegal mode 7 and a weight
    vector of the wrong length the call ends in [IGRAPH_EINVAL], not in
    [IGRAPH_EINVMODE], because a supplied weight vector is routed to the
    weighted engine before the mode is looked at. *)
Lemma invalid_mode_after_weights :
  invalid_mode 7 = true
  /\ ret (igraph_closeness_estimate no_interrupt path4 [] [1%nat] 7 (-1)%float (Some []) true)
     = Returns IGRAPH_EINVAL.
Proof. split; reflexivity. Qed.

(** C4, amended.  A call whose mode is none of OUT, IN, ALL never succeeds
    and leaves the result vector as it was.  Without a weight vector it fails
    with [IGRAPH_EINVMODE] once the vertex subset is accepted.  With a weight
    vector the weights are validated first: a wrong length or a non-positive
    minimum fails with [IGRAPH_EINVAL], and accepted weights with an accepted
    vertex subset fail with [IGRAPH_EINVMODE]. *)
Theorem invalid_mode_fails :
  forall handler g res0 vids mode cutoff weights normalized,
    invalid_mode mode = true ->
    let o := igraph_closeness_estimate handler g res0 vids mode cutoff weights normalized in
    (ret o = Returns IGRAPH_SUCCESS -> False)
    /\ res o = res0
    /\ (weights = None -> igraph_vit_create g vids = true ->
        ret o = Returns IGRAPH_EINVMODE)
    /\ (forall w, weights = Some w -> Z.of_nat (length w) <> igraph_ecount g ->
        ret o = Returns IGRAPH_EINVAL)
    /\ (forall w minweight, weights = Some w -> igraph_vector_min w = Some minweight ->
        PrimFloat.leb minweight 0 = true -> ret o = Returns IGRAPH_EINVAL)
    /\ (forall w, weights = Some w -> weights_accepted g weights = true ->
        igraph_vit_create g vids = true -> ret o = Returns IGRAPH_EINVMODE).
Proof.
  intros handler g res0 vids mode cutoff weights normalized Hm. simpl.
  unfold igraph_closeness_estimate. destruct weights as [w|].
  - unfold igraph_i_closeness_estimate_weighted, igraph_lazy_inclist_init, weights_accepted.
    destruct (Z.eqb_spec (Z.of_nat (length w)) (igraph_ecount g)) as [He|He]; simpl.
    + destruct (igraph_vector_min w) as [m|] eqn:Hmin; simpl.
      * destruct (PrimFloat.leb m 0) eqn:Hle; simpl.
        -- repeat split; try discriminate; auto.
        -- rewrite Hm. destruct (igraph_vit_create g vids); simpl;
             repeat split; try discriminate; try congruence; auto.
           all: intros w' m' Hw Hmin'; inversion Hw; subst; congruence.
      * repeat split; try discriminate; try congruence.
    + repeat split; try discriminate; try congruence; auto.
  - unfold closeness_estimate_unweighted. rewrite Hm.
    destruct (igraph_vit_create g vids); simpl; repeat split; try discriminate; auto.
Qed.

Lemma invalid_mode_fails_witness :
  ret (igraph_closeness_estimate no_interrupt path4 [] [1%nat] 7 (-1)%float
         (Some [2; 2; 2]%float) true) = Returns IGRAPH_EINVMODE
  /\ ret (igraph_closeness_estimate no_interrupt path4 [] [1%nat] 7 (-1)%float None true)
     = Returns IGRAPH_EINVMODE.
Proof.
  split.
  - destruct (invalid_mode_fails no_interrupt path4 [] [1%nat] 7 (-1)%float
                (Some [2; 2; 2]%float) true eq_refl) as [_ [_ [_ [_ [_ H]]]]].
    apply (H _ eq_refl); reflexivity.
  - destruct (invalid_mode_fails no_interrupt path4 [] [1%nat] 7 (-1)%float
                None true eq_refl) as [_ [_ [H _]]].
    apply H; reflexivity.
Defined.

(** C5 (the code departs from the claim at an empty weight vector).  On a
    graph without edges the zero-length weight vector has the length the
    claim asks for and holds no weight that is not positive, yet the call is
    not decided by these two tests: the value compared with zero is the
    minimum of a vector without elements, a read outside the vector, so
    whether the call fails with [IGRAPH_EINVAL] there rests on memory that
    is not a weight.  For every weight vector with at least one element the
    claim holds: the call fails with [IGRAPH_EINVAL] exactly when the length
    of the vector differs from the number of edges or its minimum is not
    positive; then the result vector is the caller's untouched vector, no
    warning was issued and the interruption handler was never polled, so no
    traversal had begun.  The minimum is the value [igraph_vector_min]
    returns, the running minimum by [<] from the first element on; a first
    element that is not a number is kept whatever follows it
    ([igraph_vector_min_nan_first]). *)
Theorem weight_validation :
  (forall handler n dir res0 vids mode cutoff normalized,
     let g := {| vcount := n; directed := dir; edges := [] |} in
     Z.of_nat (length (@nil float)) = igraph_ecount g
     /\ (forall x : float, In x [] -> PrimFloat.leb x 0 = false)
     /\ igraph_closeness_estimate handler g res0 vids mode cutoff (Some []) normalized
        = {| ret := UndefinedRead; res := res0; warnings := []; polls := O |})
  /\ (forall handler g res0 vids mode cutoff w0 w normalized,
        let weights := w0 :: w in
        let o := igraph_closeness_estimate handler g res0 vids mode cutoff (Some weights)
                   normalized in
        (ret o = Returns IGRAPH_EINVAL <->
           (Z.of_nat (length weights) <> igraph_ecount g
            \/ exists minweight,
                 igraph_vector_min weights = Some minweight
                 /\ PrimFloat.leb minweight 0 = true))
        /\ (ret o = Returns IGRAPH_EINVAL ->
            res o = res0 /\ warnings o = [] /\ polls o = O)).
Proof.
  split.
  { intros. cbv zeta. split; [reflexivity|]. split; [intros x []|reflexivity]. }
  intros handler g res0 vids mode cutoff w0 w normalized. cbv zeta.
  unfold igraph_closeness_estimate, igraph_i_closeness_estimate_weighted,
    igraph_lazy_inclist_init.
  destruct (Z.eqb_spec (Z.of_nat (length (w0 :: w))) (igraph_ecount g)) as [He|He];
    cbn [negb].
  2: { split; auto. split; auto. }
  destruct (igraph_vector_min (w0 :: w)) as [m|] eqn:Hmin; [|discriminate].
  destruct (PrimFloat.leb m 0) eqn:Hle.
  { split; auto. split; auto. intros _. right. exists m. auto. }
  assert (Hno : forall P : Prop,
             (Z.of_nat (length (w0 :: w)) <> igraph_ecount g
              \/ exists minweight, Some m = Some minweight
                                   /\ PrimFloat.leb minweight 0 = true) -> P).
  { intros P [H|[m' [H1 H2]]]; [contradiction|]. inversion H1; subst. congruence. }
  destruct (negb (igraph_vit_create g vids)).
  { split; [|discriminate]. split; [discriminate|apply Hno]. }
  destruct (negb (negb (invalid_mode mode))).
  { split; [|discriminate]. split; [discriminate|apply Hno]. }
  rewrite finish_weighted_ret.
  match goal with |- context [closeness_loop_weighted ?a ?b ?c ?d ?e ?f ?s] =>
    destruct (closeness_loop_weighted_ret a b c d e f s) as [H|H]; rewrite H end;
    (split; [|discriminate]; split; [discriminate|apply Hno]).
Qed.

Lemma weight_validation_witness :
  ret (igraph_closeness_estimate no_interrupt path4 [9.5]%float [1%nat] IGRAPH_ALL
         (-1)%float (Some [2; 0; 3]%float) true) = Returns IGRAPH_EINVAL
  /\ res (igraph_closeness_estimate no_interrupt path4 [9.5]%float [1%nat] IGRAPH_ALL
            (-1)%float (Some [2; 0; 3]%float) true) = [9.5]%float.
Proof.
  destruct (proj2 weight_validation no_interrupt path4 [9.5]%float [1%nat] IGRAPH_ALL
              (-1)%float 2%float [0; 3]%float true) as [Hiff Hres].
  assert (Hret : ret (igraph_closeness_estimate no_interrupt path4 [9.5]%float [1%nat]
                        IGRAPH_ALL (-1)%float (Some [2; 0; 3]%float) true)
                 = Returns IGRAPH_EINVAL).
  { apply (proj2 Hiff). right. exists 0%float. split; reflexivity. }
  split; [exact Hret|]. exact (proj1 (Hres Hret)).
Defined.

(** C6 (the code departs from the claim at a graph without edges).  A graph
    with one vertex and no edge is connected and all of its edges weigh 1,
    yet with the (empty) weight vector supplied the call runs into the read
    of the minimum of an empty vector, while the unweighted call succeeds
    with the score not-a-number.  For every well-formed graph with at least
    one edge, all weights 1, no cutoff and no interruption, the two engines
    end the same way, with identical result vectors and the same warnings,
    for every vertex subset, mode and normalization flag; the vertex count is
    below 2^31, the range of [igraph_integer_t]. *)
Theorem unit_weights_agree :
  (ret (igraph_closeness_estimate no_interrupt
          {| vcount := 1; directed := false; edges := [] |} [] [0%nat] IGRAPH_ALL
          (-1)%float (Some []) true) = UndefinedRead
   /\ igraph_closeness_estimate no_interrupt
        {| vcount := 1; directed := false; edges := [] |} [] [0%nat] IGRAPH_ALL
        (-1)%float None true
      = {| ret := Returns IGRAPH_SUCCESS; res := [nan]; warnings := []; polls := 1 |})
  /\ (forall handler g res0 vids mode cutoff normalized,
        graph_wf g = true -> edges g <> [] -> Z.of_nat (vcount g) < 2 ^ 31 ->
        PrimFloat.ltb cutoff 0 = true -> (forall k, handler k = false) ->
        let weighted :=
          igraph_closeness_estimate handler g res0 vids mode cutoff
            (Some (unit_weights g)) normalized in
        let unweighted :=
          igraph_closeness_estimate handler g res0 vids mode cutoff None normalized in
        ret weighted = ret unweighted /\ res weighted = res unweighted
        /\ warnings weighted = warnings unweighted).
Proof.
  split; [split; reflexivity|].
  intros handler g res0 vids mode cutoff normalized Hwf He Hn Hc Hh. cbv zeta.
  unfold igraph_closeness_estimate, igraph_i_closeness_estimate_weighted,
    igraph_lazy_inclist_init, closeness_estimate_unweighted, unit_weights, igraph_ecount.
  rewrite repeat_length, Z.eqb_refl. cbn [negb].
  destruct (edges g) as [|e0 es] eqn:Hedges; [congruence|].
  cbn [length]. rewrite igraph_vector_min_unit.
  change (PrimFloat.leb 1 0) with false.
  change (PrimFloat.leb 1 IGRAPH_SHORTEST_PATH_EPSILON) with false. cbv iota.
  destruct (igraph_vit_create g vids) eqn:Hv; cbn [negb]; [|auto].
  destruct (invalid_mode mode); [auto|].
  pose proof (closeness_loop_lockstep handler g mode cutoff Hwf Hc Hn Hh vids O
                {| ls_res := igraph_vector_null (length vids);
                   ls_counted := repeat 0 (vcount g); ls_actdist := 0;
                   ls_warning_shown := false; ls_warnings := []; ls_polls := O |}
                {| ws_res := igraph_vector_null (length vids);
                   ws_which := repeat 0 (vcount g);
                   ws_dist := repeat 0%float (vcount g); ws_mindist := 0%float;
                   ws_warning_shown := false; ws_warnings := [] |}
                Hv (stamps_upto_init g) eq_refl eq_refl eq_refl eq_refl
                (repeat_length _ _)) as H.
  unfold unit_weights in H. rewrite Hedges in H. cbn [length] in H.
  destruct H as [H1 [H2 H3]].
  destruct (closeness_loop_weighted g mode (repeat 1%float (S (length es))) cutoff vids 0 _)
    as [tw sw].
  destruct (closeness_loop handler g mode cutoff vids 0 _) as [tu su].
  simpl in H1, H2, H3. subst tw.
  destruct tu as [[]| |]; simpl; rewrite ?H2, ?H3; auto.
Qed.

Lemma unit_weights_agree_witness :
  ret (igraph_closeness_estimate no_interrupt path4 [] [0; 1; 2; 3]%nat IGRAPH_ALL
         (-1)%float (Some (unit_weights path4)) false)
  = ret (igraph_closeness_estimate no_interrupt path4 [] [0; 1; 2; 3]%nat IGRAPH_ALL
           (-1)%float None false)
  /\ res (igraph_closeness_estimate no_interrupt path4 [] [0; 1; 2; 3]%nat IGRAPH_ALL
            (-1)%float (Some (unit_weights path4)) false)
     = res (igraph_closeness_estimate no_interrupt path4 [] [0; 1; 2; 3]%nat IGRAPH_ALL
              (-1)%float None false)
  /\ warnings (igraph_closeness_estimate no_interrupt path4 [] [0; 1; 2; 3]%nat IGRAPH_ALL
                 (-1)%float (Some (unit_weights path4)) false)
     = warnings (igraph_closeness_estimate no_interrupt path4 [] [0; 1; 2; 3]%nat
                   IGRAPH_ALL (-1)%float None false).
Proof.
  apply (proj2 unit_weights_agree no_interrupt path4 [] [0; 1; 2; 3]%nat IGRAPH_ALL
           (-1)%float false).
  - reflexivity.
  - discriminate.
  - reflexivity.
  - reflexivity.
  - intros k. reflexivity.
Defined.

(** C7.  In every call, of either engine and whatever its inputs, the
    disconnected-graph warning is handed to the warning handler at most once.
    When the call is well-formed (a well-formed graph, a legal mode, a
    non-empty subset of vertices, accepted weights if any, no interruption),
    has no cutoff, and no requested source reaches every vertex, the call
    succeeds and the warning is issued exactly once. *)
Theorem disconnected_warning_once :
  forall handler g res0 vids mode cutoff weights normalized,
    let o := igraph_closeness_estimate handler g res0 vids mode cutoff weights normalized in
    (count_warning WARN_DISCONNECTED (warnings o) <= 1)%nat
    /\ (graph_wf g = true -> invalid_mode mode = false ->
        igraph_vit_create g vids = true -> vids <> [] ->
        weights_accepted g weights = true -> (forall k, handler k = false) ->
        PrimFloat.ltb cutoff 0 = true ->
        (forall s, In s vids -> disconnected_from g mode s) ->
        ret o = Returns IGRAPH_SUCCESS
        /\ count_warning WARN_DISCONNECTED (warnings o) = 1%nat).
Proof.
  intros handler g res0 vids mode cutoff weights normalized. simpl.
  split; [apply disconnected_warning_at_most_once|].
  intros Hwf Hm Hv Hne Hw Hh Hc Hd.
  destruct vids as [|source vids]; [congruence|].
  assert (Hs : (source < vcount g)%nat).
  { simpl in Hv. apply andb_true_iff in Hv. destruct Hv as [Hs _].
    apply Nat.ltb_lt in Hs. exact Hs. }
  pose proof (Hd source (or_introl eq_refl)) as Hds.
  unfold igraph_closeness_estimate. destruct weights as [w|].
  - unfold igraph_i_closeness_estimate_weighted, igraph_lazy_inclist_init.
    unfold weights_accepted in Hw. apply andb_true_iff in Hw. destruct Hw as [Hl Hmin].
    rewrite Hl. cbn [negb].
    destruct (igraph_vector_min w) as [m|]; [|discriminate].
    apply negb_true_iff in Hmin. rewrite Hmin, Hv, Hm. cbn [negb].
    rewrite finish_weighted_ret, finish_weighted_warnings. split.
    + apply closeness_loop_weighted_runs; auto. apply stamps_upto_init.
    + apply closeness_loop_weighted_warns; auto.
      * apply stamps_upto_init.
      * unfold latched; simpl.
        destruct (PrimFloat.leb m IGRAPH_SHORTEST_PATH_EPSILON); reflexivity.
  - unfold closeness_estimate_unweighted. rewrite Hv, Hm. cbn [negb].
    rewrite finish_ret, finish_warnings. split.
    + apply closeness_loop_runs; auto. apply stamps_upto_init.
    + apply closeness_loop_warns; auto.
      * apply stamps_upto_init.
      * reflexivity.
Qed.

Lemma disconnected_warning_once_witness :
  (ret (igraph_closeness_estimate no_interrupt two_pairs [] [0; 1; 2; 3]%nat IGRAPH_ALL
          (-1)%float None true) = Returns IGRAPH_SUCCESS
   /\ count_warning WARN_DISCONNECTED
        (warnings (igraph_closeness_estimate no_interrupt two_pairs [] [0; 1; 2; 3]%nat
                     IGRAPH_ALL (-1)%float None true)) = 1%nat)
  /\ (ret (igraph_closeness_estimate no_interrupt two_pairs [] [3; 0]%nat IGRAPH_ALL
             (-1)%float (Some [1; 1]%float) false) = Returns IGRAPH_SUCCESS
      /\ count_warning WARN_DISCONNECTED
           (warnings (igraph_closeness_estimate no_interrupt two_pairs [] [3; 0]%nat
                        IGRAPH_ALL (-1)%float (Some [1; 1]%float) false)) = 1%nat).
Proof.
  split.
  - apply (proj2 (disconnected_warning_once no_interrupt two_pairs [] [0; 1; 2; 3]%nat
                    IGRAPH_ALL (-1)%float None true));
      try reflexivity; try discriminate.
    intros s Hs. apply two_pairs_disconnected. simpl in Hs. lia.
  - apply (proj2 (disconnected_warning_once no_interrupt two_pairs [] [3; 0]%nat
                    IGRAPH_ALL (-1)%float (Some [1; 1]%float) false));
      try reflexivity; try discriminate.
    intros s Hs. apply two_pairs_disconnected. simpl in Hs. lia.
Defined.

(** C8, as the claim states it, fails: a single vertex is not the only input
    whose divisor is zero.  In the weighted engine distances are stored with
    an offset of one, and [1 + w] rounds to [1] for a positive weight [w]
    below the precision of a [double]; with one edge of weight 2^-60 between
    two vertices the distance sum and the divisor are zero, and the score is
    1/0 = infinity. *)
Lemma zero_divisor_with_two_vertices :
  vcount one_edge = 2%nat
  /\ option_map (dij_total one_edge)
       (dij_source one_edge IGRAPH_ALL [0x1p-60%float] (-1)%float 0 0 (repeat 0 2)
          (repeat 0%float 2) 0%float) = Some 0%float
  /\ igraph_closeness_estimate no_interrupt one_edge [] [0%nat] IGRAPH_ALL (-1)%float
       (Some [0x1p-60%float]) true
     = {| ret := Returns IGRAPH_SUCCESS; res := [infinity];
          warnings := [WARN_EPSILON]; polls := 0 |}.
Proof. repeat split; vm_compute; reflexivity. Qed.

(** C8, amended.  For a well-formed call (a well-formed graph, a legal mode,
    an accepted vertex subset and accepted weights if any, no interruption)
    on a graph with exactly one vertex, the call succeeds and every requested
    score is not-a-number, the value of 0/0, normalized or not.  In the
    unweighted engine, on a graph with fewer than 2^26 vertices (so that the
    distance sums are integers a double holds exactly), the traversal from
    any source ends and its divisor is zero exactly when the graph has one
    vertex. *)
Theorem single_vertex_nan :
  forall handler g res0 vids mode cutoff weights normalized,
    graph_wf g = true -> invalid_mode mode = false ->
    igraph_vit_create g vids = true -> weights_accepted g weights = true ->
    (forall k, handler k = false) ->
    let o := igraph_closeness_estimate handler g res0 vids mode cutoff weights normalized in
    (vcount g = 1%nat ->
     ret o = Returns IGRAPH_SUCCESS /\ res o = repeat nan (length vids))
    /\ (Z.of_nat (vcount g) < 2 ^ 26 ->
        forall i source counted actdist,
          (source < vcount g)%nat -> stamps_upto g i counted ->
          exists b, bfs_source g mode cutoff i source counted actdist = Some b
                    /\ (bfs_total g b = 0%float <-> vcount g = 1%nat)).
Proof.
  intros handler g res0 vids mode cutoff weights normalized Hwf Hm Hv Hw Hh. simpl.
  split.
  - intros Hn. unfold igraph_closeness_estimate. destruct weights as [w|].
    + unfold igraph_i_closeness_estimate_weighted, igraph_lazy_inclist_init.
      unfold weights_accepted in Hw. apply andb_true_iff in Hw. destruct Hw as [Hl Hmin].
      rewrite Hl. cbn [negb].
      destruct (igraph_vector_min w) as [m|]; [|discriminate].
      apply negb_true_iff in Hmin. rewrite Hmin, Hv, Hm. cbn [negb].
      rewrite finish_weighted_ret.
      match goal with |- context [closeness_loop_weighted ?a ?b ?c ?d ?e ?f ?s] =>
        pose proof (closeness_loop_weighted_runs a b c d Hwf e f s Hv (stamps_upto_init g))
          as Hr;
        pose proof (closeness_loop_weighted_single a b c d Hn Hwf e f s Hv
                      (stamps_upto_init g) eq_refl) as Hs;
        destruct (closeness_loop_weighted a b c d e f s) as [t st]
      end.
      simpl in Hr, Hs. subst t. simpl. split; auto.
      rewrite Hs. unfold igraph_vcount. rewrite Hn. apply unnormalize_single.
    + unfold closeness_estimate_unweighted. rewrite Hv, Hm. cbn [negb].
      rewrite finish_ret.
      match goal with |- context [closeness_loop ?h ?a ?b ?c ?e ?f ?s] =>
        pose proof (closeness_loop_runs h a b c Hwf Hh e f s Hv (stamps_upto_init g))
          as [Hr _];
        pose proof (closeness_loop_single h a b c Hn Hwf Hh e f s Hv
                      (stamps_upto_init g) eq_refl) as Hs;
        destruct (closeness_loop h a b c e f s) as [t st]
      end.
      simpl in Hr, Hs. subst t. simpl. split; auto.
      rewrite Hs. unfold igraph_vcount. rewrite Hn. apply unnormalize_single.
  - intros Hn i source counted actdist Hs Hst.
    destruct (bfs_source_total g mode cutoff i source counted actdist Hwf Hs Hst)
      as [b [Hb [Hinv Hq]]].
    exists b. split; auto.
    apply (bfs_total_zero_iff g mode (Z.of_nat i + 1) source b); auto. lia.
Qed.

Lemma single_vertex_nan_witness :
  (ret (igraph_closeness_estimate no_interrupt one_loop [] [0; 0]%nat IGRAPH_ALL 0%float
          (Some [1%float]) false) = Returns IGRAPH_SUCCESS
   /\ res (igraph_closeness_estimate no_interrupt one_loop [] [0; 0]%nat IGRAPH_ALL 0%float
             (Some [1%float]) false) = [nan; nan])
  /\ (exists b, bfs_source path4 IGRAPH_ALL (-1)%float 0 1 (repeat 0 4) 0 = Some b
                /\ (bfs_total path4 b = 0%float <-> vcount path4 = 1%nat)).
Proof.
  split.
  - apply (proj1 (single_vertex_nan no_interrupt one_loop [] [0; 0]%nat IGRAPH_ALL 0%float
                    (Some [1%float]) false eq_refl eq_refl eq_refl eq_refl
                    (fun _ => eq_refl)) eq_refl).
  - apply (proj2 (single_vertex_nan no_interrupt path4 [] [1%nat] IGRAPH_ALL (-1)%float
                    None true eq_refl eq_refl eq_refl eq_refl (fun _ => eq_refl))
             eq_refl O 1%nat (repeat 0 4) 0).
    + simpl. lia.
    + apply stamps_upto_init.
Defined.

(** C9, as the claim states it, fails.  When a caller asks to stop at the
    second poll of an unweighted call for the sources 1 and 0 of the path
    0-1-2-3, the call returns [IGRAPH_INTERRUPTED], but the result vector
    handed back holds the score 0.75 already computed for the first source:
    it is not discarded.  (And the weighted engine holds no poll at all: with
    a caller that asks to stop at every poll it runs to the end.) *)
Lemma interrupted_call_keeps_scores :
  igraph_closeness_estimate interrupt_at_second path4 [] [1; 0]%nat IGRAPH_ALL (-1)%float
    None false
  = {| ret := Returns IGRAPH_INTERRUPTED; res := [0.75; 0]%float; warnings := [];
       polls := 2 |}
  /\ igraph_closeness_estimate always_interrupt path4 [] [0; 1]%nat IGRAPH_ALL (-1)%float
       (Some [2; 2; 2]%float) true
     = {| ret := Returns IGRAPH_SUCCESS; res := [0.25; 0.375]%float; warnings := [];
          polls := 0 |}.
Proof. split; vm_compute; reflexivity. Qed.

(** C9, amended.  In a well-formed call of the unweighted engine the
    interruption handler is polled once at the start of every per-source
    iteration: a call that is never asked to stop succeeds after as many
    polls as there are sources.  The first poll that asks to stop ends the
    call with [IGRAPH_INTERRUPTED] at once; the result vector, already
    resized to the number of sources, then holds the scores (in their
    normalized form) of the sources finished before that poll and zero in
    the remaining cells. *)
Theorem cancellation_between_sources :
  forall handler g res0 vids mode cutoff normalized,
    graph_wf g = true -> invalid_mode mode = false -> igraph_vit_create g vids = true ->
    let o := igraph_closeness_estimate handler g res0 vids mode cutoff None normalized in
    let scores :=
      res (igraph_closeness_estimate no_interrupt g res0 vids mode cutoff None true) in
    ((forall k, handler k = false) ->
     ret o = Returns IGRAPH_SUCCESS /\ polls o = length vids)
    /\ (forall k, (k < length vids)%nat ->
          (forall j, (j < k)%nat -> handler j = false) -> handler k = true ->
          ret o = Returns IGRAPH_INTERRUPTED /\ polls o = S k
          /\ res o = firstn k scores ++ repeat 0%float (length vids - k)).
Proof.
  intros handler g res0 vids mode cutoff normalized Hwf Hm Hv. simpl.
  unfold igraph_closeness_estimate, closeness_estimate_unweighted.
  rewrite Hv, Hm. cbn [negb].
  set (st0 := {| ls_res := igraph_vector_null (length vids);
                 ls_counted := repeat 0 (vcount g); ls_actdist := 0;
                 ls_warning_shown := false; ls_warnings := []; ls_polls := O |}).
  split.
  - intros Hh. rewrite finish_ret, finish_polls.
    destruct (closeness_loop_runs handler g mode cutoff Hwf Hh vids O st0 Hv
                (stamps_upto_init g)) as [H1 H2].
    split; auto.
  - intros k Hk Hb Ht.
    destruct (closeness_loop_interrupted handler g mode cutoff Hwf vids O st0 k Hv
                (stamps_upto_init g) Hk Hb Ht) as [H1 [H2 H3]].
    destruct (closeness_loop_runs no_interrupt g mode cutoff Hwf (fun _ => eq_refl)
                vids O st0 Hv (stamps_upto_init g)) as [H4 _].
    rewrite finish_ret, finish_polls. split; [exact H1|]. split; [exact H2|].
    destruct (closeness_loop handler g mode cutoff vids 0 st0) as [t st].
    destruct (closeness_loop no_interrupt g mode cutoff vids 0 st0) as [t' st'].
    simpl in *. subst t t'. simpl. rewrite H3.
    unfold igraph_vector_null. rewrite skipn_repeat. reflexivity.
Qed.

Lemma cancellation_between_sources_witness :
  (ret (igraph_closeness_estimate interrupt_at_second path4 [] [1; 0; 3]%nat IGRAPH_ALL
          (-1)%float None false) = Returns IGRAPH_INTERRUPTED
   /\ polls (igraph_closeness_estimate interrupt_at_second path4 [] [1; 0; 3]%nat IGRAPH_ALL
               (-1)%float None false) = 2%nat
   /\ res (igraph_closeness_estimate interrupt_at_second path4 [] [1; 0; 3]%nat IGRAPH_ALL
             (-1)%float None false)
      = firstn 1
          (res (igraph_closeness_estimate no_interrupt path4 [] [1; 0; 3]%nat IGRAPH_ALL
                  (-1)%float None true))
        ++ repeat 0%float (3 - 1))
  /\ (ret (igraph_closeness_estimate no_interrupt path4 [] [1; 0; 3]%nat IGRAPH_ALL
             (-1)%float None false) = Returns IGRAPH_SUCCESS
      /\ polls (igraph_closeness_estimate no_interrupt path4 [] [1; 0; 3]%nat IGRAPH_ALL
                  (-1)%float None false) = 3%nat).
Proof.
  split.
  - apply (proj2 (cancellation_between_sources interrupt_at_second path4 []
                    [1; 0; 3]%nat IGRAPH_ALL (-1)%float false eq_refl eq_refl eq_refl)
             1%nat).
    + simpl. lia.
    + intros j Hj. assert (j = O) by lia. subst j. reflexivity.
    + reflexivity.
  - apply (proj1 (cancellation_between_sources no_interrupt path4 []
                    [1; 0; 3]%nat IGRAPH_ALL (-1)%float false eq_refl eq_refl eq_refl)).
    intros k. reflexivity.
Defined.

(** C10 (the code departs from the claim).  The claim has the validation of
    the weighted engine never read an element of an empty weight vector.  On
    a graph without edges a zero-length weight vector passes the length check,
    and the engine then asks for the minimum of that empty vector, with no
    guard: the read of its first element is outside the vector.  This holds
    for every such call, whatever the other arguments. *)
Theorem minimum_of_empty_weights_is_read :
  forall handler n dir res0 vids mode cutoff normalized,
    igraph_vector_min [] = None
    /\ igraph_closeness_estimate handler {| vcount := n; directed := dir; edges := [] |}
         res0 vids mode cutoff (Some []) normalized
       = {| ret := UndefinedRead; res := res0; warnings := []; polls := 0 |}.
Proof. intros. split; reflexivity. Qed.

(** * Further properties *)

(** X1.  Both engines terminate on well-formed calls: with a well-formed
    graph, a legal mode, an accepted vertex subset, accepted weights if any
    and no interruption, every traversal ends within [vertex_count] dequeued
    (or popped) vertices, the call returns [IGRAPH_SUCCESS], and the result
    vector has one entry per requested vertex. *)
Theorem well_formed_call_succeeds :
  forall handler g res0 vids mode cutoff weights normalized,
    graph_wf g = true -> invalid_mode mode = false ->
    igraph_vit_create g vids = true -> weights_accepted g weights = true ->
    (forall k, handler k = false) ->
    let o := igraph_closeness_estimate handler g res0 vids mode cutoff weights normalized in
    ret o = Returns IGRAPH_SUCCESS /\ length (res o) = length vids.
Proof.
  intros handler g res0 vids mode cutoff weights normalized Hwf Hm Hv Hw Hh. cbv zeta.
  unfold igraph_closeness_estimate. destruct weights as [w|].
  - unfold igraph_i_closeness_estimate_weighted, igraph_lazy_inclist_init.
    unfold weights_accepted in Hw. apply andb_true_iff in Hw. destruct Hw as [Hl Hmin].
    rewrite Hl. cbn [negb].
    destruct (igraph_vector_min w) as [m|]; [|discriminate].
    apply negb_true_iff in Hmin. rewrite Hmin, Hv, Hm. cbn [negb].
    match goal with |- context [closeness_loop_weighted ?a ?b ?c ?d ?e ?f ?s] =>
      pose proof (closeness_loop_weighted_runs a b c d Hwf e f s Hv (stamps_upto_init g))
        as Hr;
      pose proof (closeness_loop_weighted_res_length a b c d e f s) as Hlen;
      destruct (closeness_loop_weighted a b c d e f s) as [t st]
    end.
    simpl in Hr, Hlen. subst t. simpl. split; auto.
    rewrite unnormalize_length, Hlen. apply repeat_length.
  - unfold closeness_estimate_unweighted. rewrite Hv, Hm. cbn [negb].
    match goal with |- context [closeness_loop ?h ?a ?b ?c ?e ?f ?s] =>
      pose proof (closeness_loop_runs h a b c Hwf Hh e f s Hv (stamps_upto_init g))
        as [Hr _];
      pose proof (closeness_loop_res_length h a b c e f s) as Hlen;
      destruct (closeness_loop h a b c e f s) as [t st]
    end.
    simpl in Hr, Hlen. subst t. simpl. split; auto.
    rewrite unnormalize_length, Hlen. apply repeat_length.
Qed.

Lemma well_formed_call_succeeds_witness :
  ret (igraph_closeness_estimate no_interrupt two_pairs [] [3; 0; 3]%nat IGRAPH_OUT 1%float
         (Some [0.5; 3]%float) false) = Returns IGRAPH_SUCCESS
  /\ length (res (igraph_closeness_estimate no_interrupt two_pairs [] [3; 0; 3]%nat
                    IGRAPH_OUT 1%float (Some [0.5; 3]%float) false)) = 3%nat.
Proof.
  apply (well_formed_call_succeeds no_interrupt two_pairs [] [3; 0; 3]%nat IGRAPH_OUT
           1%float (Some [0.5; 3]%float) false); reflexivity.
Defined.

(** X2.  A cutoff that is not [>= 0] is no cutoff.  With a negative cutoff
    the call is the call of [igraph_closeness]: the same return code, result
    vector, warnings and polls.  With a cutoff that is neither [>= 0] nor
    [< 0] (not-a-number) the return code, the result vector and the polls are
    still those of [igraph_closeness], but the disconnected-graph warning is
    never issued. *)
Theorem negative_cutoff_is_exact :
  forall handler g res0 vids mode cutoff weights normalized,
    PrimFloat.leb 0 cutoff = false ->
    let o := igraph_closeness_estimate handler g res0 vids mode cutoff weights normalized in
    let e := igraph_closeness handler g res0 vids mode weights normalized in
    ret o = ret e /\ res o = res e /\ polls o = polls e
    /\ (PrimFloat.ltb cutoff 0 = true -> o = e)
    /\ (PrimFloat.ltb cutoff 0 = false ->
        count_warning WARN_DISCONNECTED (warnings o) = 0%nat).
Proof.
  intros handler g res0 vids mode cutoff weights normalized Hc. cbv zeta.
  assert (Hm : PrimFloat.leb 0 (-1) = false) by reflexivity.
  unfold igraph_closeness, igraph_closeness_estimate. destruct weights as [w|].
  - unfold igraph_i_closeness_estimate_weighted.
    destruct (negb (Z.of_nat (length w) =? igraph_ecount g)); [repeat split; auto|].
    destruct (igraph_vector_min w) as [m|]; [|repeat split; auto].
    destruct (PrimFloat.leb m 0); [repeat split; auto|].
    destruct (negb (igraph_vit_create g vids)); [repeat split; auto|].
    2: destruct (negb (igraph_lazy_inclist_init mode)); [repeat split; auto|].
    1: { simpl. destruct (PrimFloat.leb m IGRAPH_SHORTEST_PATH_EPSILON); reflexivity. }
    1: { simpl. destruct (PrimFloat.leb m IGRAPH_SHORTEST_PATH_EPSILON); reflexivity. }
    match goal with |- context [closeness_loop_weighted g mode w cutoff vids O ?s] =>
      pose proof (closeness_loop_weighted_no_cutoff g mode w cutoff (-1)%float Hc Hm
                    vids O s s eq_refl eq_refl eq_refl eq_refl) as H;
      cbv zeta in H; destruct H as [I1 [I2 [I4 I5]]];
      destruct (closeness_loop_weighted g mode w cutoff vids O s) as [t1 s1];
      destruct (closeness_loop_weighted g mode w (-1)%float vids O s) as [t2 s2]
    end.
    simpl in I1, I2, I4, I5. subst t2.
    assert (Hres : res (finish_weighted normalized g (t1, s1))
                   = res (finish_weighted normalized g (t1, s2))).
    { destruct t1 as [[]| |]; simpl; rewrite I2; reflexivity. }
    rewrite !finish_weighted_ret. split; [reflexivity|]. split; [exact Hres|].
    split; [destruct t1 as [[]| |]; reflexivity|]. split.
    + intros Hlt. specialize (I4 Hlt eq_refl eq_refl).
      destruct t1 as [[]| |]; simpl; rewrite I2, I4; reflexivity.
    + intros Hlt. rewrite finish_weighted_warnings. simpl. rewrite (I5 Hlt).
      destruct (PrimFloat.leb m IGRAPH_SHORTEST_PATH_EPSILON); reflexivity.
  - unfold closeness_estimate_unweighted.
    destruct (negb (igraph_vit_create g vids)); [repeat split; auto|].
    destruct (invalid_mode mode); [repeat split; auto|].
    match goal with |- context [closeness_loop handler g mode cutoff vids O ?s] =>
      pose proof (closeness_loop_no_cutoff handler g mode cutoff (-1)%float Hc Hm
                    vids O s s eq_refl eq_refl eq_refl eq_refl) as H;
      cbv zeta in H; destruct H as [I1 [I2 [I3 [I4 I5]]]];
      destruct (closeness_loop handler g mode cutoff vids O s) as [t1 s1];
      destruct (closeness_loop handler g mode (-1)%float vids O s) as [t2 s2]
    end.
    simpl in I1, I2, I3, I4, I5. subst t2.
    rewrite !finish_ret, !finish_polls. split; [reflexivity|]. split.
    { destruct t1 as [[]| |]; simpl; rewrite I2; reflexivity. }
    split; [exact I3|]. split.
    + intros Hlt. specialize (I4 Hlt eq_refl eq_refl).
      destruct t1 as [[]| |]; simpl; rewrite I2, I3, I4; reflexivity.
    + intros Hlt. rewrite finish_warnings. simpl. rewrite (I5 Hlt). reflexivity.
Qed.

Lemma negative_cutoff_is_exact_witness :
  igraph_closeness_estimate no_interrupt two_pairs [] [0; 3]%nat IGRAPH_ALL (-2.5)%float
    (Some [1; 2]%float) false
  = igraph_closeness no_interrupt two_pairs [] [0; 3]%nat IGRAPH_ALL (Some [1; 2]%float) false
  /\ count_warning WARN_DISCONNECTED
       (warnings (igraph_closeness_estimate no_interrupt two_pairs [] [0; 3]%nat IGRAPH_ALL
                    nan None true)) = 0%nat.
Proof.
  split.
  - destruct (negative_cutoff_is_exact no_interrupt two_pairs [] [0; 3]%nat IGRAPH_ALL
                (-2.5)%float (Some [1; 2]%float) false eq_refl) as [_ [_ [_ [H _]]]].
    apply H. reflexivity.
  - destruct (negative_cutoff_is_exact no_interrupt two_pairs [] [0; 3]%nat IGRAPH_ALL
                nan None true eq_refl) as [_ [_ [_ [_ H]]]].
    apply H. reflexivity.
Defined.

(** X3.  The warnings of a call.  An unweighted call issues no warning, or
    the disconnected-graph warning alone.  A weighted call whose weights pass
    the validation issues the precision warning first, exactly if the minimum
    weight does not exceed the epsilon, even when the call then fails on the
    vertex subset or on the mode; the only warning that can follow is the
    disconnected-graph warning, once. *)
Theorem warnings_shape :
  forall handler g res0 vids mode cutoff normalized,
    (let o := igraph_closeness_estimate handler g res0 vids mode cutoff None normalized in
     warnings o = [] \/ warnings o = [WARN_DISCONNECTED])
    /\ (forall w minweight,
          Z.of_nat (length w) = igraph_ecount g ->
          igraph_vector_min w = Some minweight -> PrimFloat.leb minweight 0 = false ->
          let o := igraph_closeness_estimate handler g res0 vids mode cutoff (Some w)
                     normalized in
          let first := if PrimFloat.leb minweight IGRAPH_SHORTEST_PATH_EPSILON
                       then [WARN_EPSILON] else [] in
          warnings o = first \/ warnings o = first ++ [WARN_DISCONNECTED]).
Proof.
  intros handler g res0 vids mode cutoff normalized. cbv zeta.
  unfold igraph_closeness_estimate. split.
  - unfold closeness_estimate_unweighted.
    destruct (negb (igraph_vit_create g vids)); simpl; auto.
    destruct (invalid_mode mode); simpl; auto.
    rewrite finish_warnings.
    match goal with |- context [closeness_loop ?h ?a ?b ?c ?e ?f ?s] =>
      pose proof (closeness_loop_warnings_are h a b c [] e f s eq_refl) as H;
      cbv zeta in H; unfold warnings_are in H;
      destruct (ls_warning_shown (snd (closeness_loop h a b c e f s)))
    end; rewrite H; auto.
  - intros w m Hl Hmin Hle. unfold igraph_i_closeness_estimate_weighted.
    rewrite Hl, Z.eqb_refl, Hmin, Hle. cbn [negb].
    destruct (negb (igraph_vit_create g vids)); simpl; auto.
    destruct (negb (igraph_lazy_inclist_init mode)); simpl; auto.
    rewrite finish_weighted_warnings.
    match goal with |- context [closeness_loop_weighted ?a ?b ?c ?d ?e ?f ?s] =>
      pose proof (closeness_loop_weighted_warnings_are a b c d
                    (if PrimFloat.leb m IGRAPH_SHORTEST_PATH_EPSILON then [WARN_EPSILON]
                     else []) e f s) as H;
      cbv zeta in H; unfold warnings_are in H; simpl in H;
      rewrite app_nil_r in H; specialize (H eq_refl);
      destruct (ws_warning_shown (snd (closeness_loop_weighted a b c d e f s)))
    end; rewrite H; rewrite ?app_nil_r; auto.
Qed.

Lemma warnings_shape_witness :
  let o := igraph_closeness_estimate no_interrupt two_pairs [] [0%nat] 7 (-1)%float
             (Some [0x1p-40; 2]%float) true in
  ret o = Returns IGRAPH_EINVMODE
  /\ (warnings o = [WARN_EPSILON] \/ warnings o = [WARN_EPSILON] ++ [WARN_DISCONNECTED]).
Proof.
  split; [reflexivity|].
  apply (proj2 (warnings_shape no_interrupt two_pairs [] [0%nat] 7 (-1)%float true)
           [0x1p-40; 2]%float 0x1p-40%float); reflexivity.
Defined.

(** X4.  The result vector by return code.  A call that returns
    [IGRAPH_EINVAL], [IGRAPH_EINVMODE] or [IGRAPH_EINVVID] has not touched
    the result vector, has not polled the interruption handler and has not
    issued the disconnected-graph warning.  A call that returns success or
    [IGRAPH_INTERRUPTED] has resized the result vector to the number of
    vertices asked for.  Only an unweighted call whose handler asked to stop
    returns [IGRAPH_INTERRUPTED]. *)
Theorem result_vector_by_return_code :
  forall handler g res0 vids mode cutoff weights normalized,
    let o := igraph_closeness_estimate handler g res0 vids mode cutoff weights normalized in
    (forall e, ret o = Returns e ->
       e = IGRAPH_EINVAL \/ e = IGRAPH_EINVMODE \/ e = IGRAPH_EINVVID ->
       res o = res0 /\ polls o = O /\ count_warning WARN_DISCONNECTED (warnings o) = O)
    /\ (forall e, ret o = Returns e ->
          e = IGRAPH_SUCCESS \/ e = IGRAPH_INTERRUPTED -> length (res o) = length vids)
    /\ (ret o = Returns IGRAPH_INTERRUPTED -> weights = None /\ exists k, handler k = true).
Proof.
  intros handler g res0 vids mode cutoff weights normalized. cbv zeta.
  unfold igraph_closeness_estimate. destruct weights as [w|].
  - unfold igraph_i_closeness_estimate_weighted.
    destruct (negb (Z.of_nat (length w) =? igraph_ecount g)); simpl.
    { split; [auto|]. split; [|discriminate].
      intros e H [->| ->]; discriminate. }
    destruct (igraph_vector_min w) as [m|]; simpl.
    2: { split; [discriminate|]. split; discriminate. }
    destruct (PrimFloat.leb m 0); simpl.
    { split; [auto|]. split; [|discriminate]. intros e H [->| ->]; discriminate. }
    destruct (negb (igraph_vit_create g vids)); simpl.
    { split; [|split; [|discriminate]].
      - intros _ _ _. repeat split.
        destruct (PrimFloat.leb m IGRAPH_SHORTEST_PATH_EPSILON); reflexivity.
      - intros e H [->| ->]; discriminate. }
    destruct (negb (igraph_lazy_inclist_init mode)); simpl.
    { split; [|split; [|discriminate]].
      - intros _ _ _. repeat split.
        destruct (PrimFloat.leb m IGRAPH_SHORTEST_PATH_EPSILON); reflexivity.
      - intros e H [->| ->]; discriminate. }
    rewrite finish_weighted_ret.
    match goal with |- context [closeness_loop_weighted ?a ?b ?c ?d ?e ?f ?s] =>
      pose proof (closeness_loop_weighted_res_length a b c d e f s) as Hlen;
      destruct (closeness_loop_weighted_ret a b c d e f s) as [Hr|Hr]; rewrite Hr;
      destruct (closeness_loop_weighted a b c d e f s) as [t st]
    end; simpl in Hr, Hlen; subst t.
    + split; [|split; [|discriminate]].
      * intros e H [->|[->| ->]]; discriminate.
      * intros _ _ _. simpl. rewrite unnormalize_length, Hlen. apply repeat_length.
    + split; [discriminate|]. split; discriminate.
  - unfold closeness_estimate_unweighted.
    destruct (negb (igraph_vit_create g vids)); simpl.
    { split; [auto|]. split; [|discriminate]. intros e H [->| ->]; discriminate. }
    destruct (invalid_mode mode); simpl.
    { split; [auto|]. split; [|discriminate]. intros e H [->| ->]; discriminate. }
    rewrite finish_ret.
    match goal with |- context [closeness_loop ?h ?a ?b ?c ?e ?f ?s] =>
      pose proof (closeness_loop_res_length h a b c e f s) as Hlen;
      pose proof (closeness_loop_ret h a b c e f s) as Hr; cbv zeta in Hr;
      destruct (closeness_loop h a b c e f s) as [t st]
    end; simpl in Hr, Hlen.
    destruct Hr as [->|[->|[-> Hk]]].
    + split; [|split; [|discriminate]].
      * intros e H [->|[->| ->]]; discriminate.
      * intros _ _ _. simpl. rewrite unnormalize_length, Hlen. apply repeat_length.
    + split; [discriminate|]. split; discriminate.
    + split; [|split; [|auto]].
      * intros e H [->|[->| ->]]; discriminate.
      * intros _ _ _. simpl. rewrite Hlen. apply repeat_length.
Qed.

Lemma result_vector_by_return_code_witness :
  let o := igraph_closeness_estimate no_interrupt path4 [9.5%float] [1; 7]%nat IGRAPH_ALL
             (-1)%float None true in
  ret o = Returns IGRAPH_EINVVID
  /\ res o = [9.5%float] /\ polls o = O /\ count_warning WARN_DISCONNECTED (warnings o) = O.
Proof.
  split; [reflexivity|].
  apply (proj1 (result_vector_by_return_code no_interrupt path4 [9.5%float] [1; 7]%nat
                  IGRAPH_ALL (-1)%float None true) IGRAPH_EINVVID eq_refl).
  right. right. reflexivity.
Defined.

(** X5.  The score of a vertex does not depend on the other vertices asked
    for in the same call, nor on its place among them: the result vector of a
    well-formed call is the concatenation of the result vectors of the calls
    for each vertex alone.  The stamps and the distances the traversals of
    earlier sources leave in the work vectors do not leak into later ones,
    in either engine. *)
Theorem scores_are_per_source :
  forall handler g res0 vids mode cutoff weights normalized,
    graph_wf g = true -> invalid_mode mode = false ->
    igraph_vit_create g vids = true -> weights_accepted g weights = true ->
    (forall k, handler k = false) ->
    res (igraph_closeness_estimate handler g res0 vids mode cutoff weights normalized)
    = flat_map
        (fun v => res (igraph_closeness_estimate handler g res0 [v] mode cutoff weights
                         normalized))
        vids.
Proof.
  intros handler g res0 vids mode cutoff weights normalized Hwf Hm Hv Hw Hh.
  assert (Hall : forall v, In v vids -> igraph_vit_create g [v] = true).
  { intros v Hin. unfold igraph_vit_create in *. rewrite forallb_forall in Hv.
    simpl. rewrite (Hv v Hin). reflexivity. }
  unfold igraph_closeness_estimate. destruct weights as [w|].
  - unfold igraph_i_closeness_estimate_weighted, igraph_lazy_inclist_init.
    unfold weights_accepted in Hw. apply andb_true_iff in Hw. destruct Hw as [Hl Hmin].
    rewrite Hl. cbn [negb].
    destruct (igraph_vector_min w) as [m|]; [|discriminate].
    apply negb_true_iff in Hmin. rewrite Hmin, Hv, Hm. cbn [negb].
    transitivity (unnormalize normalized (igraph_vcount g)
                    (map (single_score_weighted g mode w cutoff) vids)).
    + match goal with |- context [closeness_loop_weighted ?a ?b ?c ?d ?e ?f ?s] =>
        pose proof (closeness_loop_weighted_runs a b c d Hwf e f s Hv (stamps_upto_init g))
          as Hr;
        pose proof (closeness_loop_weighted_scores a b c d Hwf e f s [] Hv
                      (stamps_upto_init g) (repeat_length _ _) eq_refl eq_refl) as Hs;
        destruct (closeness_loop_weighted a b c d e f s) as [t st]
      end.
      simpl in Hr, Hs. subst t. simpl. rewrite Hs. reflexivity.
    + rewrite unnormalize_flat_map. apply flat_map_ext_In. intros v Hin.
      rewrite (Hall v Hin). cbn [negb].
      match goal with |- context [closeness_loop_weighted ?a ?b ?c ?d ?e ?f ?s] =>
        pose proof (closeness_loop_weighted_runs a b c d Hwf e f s (Hall v Hin)
                      (stamps_upto_init g)) as Hr;
        pose proof (closeness_loop_weighted_scores a b c d Hwf e f s [] (Hall v Hin)
                      (stamps_upto_init g) (repeat_length _ _) eq_refl eq_refl) as Hs;
        destruct (closeness_loop_weighted a b c d e f s) as [t st]
      end.
      simpl in Hr, Hs. subst t. simpl. rewrite Hs. reflexivity.
  - unfold closeness_estimate_unweighted. rewrite Hv, Hm. cbn [negb].
    transitivity (unnormalize normalized (igraph_vcount g)
                    (map (single_score g mode cutoff) vids)).
    + match goal with |- context [closeness_loop ?h ?a ?b ?c ?e ?f ?s] =>
        pose proof (closeness_loop_runs h a b c Hwf Hh e f s Hv (stamps_upto_init g))
          as [Hr _];
        pose proof (closeness_loop_scores h a b c Hwf Hh e f s [] Hv
                      (stamps_upto_init g) eq_refl eq_refl) as Hs;
        destruct (closeness_loop h a b c e f s) as [t st]
      end.
      simpl in Hr, Hs. subst t. simpl. rewrite Hs. reflexivity.
    + rewrite unnormalize_flat_map. apply flat_map_ext_In. intros v Hin.
      rewrite (Hall v Hin). cbn [negb].
      match goal with |- context [closeness_loop ?h ?a ?b ?c ?e ?f ?s] =>
        pose proof (closeness_loop_runs h a b c Hwf Hh e f s (Hall v Hin)
                      (stamps_upto_init g)) as [Hr _];
        pose proof (closeness_loop_scores h a b c Hwf Hh e f s [] (Hall v Hin)
                      (stamps_upto_init g) eq_refl eq_refl) as Hs;
        destruct (closeness_loop h a b c e f s) as [t st]
      end.
      simpl in Hr, Hs. subst t. simpl. rewrite Hs. reflexivity.
Qed.

Lemma scores_are_per_source_witness :
  res (igraph_closeness_estimate no_interrupt path4 [] [1; 0; 1]%nat IGRAPH_ALL 1%float
         (Some [2; 1; 3]%float) false)
  = flat_map
      (fun v => res (igraph_closeness_estimate no_interrupt path4 [] [v] IGRAPH_ALL 1%float
                       (Some [2; 1; 3]%float) false))
      [1; 0; 1]%nat.
Proof.
  apply (scores_are_per_source no_interrupt path4 [] [1; 0; 1]%nat IGRAPH_ALL 1%float
           (Some [2; 1; 3]%float) false); reflexivity.
Defined.

(** X6.  What the unweighted engine computes.  For a graph with fewer than
    2^26 vertices (so that a double holds the sums exactly), the source of
    every entry of the result vector has a list of (vertex, distance) pairs,
    each vertex once, such that: every distance listed is the distance in
    hops from the source; a vertex at distance [d] is listed exactly if
    [d = 0] or a vertex at distance [d - 1] is not beyond the cutoff, so the
    vertices one hop past the cutoff are listed too; and the entry is
    [(n - 1) / (sum of the listed distances + n * number of vertices not
    listed)], divided by [n - 1] once more unless [normalized]. *)
Theorem unweighted_scores_are_distance_sums :
  forall handler g res0 vids mode cutoff normalized,
    graph_wf g = true -> Z.of_nat (vcount g) < 2 ^ 26 -> invalid_mode mode = false ->
    igraph_vit_create g vids = true -> (forall k, handler k = false) ->
    let o := igraph_closeness_estimate handler g res0 vids mode cutoff None normalized in
    let n := igraph_vcount g in
    forall k, (k < length vids)%nat ->
      let source := nth k vids O in
      exists order : list (nat * Z),
        NoDup (map fst order)
        /\ (forall v d, In (v, d) order -> hop_distance g mode source v d)
        /\ (forall v d, hop_distance g mode source v d ->
              (In (v, d) order <-> d = 0 \/ beyond_cutoff cutoff (d - 1) = false))
        /\ let score := closeness_score n
                          (real_of_long (distance_sum order
                                         + n * (n - Z.of_nat (length order)))) in
           nth k (res o) 0%float
           = if normalized then score else PrimFloat.div score (real_of_long (n - 1)).
Proof.
  intros handler g res0 vids mode cutoff normalized Hwf Hn Hm Hv Hh. cbv zeta.
  intros k Hk.
  pose proof (vit_nth g vids k Hv Hk) as Hs.
  destruct (bfs_source_trace g mode cutoff O (nth k vids O) (repeat 0 (vcount g)) 0 Hwf Hn Hs
              (stamps_upto_init g)) as [b [order [Hb [H1 [H2 [H3 [_ [_ [_ H7]]]]]]]]].
  exists order. split; [exact H1|]. split; [exact H2|]. split; [exact H3|].
  rewrite (unweighted_call_score handler g res0 vids mode cutoff normalized k b) by auto.
  rewrite H7. reflexivity.
Qed.

Lemma unweighted_scores_are_distance_sums_witness :
  exists order : list (nat * Z),
    NoDup (map fst order)
    /\ (forall v d, In (v, d) order -> hop_distance path4 IGRAPH_ALL 3 v d)
    /\ (forall v d, hop_distance path4 IGRAPH_ALL 3 v d ->
          (In (v, d) order <-> d = 0 \/ beyond_cutoff 0.5%float (d - 1) = false))
    /\ nth 1 (res (igraph_closeness_estimate no_interrupt path4 [] [1; 3]%nat IGRAPH_ALL
                     0.5%float None true)) 0%float
       = closeness_score 4 (real_of_long (distance_sum order
                                          + 4 * (4 - Z.of_nat (length order)))).
Proof.
  apply (unweighted_scores_are_distance_sums no_interrupt path4 [] [1; 3]%nat IGRAPH_ALL
           0.5%float true eq_refl eq_refl eq_refl eq_refl (fun _ => eq_refl) 1%nat).
  simpl. lia.
Defined.

(** X7.  Without a cutoff the scores are the closeness centralities: the
    list of the source of an entry holds exactly the vertices the source can
    reach, each once and with its distance in hops, and the entry is
    [(n - 1) / (sum of the distances to the vertices reached + n * number of
    vertices not reached)], divided by [n - 1] once more unless
    [normalized]. *)
Theorem exact_closeness :
  forall handler g res0 vids mode normalized,
    graph_wf g = true -> Z.of_nat (vcount g) < 2 ^ 26 -> invalid_mode mode = false ->
    igraph_vit_create g vids = true -> (forall k, handler k = false) ->
    let o := igraph_closeness handler g res0 vids mode None normalized in
    let n := igraph_vcount g in
    forall k, (k < length vids)%nat ->
      let source := nth k vids O in
      exists order : list (nat * Z),
        NoDup (map fst order)
        /\ (forall v, In v (map fst order) <-> reachable g mode source v)
        /\ (forall v d, In (v, d) order -> hop_distance g mode source v d)
        /\ let score := closeness_score n
                          (real_of_long (distance_sum order
                                         + n * (n - Z.of_nat (length order)))) in
           nth k (res o) 0%float
           = if normalized then score else PrimFloat.div score (real_of_long (n - 1)).
Proof.
  intros handler g res0 vids mode normalized Hwf Hn Hm Hv Hh. cbv zeta.
  intros k Hk. unfold igraph_closeness.
  pose proof (vit_nth g vids k Hv Hk) as Hs.
  destruct (bfs_source_trace g mode (-1)%float O (nth k vids O) (repeat 0 (vcount g)) 0
              Hwf Hn Hs (stamps_upto_init g))
    as [b [order [Hb [H1 [H2 [H3 [H4 [_ [_ H7]]]]]]]]].
  exists order. split; [exact H1|]. split; [|split; [exact H2|]].
  - intros v. split.
    + intros Hin. apply in_fst_exists in Hin. destruct Hin as [d Hd].
      apply (walk_reachable g mode _ v d). apply (H2 v d Hd).
    + intros Hr. apply reachable_walk in Hr. destruct Hr as [j Hw].
      destruct (H4 v j Hw) as [d [Hd _]].
      { intros; apply beyond_cutoff_none; reflexivity. }
      apply in_map_iff. exists (v, d). auto.
  - rewrite (unweighted_call_score handler g res0 vids mode (-1)%float normalized k b)
      by auto.
    rewrite H7. reflexivity.
Qed.

Lemma exact_closeness_witness :
  exists order : list (nat * Z),
    NoDup (map fst order)
    /\ (forall v, In v (map fst order) <-> reachable two_pairs IGRAPH_ALL 2 v)
    /\ (forall v d, In (v, d) order -> hop_distance two_pairs IGRAPH_ALL 2 v d)
    /\ nth 0 (res (igraph_closeness no_interrupt two_pairs [] [2; 0]%nat IGRAPH_ALL None
                     false)) 0%float
       = PrimFloat.div
           (closeness_score 4 (real_of_long (distance_sum order
                                             + 4 * (4 - Z.of_nat (length order)))))
           (real_of_long (4 - 1)).
Proof.
  apply (exact_closeness no_interrupt two_pairs [] [2; 0]%nat IGRAPH_ALL false
           eq_refl eq_refl eq_refl eq_refl (fun _ => eq_refl) O).
  simpl. lia.
Defined.

(** X8.  An integer cutoff [c >= 0] counts the vertices up to [c + 1] hops
    away, one hop more than the cutoff: the list of the source of an entry
    holds exactly the vertices at a distance of at most [c + 1] hops, and
    every other vertex is charged [n]. *)
Theorem integer_cutoff_counts_one_hop_more :
  forall handler g res0 vids mode c normalized,
    graph_wf g = true -> Z.of_nat (vcount g) < 2 ^ 26 -> invalid_mode mode = false ->
    igraph_vit_create g vids = true -> (forall k, handler k = false) ->
    0 <= c < 2 ^ 53 ->
    let o := igraph_closeness_estimate handler g res0 vids mode (real_of_long c) None
               normalized in
    let n := igraph_vcount g in
    forall k, (k < length vids)%nat ->
      let source := nth k vids O in
      exists order : list (nat * Z),
        NoDup (map fst order)
        /\ (forall v d, In (v, d) order <-> hop_distance g mode source v d /\ d <= c + 1)
        /\ let score := closeness_score n
                          (real_of_long (distance_sum order
                                         + n * (n - Z.of_nat (length order)))) in
           nth k (res o) 0%float
           = if normalized then score else PrimFloat.div score (real_of_long (n - 1)).
Proof.
  intros handler g res0 vids mode c normalized Hwf Hn Hm Hv Hh Hc. cbv zeta.
  intros k Hk.
  pose proof (vit_nth g vids k Hv Hk) as Hs.
  destruct (bfs_source_trace g mode (real_of_long c) O (nth k vids O) (repeat 0 (vcount g)) 0
              Hwf Hn Hs (stamps_upto_init g))
    as [b [order [Hb [H1 [H2 [H3 [_ [_ [_ H7]]]]]]]]].
  exists order. split; [exact H1|]. split.
  - assert (H2653 : 2 ^ 26 < 2 ^ 53) by reflexivity.
    intros v d. split.
    + intros Hin. pose proof (H2 v d Hin) as Hh'. split; [exact Hh'|].
      pose proof (hop_distance_small g mode _ v d Hwf Hs Hh') as Hd.
      apply (H3 v d Hh') in Hin. destruct Hin as [->|Hb']; [lia|].
      destruct (Z.eq_dec d 0) as [->|Hne]; [lia|].
      rewrite beyond_cutoff_int in Hb' by lia. apply Z.ltb_ge in Hb'. lia.
    + intros [Hh' Hle]. apply (H3 v d Hh').
      pose proof (hop_distance_small g mode _ v d Hwf Hs Hh') as Hd.
      destruct (Z.eq_dec d 0) as [->|Hne]; [left; reflexivity|right].
      rewrite beyond_cutoff_int by lia. apply Z.ltb_ge. lia.
  - rewrite (unweighted_call_score handler g res0 vids mode (real_of_long c) normalized k b)
      by auto.
    rewrite H7. reflexivity.
Qed.

Lemma integer_cutoff_counts_one_hop_more_witness :
  exists order : list (nat * Z),
    NoDup (map fst order)
    /\ (forall v d, In (v, d) order <-> hop_distance path4 IGRAPH_ALL 0 v d /\ d <= 1 + 1)
    /\ nth 0 (res (igraph_closeness_estimate no_interrupt path4 [] [0%nat] IGRAPH_ALL
                     (real_of_long 1) None true)) 0%float
       = closeness_score 4 (real_of_long (distance_sum order
                                          + 4 * (4 - Z.of_nat (length order)))).
Proof.
  apply (integer_cutoff_counts_one_hop_more no_interrupt path4 [] [0%nat] IGRAPH_ALL 1 true
           eq_refl eq_refl eq_refl eq_refl (fun _ => eq_refl) ltac:(lia) O).
  simpl. lia.
Defined.

(** X9.  Without a cutoff the disconnected-graph warning is issued exactly
    when some vertex asked for cannot reach every vertex of the graph, in
    either engine: both traversals stamp every vertex that can be reached
    and count it in [nodes_reached]. *)
Theorem disconnected_warning_iff :
  forall handler g res0 vids mode cutoff weights normalized,
    graph_wf g = true -> invalid_mode mode = false ->
    igraph_vit_create g vids = true -> weights_accepted g weights = true ->
    (forall k, handler k = false) -> PrimFloat.ltb cutoff 0 = true ->
    let o := igraph_closeness_estimate handler g res0 vids mode cutoff weights normalized in
    (count_warning WARN_DISCONNECTED (warnings o) = 1%nat
     <-> exists s, In s vids /\ disconnected_from g mode s).
Proof.
  intros handler g res0 vids mode cutoff weights normalized Hwf Hm Hv Hw Hh Hc. cbv zeta.
  unfold igraph_closeness_estimate. destruct weights as [w|].
  - unfold igraph_i_closeness_estimate_weighted, igraph_lazy_inclist_init.
    unfold weights_accepted in Hw. apply andb_true_iff in Hw. destruct Hw as [Hl Hmin].
    rewrite Hl. cbn [negb].
    destruct (igraph_vector_min w) as [m|]; [|discriminate].
    apply negb_true_iff in Hmin. rewrite Hmin, Hv, Hm. cbn [negb].
    rewrite finish_weighted_warnings.
    match goal with |- context [closeness_loop_weighted ?a ?b ?c ?d ?e ?f ?s] =>
      pose proof (closeness_loop_weighted_latched a b c d e f s) as Hla;
      pose proof (closeness_loop_weighted_shown a b c d Hwf Hc e f s Hv (stamps_upto_init g))
        as Hsh
    end.
    cbv zeta in Hla. destruct Hla as [Hla _].
    { unfold latched; simpl.
      destruct (PrimFloat.leb m IGRAPH_SHORTEST_PATH_EPSILON); reflexivity. }
    rewrite (latched_count _ _ Hla), Hsh. simpl.
    split; [intros [H|H]; [discriminate|exact H]|auto].
  - unfold closeness_estimate_unweighted. rewrite Hv, Hm. cbn [negb].
    rewrite finish_warnings.
    match goal with |- context [closeness_loop ?h ?a ?b ?c ?e ?f ?s] =>
      pose proof (closeness_loop_latched h a b c e f s) as Hla;
      pose proof (closeness_loop_shown h a b c Hwf Hh Hc e f s Hv (stamps_upto_init g))
        as Hsh
    end.
    cbv zeta in Hla. destruct Hla as [Hla _]; [reflexivity|].
    rewrite (latched_count _ _ Hla), Hsh. simpl.
    split; [intros [H|H]; [discriminate|exact H]|auto].
Qed.

Lemma disconnected_warning_iff_witness :
  count_warning WARN_DISCONNECTED
    (warnings (igraph_closeness_estimate no_interrupt two_pairs [] [1; 2]%nat IGRAPH_ALL
                 (-1)%float (Some [1; 2]%float) true)) = 1%nat
  <-> exists s, In s [1; 2]%nat /\ disconnected_from two_pairs IGRAPH_ALL s.
Proof.
  apply (disconnected_warning_iff no_interrupt two_pairs [] [1; 2]%nat IGRAPH_ALL
           (-1)%float (Some [1; 2]%float) true); try reflexivity.
Defined.

(** X10.  The divisor of an unweighted score is an integer between [n - 1]
    and [n * (n - 1)] that the double holds exactly, on a graph with fewer
    than 2^26 vertices: it is never negative, and zero only when the graph
    has a single vertex. *)
Theorem unweighted_divisor_bounds :
  forall handler g res0 vids mode cutoff normalized,
    graph_wf g = true -> Z.of_nat (vcount g) < 2 ^ 26 -> invalid_mode mode = false ->
    igraph_vit_create g vids = true -> (forall k, handler k = false) ->
    let o := igraph_closeness_estimate handler g res0 vids mode cutoff None normalized in
    let n := igraph_vcount g in
    forall k, (k < length vids)%nat ->
      exists T : Z,
        n - 1 <= T <= n * (n - 1)
        /\ let score := closeness_score n (real_of_long T) in
           nth k (res o) 0%float
           = if normalized then score else PrimFloat.div score (real_of_long (n - 1)).
Proof.
  intros handler g res0 vids mode cutoff normalized Hwf Hn Hm Hv Hh. cbv zeta.
  intros k Hk.
  pose proof (vit_nth g vids k Hv Hk) as Hs.
  destruct (bfs_source_total g mode cutoff O (nth k vids O) (repeat 0 (vcount g)) 0 Hwf Hs
              (stamps_upto_init g)) as [b [Hb [Hinv Hq]]].
  destruct (bfs_total_exact g mode (Z.of_nat 0 + 1) (nth k vids O) b ltac:(lia) Hn Hinv Hq)
    as [S [_ [HS [Hr [Ht _]]]]].
  exists (S + igraph_vcount g * (igraph_vcount g - bfs_reached b)). split.
  - set (n := igraph_vcount g) in *. set (r := bfs_reached b) in *. nia.
  - rewrite (unweighted_call_score handler g res0 vids mode cutoff normalized k b) by auto.
    rewrite Ht. reflexivity.
Qed.

Lemma unweighted_divisor_bounds_witness :
  exists T : Z,
    4 - 1 <= T <= 4 * (4 - 1)
    /\ nth 1 (res (igraph_closeness_estimate no_interrupt two_pairs [] [0; 3]%nat IGRAPH_OUT
                     2%float None true)) 0%float
       = closeness_score 4 (real_of_long T).
Proof.
  apply (unweighted_divisor_bounds no_interrupt two_pairs [] [0; 3]%nat IGRAPH_OUT 2%float
           true eq_refl eq_refl eq_refl eq_refl (fun _ => eq_refl) 1%nat).
  simpl. lia.
Defined.



(** X11.  A cutoff can only enlarge the divisor of a source, so that the
    estimate rests on a divisor that is at least the one of the exact
    closeness: under any cutoff the traversal from a source counts no more
    vertices than the traversal without a cutoff, and its divisor (the sum of
    the distances plus [n] per vertex not counted) is not smaller. *)
Theorem cutoff_enlarges_divisor :
  forall g mode cutoff source,
    graph_wf g = true -> Z.of_nat (vcount g) < 2 ^ 26 -> (source < vcount g)%nat ->
    exists estimate exact,
      bfs_source g mode cutoff O source (repeat 0 (vcount g)) 0 = Some estimate
      /\ bfs_source g mode (-1)%float O source (repeat 0 (vcount g)) 0 = Some exact
      /\ bfs_reached estimate <= bfs_reached exact
      /\ PrimFloat.leb (bfs_total g exact) (bfs_total g estimate) = true.
Proof.
  intros g mode cutoff source Hwf Hn Hs.
  destruct (bfs_source_trace g mode cutoff O source (repeat 0 (vcount g)) 0 Hwf Hn Hs
              (stamps_upto_init g)) as [bc [oc [Hbc [C1 [C2 [_ [_ [C5 [_ C7]]]]]]]]].
  destruct (bfs_source_trace g mode (-1)%float O source (repeat 0 (vcount g)) 0 Hwf Hn Hs
              (stamps_upto_init g)) as [be [oe [Hbe [E1 [E2 [E3 [_ [E5 [_ E7]]]]]]]]].
  exists bc, be. split; [exact Hbc|]. split; [exact Hbe|].
  assert (Hincl : incl oc oe).
  { intros [v d] Hin. apply (E3 v d (C2 v d Hin)). right. reflexivity. }
  assert (Hndc : NoDup oc) by (eapply NoDup_map_inv; exact C1).
  assert (Hnde : NoDup oe) by (eapply NoDup_map_inv; exact E1).
  pose proof (NoDup_incl_length Hndc Hincl) as Hlen.
  assert (Hsmall : forall x, In x oe -> 0 <= Z.of_nat (vcount g) - snd x).
  { intros [v d] Hin. simpl.
    pose proof (hop_distance_small g mode source v d Hwf Hs (E2 v d Hin)). lia. }
  pose proof (sum_incl (fun x => Z.of_nat (vcount g) - snd x) oc oe Hndc Hincl Hsmall) as Hsum.
  rewrite !penalty_sum in Hsum.
  split; [lia|].
  rewrite C7, E7. unfold igraph_vcount.
  assert (Hle : (length oe <= vcount g)%nat).
  { assert (Hr : bfs_reached be <= Z.of_nat (vcount g)).
    { destruct (bfs_source_total g mode (-1)%float O source (repeat 0 (vcount g)) 0 Hwf Hs
                  (stamps_upto_init g)) as [b' [Hb' [Hinv _]]].
      rewrite Hbe in Hb'. inversion Hb'; subst b'.
      destruct Hinv as [Hl _ _ Hre _ _ _].
      pose proof (count_stamp_le_length (Z.of_nat 0 + 1) (bfs_counted be)). lia. }
    lia. }
  assert (Hde : 0 <= distance_sum oe <= Z.of_nat (length oe) * Z.of_nat (vcount g)).
  { apply distance_sum_bound; [lia|]. intros v d Hin.
    pose proof (hop_distance_small g mode source v d Hwf Hs (E2 v d Hin)). lia. }
  assert (Hdc : 0 <= distance_sum oc <= Z.of_nat (length oc) * Z.of_nat (vcount g)).
  { apply distance_sum_bound; [lia|]. intros v d Hin.
    pose proof (hop_distance_small g mode source v d Hwf Hs (C2 v d Hin)). lia. }
  set (n := Z.of_nat (vcount g)) in *.
  assert (H52 : 2 ^ 26 * 2 ^ 26 = 2 ^ 52) by reflexivity.
  assert (H53 : 2 ^ 52 + 2 ^ 52 = 2 ^ 53) by reflexivity.
  rewrite real_of_long_leb; [apply Z.leb_le; lia| |]; nia.
Qed.

Lemma cutoff_enlarges_divisor_witness :
  exists estimate exact,
    bfs_source path4 IGRAPH_ALL 0%float O 0 (repeat 0 (vcount path4)) 0 = Some estimate
    /\ bfs_source path4 IGRAPH_ALL (-1)%float O 0 (repeat 0 (vcount path4)) 0 = Some exact
    /\ bfs_reached estimate <= bfs_reached exact
    /\ PrimFloat.leb (bfs_total path4 exact) (bfs_total path4 estimate) = true.
Proof.
  apply (cutoff_enlarges_divisor path4 IGRAPH_ALL 0%float O eq_refl eq_refl).
  simpl. lia.
Defined.

(** X12.  What the weighted engine computes on integer weights, without a
    cutoff.  Let every edge weigh an integer between 1 and [Wmax], with
    [n * n * (Wmax + 1) < 2^53] so that a double holds every sum exactly.
    For the source of every entry of the result vector there is a list of
    (vertex, distance) pairs that holds exactly the vertices the source can
    reach, each once and with its weighted shortest-path distance, and the
    entry is [(n - 1) / (sum of the distances to the vertices reached + n *
    number of vertices not reached)], divided by [n - 1] once more unless
    [normalized]. *)
Theorem weighted_closeness_on_integer_weights :
  forall handler g res0 vids mode cutoff W Wmax normalized,
    graph_wf g = true -> invalid_mode mode = false -> igraph_vit_create g vids = true ->
    weights_accepted g (Some (int_weights W)) = true ->
    (forall e, (e < length (edges g))%nat -> 1 <= nth e W 0 <= Wmax) ->
    0 <= Wmax -> Z.of_nat (vcount g) * Z.of_nat (vcount g) * (Wmax + 1) < 2 ^ 53 ->
    PrimFloat.leb 0 cutoff = false ->
    let o := igraph_closeness_estimate handler g res0 vids mode cutoff
               (Some (int_weights W)) normalized in
    let n := igraph_vcount g in
    forall k, (k < length vids)%nat ->
      let source := nth k vids O in
      exists order : list (nat * Z),
        NoDup (map fst order)
        /\ (forall v, In v (map fst order) <-> reachable g mode source v)
        /\ (forall v d, In (v, d) order -> weighted_distance g mode W source v d)
        /\ let score := closeness_score n
                          (real_of_long (distance_sum order
                                         + n * (n - Z.of_nat (length order)))) in
           nth k (res o) 0%float
           = if normalized then score else PrimFloat.div score (real_of_long (n - 1)).
Proof.
  intros handler g res0 vids mode cutoff W Wmax normalized Hwf Hm Hv Hw HW HW0 Hb Hc.
  cbv zeta. intros k Hk.
  pose proof (vit_nth g vids k Hv Hk) as Hs.
  destruct (dij_source_trace g mode W Wmax cutoff O (nth k vids O) (repeat 0 (vcount g))
              (repeat 0%float (vcount g)) 0%float Hwf HW0 Hb HW Hc Hs (stamps_upto_init g)
              (repeat_length _ _))
    as [d [order [Hd [H1 [H2 [H3 [_ [_ H6]]]]]]]].
  exists order. split; [exact H1|]. split; [exact H2|]. split; [exact H3|].
  rewrite (weighted_call_score handler g res0 vids mode cutoff (int_weights W) normalized k d)
    by auto.
  rewrite H6. reflexivity.
Qed.

Lemma weighted_closeness_on_integer_weights_witness :
  exists order : list (nat * Z),
    NoDup (map fst order)
    /\ (forall v, In v (map fst order) <-> reachable path4 IGRAPH_ALL 1 v)
    /\ (forall v d, In (v, d) order -> weighted_distance path4 IGRAPH_ALL [2; 5; 3] 1 v d)
    /\ nth 1 (res (igraph_closeness_estimate no_interrupt path4 [] [3; 1]%nat IGRAPH_ALL
                     (-1)%float (Some (int_weights [2; 5; 3])) true)) 0%float
       = closeness_score 4 (real_of_long (distance_sum order
                                          + 4 * (4 - Z.of_nat (length order)))).
Proof.
  assert (HW : forall e, (e < length (edges path4))%nat -> 1 <= nth e [2; 5; 3] 0 <= 5).
  { intros e He. simpl in He. destruct e as [|[|[|e]]]; simpl; lia. }
  apply (weighted_closeness_on_integer_weights no_interrupt path4 [] [3; 1]%nat IGRAPH_ALL
           (-1)%float [2; 5; 3] 5 true eq_refl eq_refl eq_refl eq_refl HW ltac:(lia)
           eq_refl eq_refl 1%nat).
  simpl. lia.
Defined.

(** X13.  In the unweighted engine an integer cutoff of at least [n - 1] is
    no cutoff: no vertex is dequeued at a distance of [n] or more, so on a
    well-formed graph the call is the call of [igraph_closeness], whatever
    its other arguments: the same return code, result vector, warnings and
    polls. *)
Theorem large_cutoff_is_exact :
  forall handler g res0 vids mode C normalized,
    graph_wf g = true -> Z.of_nat (vcount g) - 1 <= C < 2 ^ 53 ->
    igraph_closeness_estimate handler g res0 vids mode (real_of_long C) None normalized
    = igraph_closeness handler g res0 vids mode None normalized.
Proof.
  intros handler g res0 vids mode C normalized Hwf HC.
  unfold igraph_closeness, igraph_closeness_estimate, closeness_estimate_unweighted.
  destruct (igraph_vit_create g vids) eqn:Hv; cbn [negb]; [|reflexivity].
  destruct (invalid_mode mode); [reflexivity|].
  rewrite (closeness_loop_large_cutoff handler g mode C Hwf HC vids O);
    [reflexivity|exact Hv|exact (stamps_upto_init g)].
Qed.

Lemma large_cutoff_is_exact_witness :
  igraph_closeness_estimate interrupt_at_second two_pairs [] [0; 3; 1]%nat IGRAPH_OUT
    (real_of_long 3) None false
  = igraph_closeness interrupt_at_second two_pairs [] [0; 3; 1]%nat IGRAPH_OUT None false.
Proof.
  apply (large_cutoff_is_exact interrupt_at_second two_pairs [] [0; 3; 1]%nat IGRAPH_OUT 3
           false eq_refl).
  assert (4 < 2 ^ 53) by reflexivity. simpl. lia.
Defined.
